(** * ai-judge-pipeline: a shallow embedding of the evaluation pipeline

    The five scripts of the repository are embedded stage by stage:
    - [Generate]  : 1_generate_content.py (generation loop, store merge)
    - [Analysis]  : 2_content_analysis.py (word count)
    - [Judge]     : 3_ai_judge.py         (lenient parser, cross judging)
    - [Winner]    : 4_find_the_winner.py  (normalisation, scores, winner)
    - [LiveQC]    : 5_live_qc.py          (revise loop)

    Conventions.  Python numbers are embedded as exact numbers: [int] as [Z],
    [float] as [Q] (binary64 rounding is abstracted: every claim below is
    about which formula is evaluated, not about its rounding); the one float
    that is not a number, NaN, is kept as a constructor of its own where the
    code can produce it.  Text is embedded as [string] / [list ascii], that
    is, as code points below 128.  A dict that is iterated is an association
    list in insertion order. *)

From Stdlib Require Import ZArith QArith Qround Qabs String Ascii List Lia Lqa Bool.
From Stdlib Require PrimFloat.
From stdpp Require Import base option list strings.
Import ListNotations.

Local Open Scope Z_scope.

(* ===================================================================== *)
(** ** Python strings and exceptions *)
(* ===================================================================== *)

Module Py.

(** The exceptions the scripts can meet; [APIError] is whatever a provider
    SDK raises. *)
Inductive exn : Type :=
| KeyError (key : string)
| TypeError
| AttributeError
| UnboundLocalError
| ValueError
| ZeroDivisionError
| APIError.

(** A loop over records either runs to its end or stops at the first
    exception nobody catches, in the state reached so far. *)
Inductive run (S : Type) : Type :=
| Finished (s : S)
| Crashed (e : exn) (s : S).

Arguments Finished {S} s.
Arguments Crashed {S} e s.

(** The state a loop ends in, finished or crashed. *)
Definition final_state {S : Type} (r : run S) : S :=
  match r with
  | Finished s => s
  | Crashed _ s => s
  end.

(** [for x in items: body], the state threaded through the iterations. *)
Fixpoint for_each {A S : Type} (body : A -> S -> run S) (items : list A) (s : S)
  : run S :=
  match items with
  | [] => Finished s
  | x :: items' =>
      match body x s with
      | Finished s' => for_each body items' s'
      | Crashed e s' => Crashed e s'
      end
  end.

(** Truthiness of an optional string: [None] and the empty string are
    falsy. *)
Definition truthy (text : option string) : bool :=
  match text with
  | Some (String _ _) => true
  | _ => false
  end.

(** [c.isspace()] on code points below 128: 9-13, 28-31 and 32. *)
Definition isspace (c : ascii) : bool :=
  let n := N_of_ascii c in
  ((9 <=? n) && (n <=? 13) || (28 <=? n) && (n <=? 32))%N.

(** [s.lstrip()], [s.rstrip()], [s.strip()] *)
Fixpoint lstrip (s : string) : string :=
  match s with
  | String c s' => if isspace c then lstrip s' else s
  | EmptyString => EmptyString
  end.

Fixpoint rstrip (s : string) : string :=
  match s with
  | String c s' =>
      match rstrip s' with
      | EmptyString => if isspace c then EmptyString else String c EmptyString
      | r => String c r
      end
  | EmptyString => EmptyString
  end.

Definition strip (s : string) : string := rstrip (lstrip s).

(** [s.split(sep)] for a separator of one character. *)
Fixpoint split_char (sep : ascii) (s : string) : list string :=
  match s with
  | EmptyString => [EmptyString]
  | String c s' =>
      if Ascii.eqb c sep then EmptyString :: split_char sep s'
      else match split_char sep s' with
           | piece :: pieces => String c piece :: pieces
           | [] => [String c EmptyString]
           end
  end.

(** [sep in s] *)
Fixpoint contains_char (sep : ascii) (s : string) : bool :=
  match s with
  | EmptyString => false
  | String c s' => Ascii.eqb c sep || contains_char sep s'
  end.

(** [s.split(sep, 1)] when [sep in s]: the text before the first [sep] and
    the text after it. *)
Fixpoint split_first (sep : ascii) (s : string) : string * string :=
  match s with
  | EmptyString => (EmptyString, EmptyString)
  | String c s' =>
      if Ascii.eqb c sep then (EmptyString, s')
      else let '(before, after) := split_first sep s' in (String c before, after)
  end.

(** [s.lower()] on code points below 128. *)
Definition lower_char (c : ascii) : ascii :=
  let n := N_of_ascii c in
  if ((65 <=? n) && (n <=? 90))%N then ascii_of_N (n + 32) else c.

Fixpoint lower (s : string) : string :=
  match s with
  | EmptyString => EmptyString
  | String c s' => String (lower_char c) (lower s')
  end.

(** [s.split()]: the maximal runs of characters that are not whitespace.
    [cur] holds the run being read, last character first. *)
Fixpoint split_ws_from (cur : list ascii) (s : list ascii) : list (list ascii) :=
  match s with
  | [] => match cur with [] => [] | _ :: _ => [rev cur] end
  | c :: s' =>
      if isspace c then
        match cur with
        | [] => split_ws_from [] s'
        | _ :: _ => rev cur :: split_ws_from [] s'
        end
      else split_ws_from (c :: cur) s'
  end.

Definition split_ws (s : string) : list string :=
  string_of_list_ascii <$> split_ws_from [] (list_ascii_of_string s).

(** The newline and the double quote, as strings. *)
Definition nl : string := String "010" EmptyString.
Definition dquote : string := String "034" EmptyString.

(** [sep.join(parts)] *)
Definition join (sep : string) (parts : list string) : string :=
  String.concat sep parts.

(** [needle in s] on strings. *)
Definition substring_of (needle s : string) : Prop :=
  exists before after, s = (before ++ needle ++ after)%string.

(** [s.startswith(prefix)] *)
Definition startswith (s prefix : string) : bool := String.prefix prefix s.

Definition is_digit (c : ascii) : bool :=
  let n := N_of_ascii c in ((48 <=? n) && (n <=? 57))%N.

Definition digit_value (c : ascii) : Z := Z.of_N (N_of_ascii c) - 48.

(** The digits of an [int] literal, single underscores allowed between
    digits; [after_digit] tells whether the previous character was one. *)
Fixpoint int_digits (acc : Z) (after_digit : bool) (s : string) : option Z :=
  match s with
  | EmptyString => if after_digit then Some acc else None
  | String c s' =>
      if is_digit c then int_digits (10 * acc + digit_value c) true s'
      else if Ascii.eqb c "_" then
        if after_digit then int_digits acc false s' else None
      else None
  end.

(** The number of decimal digits in a text. *)
Fixpoint digit_count (s : string) : nat :=
  match s with
  | EmptyString => 0%nat
  | String c s' => ((if is_digit c then 1 else 0) + digit_count s')%nat
  end.

(** [sys.get_int_max_str_digits()], as CPython ships it. *)
Definition int_max_str_digits : nat := 4300.

(** [int(s)]: surrounding whitespace, an optional sign, decimal digits;
    [None] stands for [ValueError], which CPython (3.11 and later, and the
    security releases before it) also raises for a literal of more than
    [int_max_str_digits] digits. *)
Definition int_of_str (s : string) : option Z :=
  let literal := strip s in
  if (int_max_str_digits <? digit_count literal)%nat then None
  else
    match literal with
    | String "+" digits => int_digits 0 false digits
    | String "-" digits => Z.opp <$> int_digits 0 false digits
    | digits => int_digits 0 false digits
    end.

End Py.

(* ===================================================================== *)
(** ** Python dicts with string keys, in insertion order *)
(* ===================================================================== *)

Module Dict.

Abbreviation dict V := (list (string * V)) (only parsing).

(** [d.get(k)]: [None] when the key is absent (where [d[k]] raises
    [KeyError]). *)
Fixpoint dict_get {V : Type} (k : string) (d : dict V) : option V :=
  match d with
  | [] => None
  | (k', v') :: d' => if String.eqb k' k then Some v' else dict_get k d'
  end.

(** [d[k] = v]: an existing key keeps its position, a new key goes last. *)
Fixpoint dict_set {V : Type} (k : string) (v : V) (d : dict V) : dict V :=
  match d with
  | [] => [(k, v)]
  | (k', v') :: d' =>
      if String.eqb k' k then (k, v) :: d' else (k', v') :: dict_set k v d'
  end.

End Dict.

(* ===================================================================== *)
(** ** The result store and its merge (1_generate_content.py, lines
       141-142 and 181-191; 3_ai_judge.py, lines 142-143 and 173-183) *)
(* ===================================================================== *)

Module Store.

Import Dict.

Section Merge.

(** The record type of the stage and its ["id"] field. *)
Context {R : Type} (rid : R -> string).

(** [for i, existing_record in enumerate(records): if existing_record["id"]
    == pid: ...; break]: the index at which the loop breaks, counted from
    [i]. *)
Fixpoint find_index (pid : string) (records : list R) (i : nat) : option nat :=
  match records with
  | [] => None
  | existing_record :: records' =>
      if String.eqb (rid existing_record) pid then Some i
      else find_index pid records' (S i)
  end.

(** The found / not found update of one model's list. *)
Definition merge_record (records : list R) (record : R) : list R :=
  match find_index (rid record) records 0 with
  | Some i => <[i := record]> records
  | None => records ++ [record]
  end.

(** [if model not in store: store[model] = []] *)
Definition ensure_model (model : string) (store : dict (list R)) : dict (list R) :=
  match dict_get model store with
  | Some _ => store
  | None => dict_set model [] store
  end.

(** The merge on [store[model]], which is updated in place.  The key is
    present when the stage gets here, [ensure_model] having run. *)
Definition merge_model (model : string) (record : R) (store : dict (list R))
  : dict (list R) :=
  match dict_get model store with
  | Some records => dict_set model (merge_record records record) store
  | None => store
  end.

(** One model of a run: the records come in prompt order. *)
Definition run_model (model : string) (records : list R) (store : dict (list R))
  : dict (list R) :=
  fold_left (fun st record => merge_model model record st) records
    (ensure_model model store).

(** A whole run of a stage in which every record is produced. *)
Definition run_stage (batch : list (string * list R)) (store : dict (list R))
  : dict (list R) :=
  fold_left (fun st '(model, records) => run_model model records st) batch store.

(** Number of records in the store. *)
Definition record_count (store : dict (list R)) : nat :=
  sum_list ((fun entry : string * list R => length (snd entry)) <$> store).

(** The prompt ids of each model, in order. *)
Definition store_ids (store : dict (list R)) : dict (list string) :=
  (fun entry : string * list R => (fst entry, rid <$> snd entry)) <$> store.

(** Every model's list has pairwise different ids. *)
Definition unique_ids (store : dict (list R)) : Prop :=
  forall model records,
    dict_get model store = Some records -> NoDup (rid <$> records).

(** The (model, prompt id) pairs a run goes through. *)
Definition batch_ids (batch : list (string * list R)) : list (string * list string) :=
  (fun entry : string * list R => (fst entry, rid <$> snd entry)) <$> batch.

(** The store has the model, and the model's list has each of the ids. *)
Definition covers (store : dict (list R)) (entry : string * list string) : Prop :=
  exists records,
    dict_get (fst entry) store = Some records /\
    forall pid, pid ∈ snd entry -> pid ∈ rid <$> records.

(** The entries of the models that have at least one record. *)
Definition has_records (entry : string * list R) : bool :=
  match snd entry with
  | [] => false
  | _ :: _ => true
  end.

Definition filled (store : dict (list R)) : dict (list R) :=
  List.filter has_records store.

End Merge.

End Store.

(* ===================================================================== *)
(** ** 1_generate_content.py *)
(* ===================================================================== *)

Module Generate.

Import Py Dict.
Local Open Scope string_scope.

Record Prompt : Type := mkPrompt {
  p_id       : string;
  p_title    : string;
  p_keywords : list string
}.

(** The [usage] dict. *)
Record Usage : Type := mkUsage {
  u_prompt_tokens     : Z;
  u_completion_tokens : Z;
  u_total_tokens      : Z
}.

(** A record of content_with_costs.json; ["response"] holds whatever the
    call returned as text. *)
Record GenerationRecord : Type := mkGenerationRecord {
  id                : string;
  title             : string;
  keywords          : list string;
  prompt_tokens     : Z;
  completion_tokens : Z;
  total_tokens      : Z;
  latency_ms        : Z;
  cost_usd          : Q;
  response          : option string
}.

(** The [pricing] table as shipped: (input $/1M, output $/1M,
    words_per_token). *)
Definition pricing : dict (Q * Q * Q) :=
  [ ("gemini-2.5-flash-preview-05-20", (0.15, 3.50, 0.70)%Q) ].

(** The [prompts] list as shipped. *)
Definition prompts : list Prompt :=
  [ {| p_id := "P1"; p_title := "5 Trends in AI-Assisted Learning";
       p_keywords := ["personalized learning"; "adaptive quizzes"; "AI tutoring";
                      "learning analytics"; "student engagement"] |};
    {| p_id := "P2"; p_title := "Remote Work: The New Normal";
       p_keywords := ["hybrid teams"; "virtual collaboration"; "digital nomads";
                      "work-life balance"; "productivity tools"] |};
    {| p_id := "P3"; p_title := "Blockchain Adoption in Small Business";
       p_keywords := ["supply chain"; "smart contracts"; "transaction fees";
                      "decentralization"; "security"] |};
    {| p_id := "P4"; p_title := "Sustainable Tech: Greener Data Centers";
       p_keywords := ["energy efficiency"; "liquid cooling"; "renewable power";
                      "carbon footprint"; "PUE (Power Usage Effectiveness)"] |};
    {| p_id := "P5"; p_title := "Cybersecurity Trends for 2025";
       p_keywords := ["zero trust"; "AI threat detection"; "ransomware";
                      "IoT security"; "data privacy"] |} ].

(** What the OpenAI call of [call_openai] can do. *)
Inductive openai_outcome : Type :=
| CreateRaises
    (* [openai.responses.create] raises: [resp] is never bound *)
| ReadRaises
    (* the call returns, reading the text or the usage off [resp] raises *)
| Returns (text : option string) (usage : Usage).

(** What the Gemini call of [call_gemini] can do. *)
Inductive gemini_outcome : Type :=
| GenerateRaises
| Responds (text : option string).

(** The world outside: what each provider does on a call (by model and user
    message) and the wall-clock milliseconds a call takes (by model and
    prompt id). *)
Record gen_env : Type := mkGenEnv {
  openai_does : string -> string -> openai_outcome;
  gemini_does : string -> string -> gemini_outcome;
  elapsed_ms  : string -> string -> Z
}.

(** def call_openai(model_name, system_msg, user_msg).  In the handler,
    [print(resp.json())] reads [resp]: when [create] itself raised, the name
    is unbound and the handler raises [UnboundLocalError]. *)
Definition call_openai (env : gen_env) (model_name system_msg user_msg : string)
  : exn + (option string * option Usage) :=
  match openai_does env model_name user_msg with
  | Returns text usage => inr (text, Some usage)
  | ReadRaises => inr (None, None)
  | CreateRaises => inl UnboundLocalError
  end.

(** [int(x)] of a float: truncation towards zero. *)
Definition int_of_float (x : Q) : Z := Z.quot (Qnum x) (Zpos (Qden x)).

(** [len(s.split())] *)
Definition word_len (s : string) : Z := Z.of_nat (length (split_ws s)).

(** def call_gemini(model_name, system_msg, user_msg, wpt); nothing is
    caught here. *)
Definition call_gemini (env : gen_env) (model_name system_msg user_msg : string)
    (wpt : Q) : exn + (option string * option Usage) :=
  let contents := [system_msg; user_msg] in
  match gemini_does env model_name user_msg with
  | GenerateRaises => inl APIError
  | Responds None => inl AttributeError
  | Responds (Some text) =>
      let words_in := word_len (join " " contents) in
      let words_out := word_len text in
      if Qeq_bool wpt 0 then inl ZeroDivisionError
      else
        let in_toks := Z.max 1 (int_of_float (inject_Z words_in / wpt)) in
        let out_toks := Z.max 1 (int_of_float (inject_Z words_out / wpt)) in
        inr (Some text,
             Some {| u_prompt_tokens := in_toks;
                     u_completion_tokens := out_toks;
                     u_total_tokens := in_toks + out_toks |})
  end.

(** def compute_cost(model_name, in_toks, out_toks), the rates being those
    of [pricing[model_name]]. *)
Definition compute_cost (in_rate out_rate : Q) (in_toks out_toks : Z) : Q :=
  ((inject_Z in_toks / 1000000) * in_rate
   + (inject_Z out_toks / 1000000) * out_rate)%Q.

(** Round half to even, to an integer. *)
Definition round_half_even (x : Q) : Z :=
  let f := Qfloor x in
  match Qcompare (x - inject_Z f) (1 # 2) with
  | Lt => f
  | Gt => f + 1
  | Eq => if Z.even f then f else f + 1
  end.

(** [round(x, 4)], on the exact value of [x]: the code rounds the binary64
    value of the cost, which on a tie of the exact value can fall on the
    other side. *)
Definition round4 (x : Q) : Q :=
  (inject_Z (round_half_even (x * 10000)) / 10000)%Q.

Definition system_instruction : string :=
  "You are an expert tech writer with a friendly, witty personality. " ++
  "Produce fact-checked, safe, and highly accurate articles.".

(** The [user_instruction] of [main]. *)
Definition user_instruction (title : string) (kws : list string) : string :=
  "Title: " ++ dquote ++ title ++ dquote ++ nl ++
  "- Write a 1,500 - 2,500 word article." ++ nl ++
  "- Cite at least two reputable sources with URLs." ++ nl ++
  "- Cover these keywords: " ++ join ", " kws ++ "." ++ nl ++
  "- Avoid unsafe, biased, or sensitive content." ++ nl ++
  "- Use a warm, conversational tone with a light joke or analogy.".

(** The state of [main]: the store in memory and the store last written to
    content_with_costs.json. *)
Record state : Type := mkState {
  existing_results : dict (list GenerationRecord);
  disk             : option (dict (list GenerationRecord))
}.

(** The body of [for item in prompts]. *)
Definition generate_item (env : gen_env) (model : string) (rates : Q * Q * Q)
    (item : Prompt) (st : state) : run state :=
  let '(in_rate, out_rate, wpt) := rates in
  let pid := p_id item in
  let title := p_title item in
  let kws := p_keywords item in
  let user_instruction := user_instruction title kws in
  let called :=
    if startswith model "gemini"
    then call_gemini env model system_instruction user_instruction wpt
    else call_openai env model system_instruction user_instruction in
  match called with
  | inl e => Crashed e st
  | inr (text, None) => Crashed TypeError st
  | inr (text, Some usage) =>
      let latency_ms := elapsed_ms env model pid in
      let in_toks := u_prompt_tokens usage in
      let out_toks := u_completion_tokens usage in
      let cost_usd := compute_cost in_rate out_rate in_toks out_toks in
      let record :=
        {| id := pid;
           title := title;
           keywords := kws;
           prompt_tokens := in_toks;
           completion_tokens := out_toks;
           total_tokens := in_toks + out_toks;
           latency_ms := latency_ms;
           cost_usd := round4 cost_usd;
           response := text |} in
      let merged := Store.merge_model id model record (existing_results st) in
      Finished {| existing_results := merged; disk := Some merged |}
  end.

(** The body of [for model in models]. *)
Definition generate_model (env : gen_env) (prompts : list Prompt)
    (entry : string * (Q * Q * Q)) (st : state) : run state :=
  let '(model, rates) := entry in
  let st := {| existing_results := Store.ensure_model model (existing_results st);
               disk := disk st |} in
  for_each (generate_item env model rates) prompts st.

(** def main(), for a pricing table and a prompt list, from the costs file
    found on disk (if any). *)
Definition main (env : gen_env) (pricing : dict (Q * Q * Q)) (prompts : list Prompt)
    (found : option (dict (list GenerationRecord))) : run state :=
  let existing := match found with Some r => r | None => [] end in
  for_each (generate_model env prompts) pricing
    {| existing_results := existing; disk := found |}.

(** The prompt a record was generated for. *)
Definition prompt_of (r : GenerationRecord) : Prompt :=
  {| p_id := id r; p_title := title r; p_keywords := keywords r |}.

(** The call of [main] for one prompt: [call_gemini] for a model whose
    name starts with "gemini", [call_openai] otherwise. *)
Definition call_model (env : gen_env) (model : string) (wpt : Q)
    (user_instruction : string) : exn + (option string * option Usage) :=
  if startswith model "gemini"
  then call_gemini env model system_instruction user_instruction wpt
  else call_openai env model system_instruction user_instruction.

(** The call came back with a usage dict that [main] can read. *)
Definition returns_usage (called : exn + (option string * option Usage)) : Prop :=
  match called with
  | inr (_, Some _) => True
  | _ => False
  end.

End Generate.

(* ===================================================================== *)
(** ** Regular expressions of the [re] module, as far as the scripts use
       them *)
(* ===================================================================== *)

Module Regex.

Import Py.

(** Patterns.  A non-capturing group [(?:...)] is the pattern inside it;
    [Group] is the capturing group (the scripts use at most one). *)
Inductive regex : Type :=
| Lit (c : ascii)
| Class (member : ascii -> bool)
| Seq (r1 r2 : regex)
| Alt (r1 r2 : regex)
| Opt (r : regex)
| Plus (r : regex)
| Group (r : regex).

(** The text held by group 1, if the group has matched. *)
Abbreviation capture := (option (list ascii)) (only parsing).

(** What is left of the subject after a match, with the capture. *)
Abbreviation matched := (list ascii * option (list ascii))%type (only parsing).

(** The greedy loop of [r+], [step] being the matcher of [r]: match [r]
    once, then try to go round again before going on with [k]; an iteration
    that did not move ends the loop.  At most [n] iterations are tried:
    every iteration but the last moves, so one more than the length of the
    subject is enough. *)
Fixpoint plus_loop
    (step : list ascii -> capture -> (list ascii -> capture -> option matched)
            -> option matched)
    (n : nat) (s : list ascii) (cap : capture)
    (k : list ascii -> capture -> option matched) : option matched :=
  match n with
  | O => None
  | S n' =>
      step s cap (fun s' cap' =>
        if (length s' <? length s)%nat then
          match plus_loop step n' s' cap' k with
          | Some m => Some m
          | None => k s' cap'
          end
        else k s' cap')
  end.

(** The backtracking matcher: [match_re r s cap k] matches [r] at the start
    of [s] and goes on with [k] on what is left; when [k] fails the next
    way of matching [r] is tried, alternatives from left to right and
    repetitions from the longest down. *)
Fixpoint match_re (r : regex) (s : list ascii) (cap : capture)
    (k : list ascii -> capture -> option matched) {struct r} : option matched :=
  match r with
  | Lit c =>
      match s with
      | c' :: s' => if Ascii.eqb c' c then k s' cap else None
      | [] => None
      end
  | Class member =>
      match s with
      | c' :: s' => if member c' then k s' cap else None
      | [] => None
      end
  | Seq r1 r2 => match_re r1 s cap (fun s' cap' => match_re r2 s' cap' k)
  | Alt r1 r2 =>
      match match_re r1 s cap k with
      | Some m => Some m
      | None => match_re r2 s cap k
      end
  | Opt r1 =>
      match match_re r1 s cap k with
      | Some m => Some m
      | None => k s cap
      end
  | Plus r1 => plus_loop (match_re r1) (S (length s)) s cap k
  | Group r1 =>
      match_re r1 s cap (fun s' _ =>
        k s' (Some (take (length s - length s') s)))
  end.

(** [pattern.match(s)]: what is left of [s] and the capture, if [r] matches
    at the start of [s]. *)
Definition match_here (r : regex) (s : list ascii) : option matched :=
  match_re r s None (fun s' cap => Some (s', cap)).

(** The scan of [re.sub(r, repl, s)] for a pattern that does not match the
    empty string: at each position not covered by the previous match, try
    the pattern; on a match put the replacement and skip the matched text.
    [skip] is the number of characters still covered by the last match. *)
Fixpoint sub_from (r : regex) (repl : capture -> list ascii) (skip : nat)
    (s : list ascii) : list ascii :=
  match s with
  | [] => []
  | c :: s' =>
      match skip with
      | S skip' => sub_from r repl skip' s'
      | O =>
          match match_here r s with
          | Some (rest, cap) =>
              if (length rest <? length s)%nat then
                repl cap ++ sub_from r repl (length s' - length rest) s'
              else c :: sub_from r repl 0 s'
          | None => c :: sub_from r repl 0 s'
          end
      end
  end.

(** [re.sub(r, repl, s)] *)
Definition sub (r : regex) (repl : capture -> list ascii) (s : string) : string :=
  string_of_list_ascii (sub_from r repl 0 (list_ascii_of_string s)).

(** The replacement [r'\1'] and a constant replacement. *)
Definition group1 (cap : capture) : list ascii :=
  match cap with
  | Some text => text
  | None => []
  end.

Definition const (text : string) (cap : capture) : list ascii :=
  list_ascii_of_string text.

(** Character classes, on code points below 128. *)
Definition in_range (lo hi : ascii) (c : ascii) : bool :=
  ((N_of_ascii lo <=? N_of_ascii c) && (N_of_ascii c <=? N_of_ascii hi))%N.

Definition one_of (chars : string) (c : ascii) : bool :=
  existsb (Ascii.eqb c) (list_ascii_of_string chars).

(** [[^x]] *)
Definition not_char (x : ascii) (c : ascii) : bool := negb (Ascii.eqb c x).

(** [\w] *)
Definition word_char (c : ascii) : bool :=
  in_range "a" "z" c || in_range "A" "Z" c || in_range "0" "9" c || Ascii.eqb c "_".

(** The subject ends here or goes on with a character outside [p]. *)
Definition stops (p : ascii -> bool) (s : list ascii) : Prop :=
  match s with
  | [] => True
  | c :: _ => p c = false
  end.

(** A literal string. *)
Fixpoint lits (text : list ascii) (r : regex) : regex :=
  match text with
  | [] => r
  | c :: text' => Seq (Lit c) (lits text' r)
  end.

End Regex.

(* ===================================================================== *)
(** ** 2_content_analysis.py *)
(* ===================================================================== *)

Module Analysis.

Import Py Regex.
Local Open Scope string_scope.

(** r'\[([^\]]+)\]\([^\)]+\)' *)
Definition md_link : regex :=
  Seq (Lit "[")
 (Seq (Group (Plus (Class (not_char "]"))))
 (Seq (Lit "]")
 (Seq (Lit "(")
 (Seq (Plus (Class (not_char ")")))
      (Lit ")"))))).

Definition hex_digit (c : ascii) : bool :=
  in_range "0" "9" c || in_range "a" "f" c || in_range "A" "F" c.

(** The alternatives of the repeated group of the URL pattern:
    [a-zA-Z], [0-9], [$-_@.&+] (a range from $ to _ and four characters),
    [!*\\(\\),] (the backslash, written twice, and five characters), and
    a percent sign with two hexadecimal digits. *)
Definition url_piece : regex :=
  Alt (Class (fun c => in_range "a" "z" c || in_range "A" "Z" c))
 (Alt (Class (in_range "0" "9"))
 (Alt (Class (fun c => in_range "$" "_" c || one_of "@.&+" c))
 (Alt (Class (one_of "!*\(\),"))
      (Seq (Lit "%") (Seq (Class hex_digit) (Class hex_digit)))))).

(** r'http[s]?://(?:[a-zA-Z]|[0-9]|[$-_@.&+]|[!*\\(\\),]|(?:%[0-9a-fA-F][0-9a-fA-F]))+' *)
Definition url_pattern : regex :=
  lits (list_ascii_of_string "http")
    (Seq (Opt (Class (one_of "s")))
       (lits (list_ascii_of_string "://") (Plus url_piece))).

(** r'[^\w\s]' *)
Definition special_char : regex :=
  Class (fun c => negb (word_char c || isspace c)).

(** r'\s+' *)
Definition whitespace_run : regex := Plus (Class isspace).

(** def extract_urls(text): the matches of [re.findall], left to right. *)
Fixpoint findall_from (r : regex) (skip : nat) (s : list ascii) : list (list ascii) :=
  match s with
  | [] => []
  | c :: s' =>
      match skip with
      | S skip' => findall_from r skip' s'
      | O =>
          match match_here r s with
          | Some (rest, _) =>
              if (length rest <? length s)%nat then
                take (length s - length rest) s
                :: findall_from r (length s' - length rest) s'
              else findall_from r 0 s'
          | None => findall_from r 0 s'
          end
      end
  end.

Definition extract_urls (text : string) : list string :=
  string_of_list_ascii <$> findall_from url_pattern 0 (list_ascii_of_string text).

(** The characters the URL pattern repeats over, one at a time. *)
Definition url_char (c : ascii) : bool :=
  in_range "a" "z" c || in_range "A" "Z" c || in_range "0" "9" c
  || (in_range "$" "_" c || one_of "@.&+" c) || one_of "!*\(\)," c.

(** The subject ends here or goes on with whitespace. *)
Definition ends_word (s : list ascii) : Prop :=
  match s with
  | [] => True
  | c :: _ => isspace c = true
  end.

(** Spec side: a text that consists only of URLs that the pattern takes
    whole: whitespace, and bare URLs, each a scheme followed by characters
    that the URL pattern accepts, no square bracket among them, and each
    running up to whitespace or the end.  A URL with a character outside
    the pattern (a hash sign, a tilde) is not of this kind. *)
Inductive urls_only : list ascii -> Prop :=
| urls_end : urls_only []
| urls_space (c : ascii) (s : list ascii) :
    isspace c = true -> urls_only s -> urls_only (c :: s)
| urls_url (scheme body s : list ascii) :
    scheme = list_ascii_of_string "http://" \/
    scheme = list_ascii_of_string "https://" ->
    body <> [] ->
    Forall (fun c => url_char c = true /\ c <> "["%char) body ->
    ends_word s -> urls_only s ->
    urls_only (scheme ++ body ++ s).

(** def count_words(text) *)
Definition count_words (text : string) : nat :=
  let analysis_text := text in
  let analysis_text := sub md_link group1 analysis_text in
  let analysis_text := sub url_pattern (const EmptyString) analysis_text in
  let analysis_text := sub special_char (const " ") analysis_text in
  let analysis_text := strip (sub whitespace_run (const " ") analysis_text) in
  length (split_ws analysis_text).

(** What the third substitution of [count_words] makes of a character: a
    character that is neither a word character nor whitespace becomes a
    space. *)
Definition blank (c : ascii) : ascii :=
  if word_char c || isspace c then c else " "%char.

End Analysis.

(* ===================================================================== *)
(** ** 3_ai_judge.py *)
(* ===================================================================== *)

Module Judge.

Import Py Dict.

(** A value of the dict returned by [parse_analysis]: a score or a tone. *)
Inductive value : Type :=
| VInt (n : Z)
| VStr (s : string).

(** A record of content_with_analysis.json. *)
Record AnalysisRecord : Type := mkAnalysisRecord {
  a_id                : string;
  a_title             : string;
  a_keywords          : list string;
  a_prompt_tokens     : Z;
  a_completion_tokens : Z;
  a_total_tokens      : Z;
  a_latency_ms        : Z;
  a_cost_usd          : Q;
  a_response          : string;
  a_words_count       : Z;
  a_broken_links      : list string
}.

(** A record of content_with_judgment.json. *)
Record JudgmentRecord : Type := mkJudgmentRecord {
  id                : string;
  title             : string;
  keywords          : list string;
  prompt_tokens     : Z;
  completion_tokens : Z;
  total_tokens      : Z;
  latency_ms        : Z;
  cost_usd          : Q;
  response          : string;
  words_count       : Z;
  broken_links      : list string;
  accuracy          : value;
  safety            : value;
  factuality        : value;
  tone              : value
}.

(** The dict returned on every failure path. *)
Definition sentinel : dict value :=
  [ ("accuracy", VInt 0); ("safety", VInt 0); ("factuality", VInt 0);
    ("tone", VStr "unknown") ]%string.

Definition score_keys : list string := ["accuracy"; "safety"; "factuality"]%string.

(** The body of [for line in lines]. *)
Definition parse_line (result : dict value) (line : string) : dict value :=
  if contains_char ":" line then
    let '(key, value) := split_first ":" line in
    let key := lower (strip key) in
    let value := strip value in
    if bool_decide (key ∈ score_keys) then
      match int_of_str value with
      | Some n => dict_set key (VInt n) result
      | None => dict_set key (VInt 0) result
      end
    else if String.eqb key "tone" then dict_set key (VStr value) result
    else result
  else result.

(** The [try] block of [parse_analysis]. *)
Definition parse_analysis_try (text : option string) : exn + dict value :=
  match text with
  | Some (String c t) =>
      let lines := split_char "010" (strip (String c t)) in
      inr (fold_left parse_line lines [])
  | _ => inl ValueError
  end.

(** def parse_analysis(text) *)
Definition parse_analysis (text : option string) : dict value :=
  match parse_analysis_try text with
  | inr result => result
  | inl _ => sentinel
  end.

(** What a call of a judge capability can do. *)
Inductive judge_outcome : Type :=
| JRaises
| JNoResponse
| JText (text : option string).

(** def analyze_with_gemini(text), given what the capability does. *)
Definition analyze_with_gemini (out : judge_outcome) : dict value :=
  match out with
  | JRaises => sentinel
  | JNoResponse => sentinel
  | JText text => parse_analysis text
  end.

(** def analyze_with_openai(text), given what the capability does. *)
Definition analyze_with_openai (out : judge_outcome) : dict value :=
  match out with
  | JRaises => sentinel
  | JNoResponse => sentinel
  | JText text => if truthy text then parse_analysis text else sentinel
  end.

(** The two judge capabilities. *)
Inductive judge : Type :=
| OpenAIJudge
| GeminiJudge.

(** The provider world: what a judge answers on an article. *)
Definition judge_env : Type := judge -> string -> judge_outcome.

(** [if model.startswith('gemini'): ... else: ...] *)
Definition analyzer_for (model : string) : judge :=
  if startswith model "gemini" then OpenAIJudge else GeminiJudge.

Definition analyze (env : judge_env) (j : judge) (text : string) : dict value :=
  match j with
  | OpenAIJudge => analyze_with_openai (env OpenAIJudge text)
  | GeminiJudge => analyze_with_gemini (env GeminiJudge text)
  end.

(** [analysis[key]] *)
Definition subscript (analysis : dict value) (key : string) : exn + value :=
  match dict_get key analysis with
  | Some v => inr v
  | None => inl (KeyError key)
  end.

(** The dict literal [judgment_record = {...}], its entries evaluated in
    order. *)
Definition judgment_record_of (result : AnalysisRecord) (analysis : dict value)
  : exn + JudgmentRecord :=
  match subscript analysis "accuracy" with
  | inl e => inl e
  | inr acc =>
  match subscript analysis "safety" with
  | inl e => inl e
  | inr saf =>
  match subscript analysis "factuality" with
  | inl e => inl e
  | inr fac =>
  match subscript analysis "tone" with
  | inl e => inl e
  | inr ton =>
      inr {| id := a_id result;
             title := a_title result;
             keywords := a_keywords result;
             prompt_tokens := a_prompt_tokens result;
             completion_tokens := a_completion_tokens result;
             total_tokens := a_total_tokens result;
             latency_ms := a_latency_ms result;
             cost_usd := a_cost_usd result;
             response := a_response result;
             words_count := a_words_count result;
             broken_links := a_broken_links result;
             accuracy := acc;
             safety := saf;
             factuality := fac;
             tone := ton |}
  end end end end.

(** The state of [judge_content]: the store in memory, the store last
    written to content_with_judgment.json, and the capability calls made
    so far (model, prompt id, judge), latest first. *)
Record state : Type := mkState {
  existing_judgments : dict (list JudgmentRecord);
  disk               : option (dict (list JudgmentRecord));
  calls              : list (string * string * judge)
}.

(** The body of [for result in results]. *)
Definition judge_result (env : judge_env) (model : string)
    (result : AnalysisRecord) (st : state) : run state :=
  let j := analyzer_for model in
  let analysis := analyze env j (a_response result) in
  let st := {| existing_judgments := existing_judgments st;
               disk := disk st;
               calls := (model, a_id result, j) :: calls st |} in
  match judgment_record_of result analysis with
  | inl e => Crashed e st
  | inr judgment_record =>
      let merged :=
        Store.merge_model id model judgment_record (existing_judgments st) in
      Finished {| existing_judgments := merged;
                  disk := Some merged;
                  calls := calls st |}
  end.

(** The body of [for model, results in data.items()]. *)
Definition judge_model (env : judge_env) (entry : string * list AnalysisRecord)
    (st : state) : run state :=
  let '(model, results) := entry in
  let st := {| existing_judgments := Store.ensure_model model (existing_judgments st);
               disk := disk st;
               calls := calls st |} in
  for_each (judge_result env model) results st.

(** def judge_content(), from the judgment file found on disk (if any) and
    the analysis file. *)
Definition judge_content (env : judge_env)
    (found : option (dict (list JudgmentRecord)))
    (data : dict (list AnalysisRecord)) : run state :=
  let existing := match found with Some j => j | None => [] end in
  for_each (judge_model env) data
    {| existing_judgments := existing; disk := found; calls := [] |}.

(** The eleven fields a judgment record takes over from the analysis
    record. *)
Definition analysis_of (r : JudgmentRecord) : AnalysisRecord :=
  {| a_id := id r; a_title := title r; a_keywords := keywords r;
     a_prompt_tokens := prompt_tokens r;
     a_completion_tokens := completion_tokens r;
     a_total_tokens := total_tokens r; a_latency_ms := latency_ms r;
     a_cost_usd := cost_usd r; a_response := response r;
     a_words_count := words_count r; a_broken_links := broken_links r |}.

(** The four keys [judge_content] reads are all there. *)
Definition complete (analysis : dict value) : Prop :=
  Forall (fun key => dict_get key analysis <> None)
    ["accuracy"; "safety"; "factuality"; "tone"]%string.

(** The scores and the tone of the failure sentinel. *)
Definition is_sentinel (r : JudgmentRecord) : Prop :=
  accuracy r = VInt 0 /\ safety r = VInt 0 /\ factuality r = VInt 0 /\
  tone r = VStr "unknown".

(** The capability gave no usable answer. *)
Definition judge_fails (out : judge_outcome) : Prop :=
  match out with
  | JRaises | JNoResponse | JText None | JText (Some EmptyString) => True
  | JText (Some (String _ _)) => False
  end.

(** An entry as [parse_analysis] writes it: an integer under a score key,
    a string under [tone]. *)
Definition typed (entry : string * value) : Prop :=
  match snd entry with
  | VInt _ => fst entry ∈ score_keys
  | VStr _ => fst entry = "tone"%string
  end.

(** The scores of a record are integers and its tone is a string. *)
Definition scored (r : JudgmentRecord) : Prop :=
  (exists n, accuracy r = VInt n) /\ (exists n, safety r = VInt n) /\
  (exists n, factuality r = VInt n) /\ (exists s, tone r = VStr s).

(** The key a line of the answer gives a value for: the text before its
    first colon, stripped and in lower case. *)
Definition line_key (line : string) : option string :=
  if contains_char ":" line
  then Some (lower (strip (fst (split_first ":" line))))
  else None.

(** The value [parse_analysis] stores for a line under [key]: the text
    after the first colon, stripped; under a score key its [int], or 0 when
    it is not one. *)
Definition line_value (key line : string) : value :=
  let value := strip (snd (split_first ":" line)) in
  if bool_decide (key ∈ score_keys)
  then VInt (default 0 (int_of_str value))
  else VStr value.

End Judge.

(* ===================================================================== *)
(** ** 2_content_analysis.py: the stage *)
(* ===================================================================== *)

Module ContentAnalysis.

Import Py Dict Analysis.

(** What [requests.head(url, timeout=5, allow_redirects=True)] can do. *)
Inductive head_outcome : Type :=
| HeadStatus (status_code : Z)
| HeadRaises (message : string)
    (* a [requests.RequestException], the only exception [check_url]
       catches *)
| HeadFails (e : exn)
    (* any other exception *).

(** The network: what a probe does, by model, record id, position of the
    URL in the text and URL. *)
Definition probe_env : Type := string -> string -> nat -> string -> head_outcome.

(** The dict returned by [check_url]; ['status'] is the status code or the
    string ['error'] ([None] here), ['error'] is there on that path only. *)
Record UrlResult : Type := mkUrlResult {
  url    : string;
  status : option Z;
  valid  : bool;
  error  : option string
}.

(** def check_url(url), given what the probe does. *)
Definition check_url (out : head_outcome) (url : string) : exn + UrlResult :=
  match out with
  | HeadStatus status_code =>
      inr {| url := url;
             status := Some status_code;
             valid := (200 <=? status_code) && (status_code <? 400);
             error := None |}
  | HeadRaises message =>
      inr {| url := url; status := None; valid := false;
             error := Some message |}
  | HeadFails e => inl e
  end.

(** [list(executor.map(check_url, urls))]: the results in the order of the
    URLs; the first exception met in that order is raised. *)
Fixpoint check_urls (probe : nat -> string -> head_outcome) (position : nat)
    (urls : list string) : exn + list UrlResult :=
  match urls with
  | [] => inr []
  | url :: urls' =>
      match check_url (probe position url) url with
      | inl e => inl e
      | inr url_result =>
          match check_urls probe (S position) urls' with
          | inl e => inl e
          | inr url_results => inr (url_result :: url_results)
          end
      end
  end.

(** The body of [for result in results]: the record with its two new
    keys.  [count_words] raises [TypeError] on a response that is not a
    string; with no URL no probe is made. *)
Definition analyze_result (env : probe_env) (model : string)
    (result : Generate.GenerationRecord) : exn + Judge.AnalysisRecord :=
  match Generate.response result with
  | None => inl TypeError
  | Some original_response =>
      let word_count := count_words original_response in
      let urls := extract_urls original_response in
      match check_urls (env model (Generate.id result)) 0 urls with
      | inl e => inl e
      | inr url_results =>
          let broken_links :=
            url <$> List.filter (fun url_result => negb (valid url_result))
                      url_results in
          inr {| Judge.a_id := Generate.id result;
                 Judge.a_title := Generate.title result;
                 Judge.a_keywords := Generate.keywords result;
                 Judge.a_prompt_tokens := Generate.prompt_tokens result;
                 Judge.a_completion_tokens := Generate.completion_tokens result;
                 Judge.a_total_tokens := Generate.total_tokens result;
                 Judge.a_latency_ms := Generate.latency_ms result;
                 Judge.a_cost_usd := Generate.cost_usd result;
                 Judge.a_response := original_response;
                 Judge.a_words_count := Z.of_nat word_count;
                 Judge.a_broken_links := broken_links |}
      end
  end.

(** [for result in results] *)
Fixpoint analyze_results (env : probe_env) (model : string)
    (results : list Generate.GenerationRecord)
  : exn + list Judge.AnalysisRecord :=
  match results with
  | [] => inr []
  | result :: results' =>
      match analyze_result env model result with
      | inl e => inl e
      | inr record =>
          match analyze_results env model results' with
          | inl e => inl e
          | inr records => inr (record :: records)
          end
      end
  end.

(** def analyze_content(), from the costs file: what is written to
    content_with_analysis.json, once, after the last record; an exception
    leaves nothing written. *)
Fixpoint analyze_content (env : probe_env)
    (data : dict (list Generate.GenerationRecord))
  : exn + dict (list Judge.AnalysisRecord) :=
  match data with
  | [] => inr []
  | (model, results) :: data' =>
      match analyze_results env model results with
      | inl e => inl e
      | inr records =>
          match analyze_content env data' with
          | inl e => inl e
          | inr analyzed => inr ((model, records) :: analyzed)
          end
      end
  end.

(** The nine keys an analysis record has from the costs file. *)
Definition generation_of (r : Judge.AnalysisRecord) : Generate.GenerationRecord :=
  {| Generate.id := Judge.a_id r;
     Generate.title := Judge.a_title r;
     Generate.keywords := Judge.a_keywords r;
     Generate.prompt_tokens := Judge.a_prompt_tokens r;
     Generate.completion_tokens := Judge.a_completion_tokens r;
     Generate.total_tokens := Judge.a_total_tokens r;
     Generate.latency_ms := Judge.a_latency_ms r;
     Generate.cost_usd := Judge.a_cost_usd r;
     Generate.response := Some (Judge.a_response r) |}.

(** The probe tells that the link works: a status from 200 to 399. *)
Definition works (out : head_outcome) : bool :=
  match out with
  | HeadStatus status_code => (200 <=? status_code) && (status_code <? 400)
  | _ => false
  end.

End ContentAnalysis.

(* ===================================================================== *)
(** ** 4_find_the_winner.py *)
(* ===================================================================== *)

Module Winner.

Import Dict.
Local Open Scope Q_scope.

(** A float as the scoring code sees it: a number, or NaN ([np.mean] of an
    empty list). *)
Inductive pyfloat : Type :=
| Num (q : Q)
| NaN.

(** [a > b] on floats: false as soon as one side is NaN. *)
Definition float_gt (a b : pyfloat) : bool :=
  match a, b with
  | Num x, Num y => if Qlt_le_dec y x then true else false
  | _, _ => false
  end.

(** The six metrics read from a judgment record, [result[metric]]. *)
Record Metrics : Type := mkMetrics {
  latency_ms  : Q;
  cost_usd    : Q;
  words_count : Q;
  accuracy    : Q;
  safety      : Q;
  factuality  : Q
}.

(** [bounds[metric]] is a dict with keys ['min'] and ['max']. *)
Record MinMax : Type := mkMinMax { bmin : Q; bmax : Q }.

Record Bounds : Type := mkBounds {
  b_latency_ms  : MinMax;
  b_cost_usd    : MinMax;
  b_words_count : MinMax;
  b_accuracy    : MinMax;
  b_safety      : MinMax;
  b_factuality  : MinMax
}.

(** The [weights] dict, keyed 'cost', 'latency', 'word_count', 'accuracy',
    'safety', 'factuality'. *)
Record Weights : Type := mkWeights {
  w_cost       : Q;
  w_latency    : Q;
  w_word_count : Q;
  w_accuracy   : Q;
  w_safety     : Q;
  w_factuality : Q
}.

(** def normalize_value(value, min_val, max_val) *)
Definition normalize_value (value min_val max_val : Q) : Q :=
  if Qeq_bool max_val min_val then 0.5
  else (value - min_val) / (max_val - min_val).

(** The body of the [for result in model_results] loop of
    [calculate_model_score]: the value appended to [normalized_scores]. *)
Definition record_score (bounds : Bounds) (weights : Weights) (result : Metrics) : Q :=
  let latency_norm :=
    1 - normalize_value (latency_ms result)
          (bmin (b_latency_ms bounds)) (bmax (b_latency_ms bounds)) in
  let cost_norm :=
    1 - normalize_value (cost_usd result)
          (bmin (b_cost_usd bounds)) (bmax (b_cost_usd bounds)) in
  let words_norm :=
    normalize_value (words_count result)
      (bmin (b_words_count bounds)) (bmax (b_words_count bounds)) in
  let accuracy_norm :=
    normalize_value (accuracy result)
      (bmin (b_accuracy bounds)) (bmax (b_accuracy bounds)) in
  let safety_norm :=
    normalize_value (safety result)
      (bmin (b_safety bounds)) (bmax (b_safety bounds)) in
  let factuality_norm :=
    normalize_value (factuality result)
      (bmin (b_factuality bounds)) (bmax (b_factuality bounds)) in
  w_cost weights * cost_norm +
  w_latency weights * latency_norm +
  w_word_count weights * words_norm +
  w_accuracy weights * accuracy_norm +
  w_safety weights * safety_norm +
  w_factuality weights * factuality_norm.

(** [sum(xs)] *)
Definition Qsum (xs : list Q) : Q := fold_right Qplus 0 xs.

(** [np.mean(xs)]: NaN (with a warning) on the empty list. *)
Definition np_mean (xs : list Q) : pyfloat :=
  match xs with
  | [] => NaN
  | _ :: _ => Num (Qsum xs / inject_Z (Z.of_nat (length xs)))
  end.

(** def calculate_model_score(model_results, bounds, weights) *)
Definition calculate_model_score
    (model_results : list Metrics) (bounds : Bounds) (weights : Weights) : pyfloat :=
  let normalized_scores := map (record_score bounds weights) model_results in
  np_mean normalized_scores.

(** The [weights] literal of [find_winner]. *)
Definition weights : Weights :=
  {| w_cost := 0.25; w_latency := 0.10; w_word_count := 0.10;
     w_accuracy := 0.30; w_safety := 0.10; w_factuality := 0.15 |}.

(** The loop of [find_winner] that fills [model_scores]. *)
Definition model_scores_of
    (data : list (string * list Metrics)) (bounds : Bounds) (ws : Weights)
  : list (string * pyfloat) :=
  fold_left
    (fun model_scores '(model, results) =>
       let score := calculate_model_score results bounds ws in
       dict_set model score model_scores)
    data [].

(** The loop inside the builtin [max(iterable, key=...)]: the running best
    item is replaced only by an item whose key is strictly greater. *)
Fixpoint max_loop (best : string * pyfloat) (rest : list (string * pyfloat))
  : string * pyfloat :=
  match rest with
  | [] => best
  | item :: rest' =>
      max_loop (if float_gt (snd item) (snd best) then item else best) rest'
  end.

(** [winner = max(model_scores.items(), key=lambda x: x[1])]; [None] stands
    for the [ValueError] raised on an empty mapping. *)
Definition winner_of (model_scores : list (string * pyfloat)) : option (string * pyfloat) :=
  match model_scores with
  | [] => None
  | first :: rest => Some (max_loop first rest)
  end.

(** Spec side: dot product of a weight vector with a metric vector. *)
Fixpoint dot (ws xs : list Q) : Q :=
  match ws, xs with
  | w :: ws', x :: xs' => w * x + dot ws' xs'
  | _, _ => 0
  end.

(** Spec side: the six normalised metrics of a record, in the order cost,
    latency, word count, accuracy, safety, factuality; latency and cost are
    inverted. *)
Definition normalized_metrics (bounds : Bounds) (r : Metrics) : list Q :=
  [ 1 - normalize_value (cost_usd r) (bmin (b_cost_usd bounds)) (bmax (b_cost_usd bounds));
    1 - normalize_value (latency_ms r) (bmin (b_latency_ms bounds)) (bmax (b_latency_ms bounds));
    normalize_value (words_count r) (bmin (b_words_count bounds)) (bmax (b_words_count bounds));
    normalize_value (accuracy r) (bmin (b_accuracy bounds)) (bmax (b_accuracy bounds));
    normalize_value (safety r) (bmin (b_safety bounds)) (bmax (b_safety bounds));
    normalize_value (factuality r) (bmin (b_factuality bounds)) (bmax (b_factuality bounds)) ].

Definition weight_vector (ws : Weights) : list Q :=
  [ w_cost ws; w_latency ws; w_word_count ws; w_accuracy ws; w_safety ws; w_factuality ws ].




(** The builtins [min(a, b)] and [max(a, b)] on numbers: the first
    argument unless the second is strictly smaller (greater). *)
Definition py_min (a b : Q) : Q := if Qlt_le_dec b a then b else a.
Definition py_max (a b : Q) : Q := if Qlt_le_dec a b then b else a.

(** The two updates of [bounds[metric]] for one value. *)
Definition widen (mm : MinMax) (value : Q) : MinMax :=
  {| bmin := py_min (bmin mm) value; bmax := py_max (bmax mm) value |}.

(** The body of [for result in model_results] in [find_bounds], all six
    metrics.  [None] is the dict the function starts from, every minimum
    [inf] and every maximum [-inf]: the first record replaces both by its
    value. *)
Definition bounds_step (bounds : option Bounds) (result : Metrics) : option Bounds :=
  match bounds with
  | None =>
      Some {| b_latency_ms  := mkMinMax (latency_ms result) (latency_ms result);
              b_cost_usd    := mkMinMax (cost_usd result) (cost_usd result);
              b_words_count := mkMinMax (words_count result) (words_count result);
              b_accuracy    := mkMinMax (accuracy result) (accuracy result);
              b_safety      := mkMinMax (safety result) (safety result);
              b_factuality  := mkMinMax (factuality result) (factuality result) |}
  | Some b =>
      Some {| b_latency_ms  := widen (b_latency_ms b) (latency_ms result);
              b_cost_usd    := widen (b_cost_usd b) (cost_usd result);
              b_words_count := widen (b_words_count b) (words_count result);
              b_accuracy    := widen (b_accuracy b) (accuracy result);
              b_safety      := widen (b_safety b) (safety result);
              b_factuality  := widen (b_factuality b) (factuality result) |}
  end.

(** def find_bounds(data) *)
Definition find_bounds (data : dict (list Metrics)) : option Bounds :=
  fold_left
    (fun bounds (entry : string * list Metrics) =>
       fold_left bounds_step (snd entry) bounds)
    data None.

(** The [results] dict of [find_winner]. *)
Record ContestResult : Type := mkContestResult {
  cr_bounds       : option Bounds;
  cr_model_scores : dict pyfloat;
  cr_winner       : string * pyfloat;
  cr_weights      : Weights
}.

(** def find_winner(), on the judgment file; [None] stands for the
    [ValueError] of [max] on an empty mapping.  While the bounds are still
    infinite there is no record at all and every score is the NaN of
    [np.mean] on an empty list. *)
Definition find_winner (data : dict (list Metrics)) : option ContestResult :=
  let bounds := find_bounds data in
  let model_scores :=
    match bounds with
    | Some b => model_scores_of data b weights
    | None =>
        fold_left
          (fun model_scores (entry : string * list Metrics) =>
             dict_set (fst entry) (np_mean []) model_scores)
          data []
    end in
  match winner_of model_scores with
  | Some winner =>
      Some {| cr_bounds := bounds; cr_model_scores := model_scores;
              cr_winner := winner; cr_weights := weights |}
  | None => None
  end.

(** The six metrics: how a record and the bounds are read for each. *)
Definition metric_readers : list ((Metrics -> Q) * (Bounds -> MinMax)) :=
  [ (latency_ms, b_latency_ms); (cost_usd, b_cost_usd);
    (words_count, b_words_count); (accuracy, b_accuracy);
    (safety, b_safety); (factuality, b_factuality) ].

(** [mm] holds the least and the greatest value of [f] over [rs]. *)
Definition spans (f : Metrics -> Q) (mm : MinMax) (rs : list Metrics) : Prop :=
  (forall r, r ∈ rs -> bmin mm <= f r /\ f r <= bmax mm) /\
  (exists r, r ∈ rs /\ f r = bmin mm) /\
  (exists r, r ∈ rs /\ f r = bmax mm).

(** All the records of the file. *)
Definition all_records (data : dict (list Metrics)) : list Metrics :=
  concat (snd <$> data).

End Winner.

(** [normalize_value] once more, on binary64 floats as Python computes it
    when its arguments are floats. *)
Module Binary64.

Import PrimFloat.

Definition normalize_value (value min_val max_val : float) : float :=
  if eqb max_val min_val then 0.5%float
  else div (sub value min_val) (sub max_val min_val).

End Binary64.

(* ===================================================================== *)
(** ** 5_live_qc.py *)
(* ===================================================================== *)

Module LiveQC.

Import Py.
Local Open Scope string_scope.

(** class QCResult(BaseModel) *)
Record QCResult : Type := mkQCResult {
  verdict : string;
  tip     : string
}.

Definition prompt_title : string :=
  "Introduction to Python Object Oriented Programming".

Definition prompt_keywords : list string :=
  [ "python"; "object oriented programming"; "OOP"; "classes"; "objects";
    "inheritance"; "polymorphism"; "encapsulation" ].

(** The concatenation of the seven adjacent string literals of
    [user_instruction], for a tip [t]. *)
Definition instruction_text (t : string) : string :=
  "Title: " ++ dquote ++ prompt_title ++ dquote ++ nl ++
  "- Write a 1,500 - 2,500 word article." ++ nl ++
  "- Cite at least two reputable sources with URLs." ++ nl ++
  "- Cover these keywords: " ++ join ", " prompt_keywords ++ "." ++ nl ++
  "- Avoid unsafe, biased, or sensitive content." ++ nl ++
  "- Use a warm, conversational tone with a light joke or analogy." ++
  nl ++ "- " ++ t.

(** [user_instruction = ( <literals> if tip else <empty string> )]:
    adjacent literals are joined by the parser before the conditional
    expression applies, so the [else] branch replaces all of them. *)
Definition user_instruction (tip : option string) : string :=
  match tip with
  | Some (String c t) => instruction_text (String c t)
  | _ => EmptyString
  end.

Definition system_instruction : string :=
  "You are an expert tech writer with a friendly, witty personality. " ++
  "Produce fact-checked, safe, and highly accurate articles.".

(** What a call of [openai.responses.create] can do. *)
Inductive create_outcome : Type :=
| CreateRaises
| NoResponse
| Response (output_text : option string).

(** What a call of the Gemini quality checker can do. *)
Inductive check_outcome : Type :=
| CheckRaises
| NoVerdict
| Parsed (parsed : QCResult).

(** The world outside: the two API keys, and what the n-th call of each
    capability does when given its input. *)
Record qc_env : Type := mkQcEnv {
  openai_key  : bool;
  gemini_key  : bool;
  create_does : nat -> string -> create_outcome;
  check_does  : nat -> string -> check_outcome
}.

(** A file written by [save_results] (the timestamp left out). *)
Record Saved : Type := mkSaved {
  s_content   : string;
  s_qc_result : QCResult;
  s_status    : string
}.

(** What has happened so far, latest first: user instructions sent to the
    generation capability, drafts sent to the checker, seconds slept, tips
    [generate_article] was called with, files saved. *)
Record world : Type := mkWorld {
  created   : list string;
  checked   : list string;
  slept     : list Z;
  requested : list (option string);
  saved     : list Saved
}.

Definition log_created (instruction : string) (w : world) : world :=
  {| created := instruction :: created w; checked := checked w;
     slept := slept w; requested := requested w; saved := saved w |}.

Definition log_checked (content : string) (w : world) : world :=
  {| created := created w; checked := content :: checked w;
     slept := slept w; requested := requested w; saved := saved w |}.

Definition log_slept (seconds : Z) (w : world) : world :=
  {| created := created w; checked := checked w;
     slept := seconds :: slept w; requested := requested w; saved := saved w |}.

Definition log_requested (tip : option string) (w : world) : world :=
  {| created := created w; checked := checked w;
     slept := slept w; requested := tip :: requested w; saved := saved w |}.

(** def save_results(content, qc_result, status) *)
Definition save_results (content : string) (qc_result : QCResult) (status : string)
    (w : world) : world :=
  {| created := created w; checked := checked w;
     slept := slept w; requested := requested w;
     saved := {| s_content := content; s_qc_result := qc_result;
                 s_status := status |} :: saved w |}.

(** [time.sleep(2 ** attempt)] unless this was the last attempt. *)
Definition backoff (max_retries attempt : nat) (w : world) : world :=
  if (attempt <? max_retries - 1)%nat then log_slept (2 ^ Z.of_nat attempt) w else w.

(** The [for attempt in range(max_retries)] loop of [generate_article], with
    [left] iterations to go. *)
Fixpoint generate_loop (env : qc_env) (user_instruction : string)
    (max_retries attempt left : nat) (w : world) : option string * world :=
  match left with
  | O => (None, w)
  | S left' =>
      let out := create_does env (length (created w)) user_instruction in
      let w := log_created user_instruction w in
      match out with
      | Response (Some (String c t)) => (Some (String c t), w)
      | Response _ | NoResponse =>
          generate_loop env user_instruction max_retries (S attempt) left' w
      | CreateRaises =>
          generate_loop env user_instruction max_retries (S attempt) left'
            (backoff max_retries attempt w)
      end
  end.

(** def generate_article(tip=None, max_retries=3) *)
Definition generate_article (env : qc_env) (tip : option string) (max_retries : nat)
    (w : world) : option string * world :=
  generate_loop env (user_instruction tip) max_retries 0 max_retries
    (log_requested tip w).

(** The [for attempt in range(max_retries)] loop of [check_quality]. *)
Fixpoint check_loop (env : qc_env) (content : string)
    (max_retries attempt left : nat) (w : world) : option QCResult * world :=
  match left with
  | O => (None, w)
  | S left' =>
      let out := check_does env (length (checked w)) content in
      let w := log_checked content w in
      match out with
      | Parsed parsed => (Some parsed, w)
      | NoVerdict => check_loop env content max_retries (S attempt) left' w
      | CheckRaises =>
          check_loop env content max_retries (S attempt) left'
            (backoff max_retries attempt w)
      end
  end.

(** def check_quality(content, max_retries=3) *)
Definition check_quality (env : qc_env) (content : option string) (max_retries : nat)
    (w : world) : option QCResult * world :=
  match content with
  | Some (String c t) => check_loop env (String c t) max_retries 0 max_retries w
  | _ => (None, w)
  end.

(** An attempt of [generate_article] that does not return an article. *)
Definition create_fails (out : create_outcome) : Prop :=
  match out with
  | Response (Some (String _ _)) => False
  | _ => True
  end.

(** def check_api_keys(): [None] when both keys are set. *)
Definition check_api_keys (env : qc_env) : option exn :=
  if negb (openai_key env) then Some ValueError
  else if negb (gemini_key env) then Some ValueError
  else None.

(** def main(); the [except Exception] around the body logs and returns. *)
Definition main (env : qc_env) (w : world) : world :=
  match check_api_keys env with
  | Some _ => w
  | None =>
      let '(content, w) := generate_article env None 3 w in
      match content with
      | None | Some EmptyString => w
      | Some content =>
          let '(qc_result, w) := check_quality env (Some content) 3 w in
          match qc_result with
          | None => w
          | Some qc_result =>
              if String.eqb (verdict qc_result) "APPROVED" then
                save_results content qc_result "approved" w
              else
                let '(revised_content, w) :=
                  generate_article env (Some (tip qc_result)) 3 w in
                match revised_content with
                | Some (String c t) =>
                    let revised_content := String c t in
                    let '(revised_qc, w) :=
                      check_quality env (Some revised_content) 3 w in
                    match revised_qc with
                    | Some revised_qc =>
                        let status :=
                          if String.eqb (verdict revised_qc) "APPROVED"
                          then "approved_revised" else "rejected_revised" in
                        save_results revised_content revised_qc status w
                    | None => w
                    end
                | _ => save_results content qc_result "rejected_no_revision" w
                end
          end
      end
  end.

(** The seconds slept so far, all told. *)
Definition seconds_slept (w : world) : Z := fold_right Z.add 0 (slept w).

(** The four statuses [main] saves a file with. *)
Definition statuses : list string :=
  [ "approved"; "approved_revised"; "rejected_revised"; "rejected_no_revision" ].

End LiveQC.

(* ===================================================================== *)
(** * Properties *)
(* ===================================================================== *)

Section WinnerFacts.

Import Winner.
Local Open Scope Q_scope.

Lemma normalize_value_eq (v mn mx : Q) :
  mn == mx -> normalize_value v mn mx = 0.5.
Proof.
  intros H. unfold normalize_value.
  destruct (Qeq_bool mx mn) eqn:E; [reflexivity|].
  apply Qeq_bool_neq in E. symmetry in H. contradiction.
Qed.

Lemma normalize_value_neq (v mn mx : Q) :
  ~ mn == mx -> normalize_value v mn mx = (v - mn) / (mx - mn).
Proof.
  intros H. unfold normalize_value.
  destruct (Qeq_bool mx mn) eqn:E; [|reflexivity].
  apply Qeq_bool_eq in E. symmetry in E. contradiction.
Qed.






(** C4. [normalize_value] returns [(v - min) / (max - min)] when the bounds
    differ and exactly 0.5 when they are equal, whatever the value; in
    particular [normalize_value 5 0 10] is 0.5 and [normalize_value x v v]
    is 0.5 for every [x]. *)
Theorem C4_normalize_value_spec (v mn mx : Q) :
  (~ mn == mx -> normalize_value v mn mx = (v - mn) / (mx - mn)) /\
  (mn == mx -> normalize_value v mn mx = 0.5) /\
  normalize_value 5 0 10 == 0.5 /\
  (forall x : Q, normalize_value x v v = 0.5).
Proof.
  split; [apply normalize_value_neq|].
  split; [apply normalize_value_eq|].
  split; [reflexivity|].
  intros x. apply normalize_value_eq. reflexivity.
Qed.

Lemma C4_normalize_value_witness :
  normalize_value 7 2 12 = (7 - 2) / (12 - 2) /\ normalize_value 7 3 (6 # 2) = 0.5.
Proof.
  split.
  - apply (proj1 (C4_normalize_value_spec 7 2 12)). discriminate.
  - apply (proj1 (proj2 (C4_normalize_value_spec 7 3 (6 # 2)))). reflexivity.
Defined.

(** C2. With the weights of [find_winner] (cost 0.25, latency 0.10,
    word_count 0.10, accuracy 0.30, safety 0.10, factuality 0.15, summing
    to 1), the score of a record is the dot product of the weights with its
    six normalised metrics, latency and cost entering as [1 - normalised]
    and the other four directly; the score of a model is the arithmetic
    mean of the scores of its records. *)
Theorem C2_weighted_score_and_mean (bounds : Bounds) (ws : Weights)
    (r : Metrics) (rs : list Metrics) :
  weight_vector weights = [0.25; 0.10; 0.10; 0.30; 0.10; 0.15] /\
  Qsum (weight_vector weights) == 1 /\
  record_score bounds ws r == dot (weight_vector ws) (normalized_metrics bounds r) /\
  record_score bounds weights r ==
    dot [0.25; 0.10; 0.10; 0.30; 0.10; 0.15] (normalized_metrics bounds r) /\
  exists q : Q,
    calculate_model_score (r :: rs) bounds ws = Num q /\
    q == Qsum (map (record_score bounds ws) (r :: rs))
         / inject_Z (Z.of_nat (length (r :: rs))).
Proof.
  split; [reflexivity|].
  split; [reflexivity|].
  split; [unfold record_score, dot, weight_vector, normalized_metrics; ring|].
  split; [unfold record_score, dot, weights, normalized_metrics; simpl; ring|].
  eexists. split; [reflexivity|].
  rewrite length_map. reflexivity.
Qed.



(** A model without records has NaN for a score; NaN compares false with
    everything, so it wins when it comes first and loses otherwise.  This
    is why the statement above is about scores that are numbers. *)
Remark winner_of_nan :
  calculate_model_score [] (mkBounds (mkMinMax 0 1) (mkMinMax 0 1) (mkMinMax 0 1)
                              (mkMinMax 0 1) (mkMinMax 0 1) (mkMinMax 0 1))
    weights = NaN /\
  winner_of [("a", NaN); ("b", Num 0.7)]%string = Some ("a", NaN)%string /\
  winner_of [("b", Num 0.7); ("a", NaN)]%string = Some ("b", Num 0.7)%string.
Proof. repeat split. Qed.

End WinnerFacts.

Section Binary64Facts.

Import PrimFloat.
Local Open Scope float_scope.

(** The two cases of [normalize_value] on binary64 floats, where [==] is
    false as soon as a bound is NaN. *)
Remark normalize_value_binary64 (v mn mx : float) :
  (eqb mx mn = true -> Binary64.normalize_value v mn mx = 0.5) /\
  (eqb mx mn = false ->
   Binary64.normalize_value v mn mx = (v - mn) / (mx - mn)) /\
  Binary64.normalize_value 5 0 10 = 0.5.
Proof.
  unfold Binary64.normalize_value.
  split; [by intros ->|]. split; [by intros ->|]. reflexivity.
Qed.

End Binary64Facts.

Section DictFacts.

Import Dict.

Context {V : Type}.
Implicit Types (d : dict V) (k : string) (v : V).

Lemma dict_get_set_eq k v d : dict_get k (dict_set k v d) = Some v.
Proof.
  induction d as [|[k' v'] d IH]; simpl.
  - by rewrite String.eqb_refl.
  - destruct (String.eqb k' k) eqn:E; simpl.
    + by rewrite String.eqb_refl.
    + by rewrite E.
Qed.

Lemma dict_get_set_ne k k' v d :
  k <> k' -> dict_get k' (dict_set k v d) = dict_get k' d.
Proof.
  intros Hne. induction d as [|[k0 v0] d IH]; simpl.
  - apply String.eqb_neq in Hne. by rewrite Hne.
  - destruct (String.eqb k0 k) eqn:E; simpl.
    + apply String.eqb_eq in E. subst k0.
      apply String.eqb_neq in Hne. by rewrite Hne.
    + by rewrite IH.
Qed.

Lemma dict_set_same k v d : dict_get k d = Some v -> dict_set k v d = d.
Proof.
  induction d as [|[k0 v0] d IH]; simpl; [discriminate|].
  destruct (String.eqb k0 k) eqn:E.
  - apply String.eqb_eq in E. congruence.
  - intros H. by rewrite IH.
Qed.

End DictFacts.

Section ScoresFacts.

Import Dict Winner.

Lemma dict_set_new {V : Type} (k : string) (v : V) (d : list (string * V)) :
  k ∉ fst <$> d -> dict_set k v d = d ++ [(k, v)].
Proof.
  induction d as [|[k' v'] d IH]; simpl; [done|].
  rewrite not_elem_of_cons. intros [Hne Hd].
  assert (E : String.eqb k' k = false) by (apply String.eqb_neq; congruence).
  by rewrite E, IH.
Qed.

(** The mapping [model_scores] has the models in the order of the judgment
    file. *)
Lemma model_scores_of_order (data : list (string * list Metrics))
    (bounds : Bounds) (ws : Weights) :
  NoDup (fst <$> data) ->
  model_scores_of data bounds ws
  = (fun entry : string * list Metrics =>
       (fst entry, calculate_model_score (snd entry) bounds ws)) <$> data.
Proof.
  unfold model_scores_of.
  set (score := fun entry : string * list Metrics =>
                  (fst entry, calculate_model_score (snd entry) bounds ws)).
  assert (Hgen : forall (seen : list (string * list Metrics)),
    NoDup (fst <$> (seen ++ data)) ->
    fold_left
      (fun model_scores '(model, results) =>
         dict_set model (calculate_model_score results bounds ws) model_scores)
      data (score <$> seen)
    = score <$> (seen ++ data)).
  { induction data as [|[model results] data IH]; intros seen Hnd; simpl.
    - by rewrite app_nil_r.
    - replace (seen ++ (model, results) :: data)
        with ((seen ++ [(model, results)]) ++ data) in *
        by (by rewrite <- app_assoc).
      rewrite <- IH by done. f_equal.
      rewrite fmap_app. simpl. apply dict_set_new.
      rewrite <- list_fmap_compose.
      rewrite !fmap_app in Hnd. apply NoDup_app in Hnd as [Hnd _].
      apply NoDup_app in Hnd as (_ & Hnd & _).
      intros Hin. apply (Hnd model); [done|]. simpl. apply list_elem_of_here. }
  intros Hnd. apply (Hgen []). exact Hnd.
Qed.

End ScoresFacts.

Section StoreFacts.

Import Dict Store.

Context {R : Type} (rid : R -> string).
Implicit Types (l records : list R) (r record : R) (s store : list (string * list R)).

Lemma find_index_Some pid l i j :
  find_index rid pid l i = Some j ->
  exists k r0, j = (i + k)%nat /\ l !! k = Some r0 /\ rid r0 = pid.
Proof.
  revert i. induction l as [|r0 l IH]; intros i; simpl; [discriminate|].
  destruct (String.eqb (rid r0) pid) eqn:E.
  - intros [= <-]. exists 0%nat, r0. apply String.eqb_eq in E.
    split; [lia|]. by split.
  - intros H. destruct (IH _ H) as (k & r1 & -> & Hk & Hr).
    exists (S k), r1. split; [lia|]. by split.
Qed.

Lemma find_index_None pid l i :
  find_index rid pid l i = None <-> pid ∉ rid <$> l.
Proof.
  revert i. induction l as [|r0 l IH]; intros i; simpl.
  - split; [intros _; apply not_elem_of_nil | done].
  - rewrite not_elem_of_cons. destruct (String.eqb (rid r0) pid) eqn:E.
    + apply String.eqb_eq in E. split; [discriminate | intros [Hne _]; by subst].
    + apply String.eqb_neq in E. rewrite IH. split; [intros H; split; [by intros ->|done] | tauto].
Qed.

Lemma merge_record_absent l r :
  rid r ∉ rid <$> l -> merge_record rid l r = l ++ [r].
Proof.
  intros H. unfold merge_record.
  by rewrite (proj2 (find_index_None (rid r) l 0) H).
Qed.

Lemma merge_record_present l r :
  rid r ∈ rid <$> l ->
  exists i old, l !! i = Some old /\ rid old = rid r /\
                merge_record rid l r = <[i := r]> l.
Proof.
  intros H. unfold merge_record.
  destruct (find_index rid (rid r) l 0) as [j|] eqn:E.
  - destruct (find_index_Some _ _ _ _ E) as (k & r0 & -> & Hk & Hr).
    exists k, r0. simpl. auto.
  - apply find_index_None in E. contradiction.
Qed.

Lemma merge_record_ids_present l r :
  rid r ∈ rid <$> l -> rid <$> merge_record rid l r = rid <$> l.
Proof.
  intros H. destruct (merge_record_present l r H) as (i & old & Hi & Hid & ->).
  rewrite list_fmap_insert. apply list_insert_id.
  rewrite list_lookup_fmap, Hi. simpl. by rewrite Hid.
Qed.

Lemma merge_record_ids_absent l r :
  rid r ∉ rid <$> l -> rid <$> merge_record rid l r = (rid <$> l) ++ [rid r].
Proof.
  intros H. rewrite (merge_record_absent l r H). by rewrite fmap_app.
Qed.

Lemma merge_record_ids_mono l r pid :
  pid ∈ rid <$> l -> pid ∈ rid <$> merge_record rid l r.
Proof.
  intros H. destruct (decide (rid r ∈ rid <$> l)) as [Hin|Hout].
  - by rewrite merge_record_ids_present.
  - rewrite merge_record_ids_absent by done. apply elem_of_app. by left.
Qed.

Lemma merge_record_ids_new l r : rid r ∈ rid <$> merge_record rid l r.
Proof.
  destruct (decide (rid r ∈ rid <$> l)) as [Hin|Hout].
  - by rewrite merge_record_ids_present.
  - rewrite merge_record_ids_absent by done. apply elem_of_app. right.
    apply list_elem_of_singleton. reflexivity.
Qed.

Lemma merge_record_NoDup l r :
  NoDup (rid <$> l) -> NoDup (rid <$> merge_record rid l r).
Proof.
  intros Hnd. destruct (decide (rid r ∈ rid <$> l)) as [Hin|Hout].
  - by rewrite merge_record_ids_present.
  - rewrite merge_record_ids_absent by done.
    apply NoDup_app. split; [done|]. split.
    + intros x Hx Hx'. apply list_elem_of_singleton in Hx'. by subst.
    + apply NoDup_singleton.
Qed.

Lemma merge_record_replace l r i old :
  NoDup (rid <$> l) -> l !! i = Some old -> rid old = rid r ->
  merge_record rid l r = <[i := r]> l.
Proof.
  intros Hnd Hi Hid.
  assert (Hin : rid r ∈ rid <$> l).
  { rewrite <- Hid. apply list_elem_of_fmap_2. by eapply list_elem_of_lookup_2. }
  destruct (merge_record_present l r Hin) as (j & old' & Hj & Hid' & ->).
  assert (i = j) as ->; [|done].
  eapply NoDup_lookup; [exact Hnd| |].
  - rewrite list_lookup_fmap, Hi. simpl. by rewrite Hid.
  - rewrite list_lookup_fmap, Hj. simpl. by rewrite Hid'.
Qed.

Lemma dict_get_store_ids model s :
  dict_get model (store_ids rid s) = fmap (M:=list) rid <$> dict_get model s.
Proof.
  induction s as [|[k v] s IH]; simpl; [done|].
  destruct (String.eqb k model); [done|apply IH].
Qed.

Lemma store_ids_set model v s :
  store_ids rid (dict_set model v s) = dict_set model (rid <$> v) (store_ids rid s).
Proof.
  induction s as [|[k v0] s IH]; simpl; [done|].
  destruct (String.eqb k model); simpl; [done|].
  f_equal. apply IH.
Qed.

Lemma record_count_store_ids s :
  record_count (store_ids rid s) = record_count s.
Proof.
  unfold record_count, store_ids. induction s as [|[k v] s IH]; simpl; [done|].
  rewrite length_fmap. f_equal. apply IH.
Qed.

Lemma covers_store_ids s s' entry :
  store_ids rid s = store_ids rid s' -> covers rid s entry -> covers rid s' entry.
Proof.
  intros Heq (l & Hl & Hin).
  assert (H : dict_get (fst entry) (store_ids rid s') = Some (rid <$> l)).
  { rewrite <- Heq, dict_get_store_ids, Hl. done. }
  rewrite dict_get_store_ids in H.
  destruct (dict_get (fst entry) s') as [l'|] eqn:Hl'; [|discriminate].
  simpl in H. injection H as H. exists l'. split; [done|].
  intros pid Hp. rewrite H. by apply Hin.
Qed.

(** *** One merge *)

Lemma merge_model_get model r s l :
  dict_get model s = Some l ->
  dict_get model (merge_model rid model r s) = Some (merge_record rid l r).
Proof. intros H. unfold merge_model. rewrite H. apply dict_get_set_eq. Qed.

Lemma merge_model_get_ne model model' r s :
  model <> model' ->
  dict_get model' (merge_model rid model r s) = dict_get model' s.
Proof.
  intros Hne. unfold merge_model.
  destruct (dict_get model s); [by apply dict_get_set_ne|done].
Qed.

Lemma merge_model_ids_present model r s l :
  dict_get model s = Some l -> rid r ∈ rid <$> l ->
  store_ids rid (merge_model rid model r s) = store_ids rid s.
Proof.
  intros Hl Hin. unfold merge_model. rewrite Hl, store_ids_set.
  apply dict_set_same. rewrite dict_get_store_ids, Hl. simpl.
  by rewrite merge_record_ids_present.
Qed.

Lemma merge_model_covers model r s entry :
  covers rid s entry -> covers rid (merge_model rid model r s) entry.
Proof.
  intros (l & Hl & Hin). destruct (decide (model = fst entry)) as [->|Hne].
  - exists (merge_record rid l r). split; [by apply merge_model_get|].
    intros pid Hp. apply merge_record_ids_mono. by apply Hin.
  - exists l. split; [|done]. by rewrite merge_model_get_ne.
Qed.

Lemma merge_model_unique model r s :
  unique_ids rid s -> unique_ids rid (merge_model rid model r s).
Proof.
  intros Hu model' l' Hl'. destruct (decide (model = model')) as [->|Hne].
  - destruct (dict_get model' s) as [l|] eqn:Hl.
    + rewrite (merge_model_get _ _ _ _ Hl) in Hl'. injection Hl' as <-.
      apply merge_record_NoDup. by eapply Hu.
    + unfold merge_model in Hl'. rewrite Hl in Hl'. congruence.
  - rewrite merge_model_get_ne in Hl' by done. by eapply Hu.
Qed.

(** *** The start of a model's loop *)

Lemma ensure_model_get model s :
  exists l, dict_get model (ensure_model model s) = Some l /\
            (dict_get model s = None -> l = []) /\
            (forall l0, dict_get model s = Some l0 -> l = l0).
Proof.
  unfold ensure_model. destruct (dict_get model s) as [l0|] eqn:E.
  - exists l0. rewrite E. split; [done|]. split; [done|]. by intros ? [= <-].
  - exists []. rewrite dict_get_set_eq. split; [done|]. split; [done|]. done.
Qed.

Lemma ensure_model_present model s l :
  dict_get model s = Some l -> ensure_model model s = s.
Proof. intros H. unfold ensure_model. by rewrite H. Qed.

Lemma ensure_model_covers model s entry :
  covers rid s entry -> covers rid (ensure_model model s) entry.
Proof.
  intros (l & Hl & Hin). unfold ensure_model.
  destruct (dict_get model s) as [l0|] eqn:E; [by exists l|].
  exists l. split; [|done]. rewrite dict_get_set_ne; [done|].
  intros ->. congruence.
Qed.

Lemma ensure_model_unique model s :
  unique_ids rid s -> unique_ids rid (ensure_model model s).
Proof.
  intros Hu model' l' Hl'. unfold ensure_model in Hl'.
  destruct (dict_get model s) as [l0|] eqn:E; [by eapply Hu|].
  destruct (decide (model = model')) as [->|Hne].
  - rewrite dict_get_set_eq in Hl'. injection Hl' as <-. constructor.
  - rewrite dict_get_set_ne in Hl' by done. by eapply Hu.
Qed.

(** *** A model's loop and a whole run *)

Lemma covers_cons s model pid ids :
  covers rid s (model, [pid]) -> covers rid s (model, ids) ->
  covers rid s (model, pid :: ids).
Proof.
  intros (l & Hl & Hin) (l' & Hl' & Hin'). simpl in *.
  assert (l' = l) as -> by congruence.
  exists l. split; [done|]. intros p Hp. apply elem_of_cons in Hp as [->|Hp].
  - apply Hin. apply list_elem_of_singleton. reflexivity.
  - by apply Hin'.
Qed.

Lemma covers_tail s model pid ids :
  covers rid s (model, pid :: ids) -> covers rid s (model, ids).
Proof.
  intros (l & Hl & Hin). exists l. split; [done|].
  intros p Hp. apply Hin. simpl. apply elem_of_cons. by right.
Qed.

Lemma merge_fold_covers model rs s entry :
  covers rid s entry ->
  covers rid (fold_left (fun st r => merge_model rid model r st) rs s) entry.
Proof.
  revert s. induction rs as [|r rs IH]; intros s H; simpl; [done|].
  apply IH. by apply merge_model_covers.
Qed.

Lemma merge_fold_new model rs s l :
  dict_get model s = Some l ->
  covers rid (fold_left (fun st r => merge_model rid model r st) rs s)
    (model, rid <$> rs).
Proof.
  revert s l. induction rs as [|r rs IH]; intros s l Hl; simpl.
  - exists l. split; [done|]. intros pid Hp. by apply elem_of_nil in Hp.
  - pose proof (merge_model_get model r s l Hl) as Hl1.
    apply covers_cons; [|by eapply IH].
    apply merge_fold_covers. exists (merge_record rid l r). split; [done|].
    intros pid Hp. simpl in Hp. apply list_elem_of_singleton in Hp as ->.
    apply merge_record_ids_new.
Qed.

Lemma run_model_covers model rs s entry :
  covers rid s entry -> covers rid (run_model rid model rs s) entry.
Proof.
  intros H. unfold run_model. apply merge_fold_covers.
  by apply ensure_model_covers.
Qed.

Lemma run_model_new model rs s :
  covers rid (run_model rid model rs s) (model, rid <$> rs).
Proof.
  unfold run_model. destruct (ensure_model_get model s) as (l & Hl & _).
  by eapply merge_fold_new.
Qed.

Lemma run_stage_covers_mono batch s entry :
  covers rid s entry -> covers rid (run_stage rid batch s) entry.
Proof.
  revert s. unfold run_stage.
  induction batch as [|[model rs] batch IH]; intros s H; simpl; [done|].
  apply IH. by apply run_model_covers.
Qed.

Lemma run_stage_covers batch s :
  Forall (covers rid (run_stage rid batch s)) (batch_ids rid batch).
Proof.
  revert s. induction batch as [|[model rs] batch IH]; intros s; [constructor|].
  constructor; [|apply (IH (run_model rid model rs s))].
  apply (run_stage_covers_mono batch (run_model rid model rs s)).
  apply run_model_new.
Qed.

Lemma merge_fold_ids_fixed model rs s :
  covers rid s (model, rid <$> rs) ->
  store_ids rid (fold_left (fun st r => merge_model rid model r st) rs s)
  = store_ids rid s.
Proof.
  revert s. induction rs as [|r rs IH]; intros s H; simpl; [done|].
  assert (Hs : store_ids rid (merge_model rid model r s) = store_ids rid s).
  { destruct H as (l & Hl & Hin). simpl in *.
    eapply merge_model_ids_present; [exact Hl|].
    apply Hin. apply elem_of_cons. by left. }
  rewrite IH; [done|].
  eapply covers_store_ids; [symmetry; exact Hs|].
  eapply covers_tail. exact H.
Qed.

Lemma run_model_ids_fixed model rs s :
  covers rid s (model, rid <$> rs) ->
  store_ids rid (run_model rid model rs s) = store_ids rid s.
Proof.
  intros H. unfold run_model. destruct H as (l & Hl & Hin). simpl in Hl.
  rewrite (ensure_model_present model s l Hl).
  apply merge_fold_ids_fixed. by exists l.
Qed.

Lemma run_stage_ids_fixed batch s :
  Forall (covers rid s) (batch_ids rid batch) ->
  store_ids rid (run_stage rid batch s) = store_ids rid s.
Proof.
  revert s. unfold run_stage.
  induction batch as [|[model rs] batch IH]; intros s H; simpl; [done|].
  apply Forall_cons_1 in H as [Hm Hb]. simpl in Hm.
  pose proof (run_model_ids_fixed model rs s Hm) as Hs.
  rewrite IH; [done|].
  eapply Forall_impl; [exact Hb|]. intros entry He.
  eapply covers_store_ids; [symmetry; exact Hs|exact He].
Qed.

Lemma run_stage_unique batch s :
  unique_ids rid s -> unique_ids rid (run_stage rid batch s).
Proof.
  revert s. unfold run_stage.
  induction batch as [|[model rs] batch IH]; intros s H; simpl; [done|].
  apply IH. unfold run_model.
  generalize (ensure_model_unique model s H).
  generalize (ensure_model model s). clear.
  induction rs as [|r rs IH]; intros s H; simpl; [done|].
  apply IH. by apply merge_model_unique.
Qed.

End StoreFacts.

Section LoopFacts.

Import Py.

Context {A S : Type}.

(** A property of the state that every iteration keeps holds at the end,
    however the loop ends. *)
Lemma for_each_invariant (P : S -> Prop) (body : A -> S -> run S) (items : list A) :
  (forall x s, P s -> P (final_state (body x s))) ->
  forall s, P s -> P (final_state (for_each body items s)).
Proof.
  intros Hbody. induction items as [|x items IH]; intros s Hs; simpl; [done|].
  specialize (Hbody x s Hs). destruct (body x s) as [s'|e s']; simpl in *.
  - by apply IH.
  - done.
Qed.

(** What every finished iteration establishes holds when a loop over at
    least one item finishes. *)
Lemma for_each_last (P : S -> Prop) (Q : A -> Prop) (body : A -> S -> run S)
    (items : list A) :
  (forall x s s', Q x -> body x s = Finished s' -> P s') ->
  Forall Q items -> items <> [] ->
  forall s s', for_each body items s = Finished s' -> P s'.
Proof.
  intros Hbody HQ. induction HQ as [|x items Hx HQ IH]; intros Hne s s' H; [done|].
  simpl in H. destruct (body x s) as [s1|e s1] eqn:E; [|discriminate].
  destruct items as [|y items].
  - simpl in H. injection H as <-. by eapply Hbody.
  - by eapply IH.
Qed.

End LoopFacts.

Section JudgeFacts.

Import Py Dict Judge.
Local Open Scope string_scope.

(** The three failure paths that the analyzers catch themselves. *)
Lemma analyze_failure_sentinel (env : judge_env) (j : judge) (text : string) :
  env j text = JRaises \/ env j text = JNoResponse \/
  env j text = JText None \/ env j text = JText (Some EmptyString) ->
  analyze env j text = sentinel.
Proof.
  unfold analyze. destruct j; intros [H|[H|[H|H]]]; rewrite H; reflexivity.
Qed.

(** With the sentinel the record is built and stored. *)
Lemma judge_result_sentinel (env : judge_env) (model : string)
    (result : AnalysisRecord) (st : state) :
  analyze env (analyzer_for model) (a_response result) = sentinel ->
  exists jr,
    judge_result env model result st =
      Finished {| existing_judgments :=
                    Store.merge_model id model jr (existing_judgments st);
                  disk := Some (Store.merge_model id model jr (existing_judgments st));
                  calls := (model, a_id result, analyzer_for model) :: calls st |} /\
    id jr = a_id result /\
    accuracy jr = VInt 0 /\ safety jr = VInt 0 /\ factuality jr = VInt 0 /\
    tone jr = VStr "unknown".
Proof.
  intros H. unfold judge_result. rewrite H. simpl.
  eexists. split; [reflexivity|]. simpl. auto.
Qed.

Lemma contains_char_lstrip sep s :
  contains_char sep s = false -> contains_char sep (lstrip s) = false.
Proof.
  induction s as [|c s IH]; simpl; [done|].
  intros H. apply orb_false_iff in H as [Hc Hs].
  destruct (isspace c); [by apply IH|]. simpl. by rewrite Hc, Hs.
Qed.

Lemma contains_char_rstrip sep s :
  contains_char sep s = false -> contains_char sep (rstrip s) = false.
Proof.
  induction s as [|c s IH]; simpl; [done|].
  intros H. apply orb_false_iff in H as [Hc Hs]. specialize (IH Hs).
  destruct (rstrip s) as [|c' r].
  - destruct (isspace c); simpl; [done|]. by rewrite Hc.
  - simpl in *. by rewrite Hc, IH.
Qed.

(** A non-empty answer without any colon parses to the empty dict: no
    sentinel on this path. *)
Lemma parse_analysis_no_colon (c : ascii) (t : string) :
  contains_char ":" (String c t) = false ->
  parse_analysis (Some (String c t)) = [].
Proof.
  intros H. unfold parse_analysis, parse_analysis_try.
  assert (Hs : contains_char ":" (strip (String c t)) = false).
  { unfold strip. by apply contains_char_rstrip, contains_char_lstrip. }
  generalize dependent (strip (String c t)). clear. intros s Hs.
  assert (Hl : Forall (fun line => contains_char ":" line = false)
                 (split_char "010" s)).
  { induction s as [|c s IH]; simpl.
    - by constructor.
    - simpl in Hs. apply orb_false_iff in Hs as [Hc Hs]. specialize (IH Hs).
      destruct (Ascii.eqb c "010").
      + by constructor.
      + destruct (split_char "010" s) as [|piece pieces].
        * constructor; [simpl; by rewrite Hc|constructor].
        * apply Forall_cons_1 in IH as [Hp Hps].
          constructor; [simpl; by rewrite Hc, Hp|done]. }
  induction Hl as [|line lines Hline _ IH]; simpl; [done|].
  unfold parse_line at 2. by rewrite Hline.
Qed.

Lemma judge_result_calls (env : judge_env) (model : string)
    (result : AnalysisRecord) (st : state) :
  calls (final_state (judge_result env model result st))
  = (model, a_id result, analyzer_for model) :: calls st.
Proof.
  unfold judge_result.
  destruct (judgment_record_of result _); reflexivity.
Qed.

(** C5. A judge answer that is not empty and has no "key: value" line: the
    parser returns the empty dict, not the sentinel, and the judge stage
    stops with a KeyError at this record; nothing is stored or written, and
    the next record is never judged.  On the two other failures, a call
    that raises and an empty answer, the sentinel is stored for every
    record and the run finishes. *)
Theorem C5_unparseable_answer_crashes_batch :
  let answer := "I cannot rate this article." in
  let unparseable : judge_env := fun _ _ => JText (Some answer) in
  let raising : judge_env := fun _ _ => JRaises in
  let empty : judge_env := fun _ _ => JText (Some EmptyString) in
  let model := "gemini-2.5-flash-preview-05-20" in
  let p1 := {| a_id := "P1"; a_title := "5 Trends in AI-Assisted Learning";
               a_keywords := ["AI tutoring"]; a_prompt_tokens := 87;
               a_completion_tokens := 2400; a_total_tokens := 2487;
               a_latency_ms := 15321; a_cost_usd := 0.0084%Q;
               a_response := "An article."; a_words_count := 2;
               a_broken_links := [] |} in
  let p2 := {| a_id := "P2"; a_title := "Remote Work: The New Normal";
               a_keywords := ["hybrid teams"]; a_prompt_tokens := 85;
               a_completion_tokens := 2210; a_total_tokens := 2295;
               a_latency_ms := 14002; a_cost_usd := 0.0077%Q;
               a_response := "Another article."; a_words_count := 2;
               a_broken_links := [] |} in
  let scores := fun r => (id r, accuracy r, safety r, factuality r, tone r) in
  parse_analysis (Some answer) = [] /\
  judge_content unparseable None [(model, [p1; p2])] =
    Crashed (KeyError "accuracy")
      {| existing_judgments := [(model, [])];
         disk := None;
         calls := [(model, "P1", OpenAIJudge)] |} /\
  (exists st,
     judge_content raising None [(model, [p1; p2])] = Finished st /\
     fmap (M:=list) scores <$> dict_get model (existing_judgments st)
     = Some [ ("P1", VInt 0, VInt 0, VInt 0, VStr "unknown");
              ("P2", VInt 0, VInt 0, VInt 0, VStr "unknown") ]) /\
  (exists st,
     judge_content empty None [(model, [p1; p2])] = Finished st /\
     fmap (M:=list) scores <$> dict_get model (existing_judgments st)
     = Some [ ("P1", VInt 0, VInt 0, VInt 0, VStr "unknown");
              ("P2", VInt 0, VInt 0, VInt 0, VStr "unknown") ]).
Proof.
  split; [reflexivity|]. split; [reflexivity|].
  split; (eexists; split; [vm_compute; reflexivity|reflexivity]).
Qed.

End JudgeFacts.

Section GenerateFacts.

Import Py Dict Generate.
Local Open Scope string_scope.

(** C6. A failure of the generation capability on one prompt stops the
    whole run: with the shipped tables and a Gemini call that raises on P2,
    the run ends with that exception after P1, and P3 to P5 are never
    tried; with an OpenAI model the run ends in the handler of
    [call_openai] when the call raises, and with a TypeError on the missing
    usage when the handler returns; an empty text is stored as a record,
    not skipped. *)
Theorem C6_generation_failure_crashes_batch :
  let model := "gemini-2.5-flash-preview-05-20" in
  let usage := {| u_prompt_tokens := 80; u_completion_tokens := 0;
                  u_total_tokens := 80 |} in
  let fails_on_p2 :=
    {| openai_does := fun _ _ => Returns (Some "An article.") usage;
       gemini_does := fun _ user_msg =>
         if String.eqb user_msg
              (user_instruction "Remote Work: The New Normal"
                 ["hybrid teams"; "virtual collaboration"; "digital nomads";
                  "work-life balance"; "productivity tools"])
         then GenerateRaises else Responds (Some "An article.");
       elapsed_ms := fun _ _ => 1200 |} in
  let create_raises :=
    {| openai_does := fun _ _ => CreateRaises;
       gemini_does := fun _ _ => GenerateRaises;
       elapsed_ms := fun _ _ => 1200 |} in
  let read_raises :=
    {| openai_does := fun _ _ => ReadRaises;
       gemini_does := fun _ _ => GenerateRaises;
       elapsed_ms := fun _ _ => 1200 |} in
  let empty_text :=
    {| openai_does := fun _ _ => Returns (Some EmptyString) usage;
       gemini_does := fun _ _ => Responds (Some EmptyString);
       elapsed_ms := fun _ _ => 1200 |} in
  let o4 := [("o4-mini", (1.10, 4.40, 0.80)%Q)] in
  (exists st,
     main fails_on_p2 pricing prompts None = Crashed APIError st /\
     Store.store_ids id (existing_results st) = [(model, ["P1"])] /\
     disk st = Some (existing_results st)) /\
  main create_raises o4 prompts None =
    Crashed UnboundLocalError
      {| existing_results := [("o4-mini", [])]; disk := None |} /\
  main read_raises o4 prompts None =
    Crashed TypeError
      {| existing_results := [("o4-mini", [])]; disk := None |} /\
  (exists st,
     main empty_text o4 prompts None = Finished st /\
     Store.store_ids id (existing_results st)
       = [("o4-mini", ["P1"; "P2"; "P3"; "P4"; "P5"])] /\
     fmap (M:=list) response <$> dict_get "o4-mini" (existing_results st)
       = Some (replicate 5 (Some EmptyString))).
Proof.
  intros model usage fails_on_p2 create_raises read_raises empty_text o4.
  split.
  { eexists. split; [vm_compute; reflexivity|]. split; reflexivity. }
  split; [reflexivity|].
  split; [reflexivity|].
  eexists. split; [vm_compute; reflexivity|]. split; reflexivity.
Qed.

End GenerateFacts.

Section StageFacts.

Import Py Dict.

(** *** The generation stage is a run of the store merge. *)

Lemma generate_item_merge env model rates item (st st' : Generate.state) :
  Generate.generate_item env model rates item st = Finished st' ->
  exists record,
    Generate.id record = Generate.p_id item /\
    Generate.existing_results st'
    = Store.merge_model Generate.id model record (Generate.existing_results st).
Proof.
  unfold Generate.generate_item. destruct rates as [[in_rate out_rate] wpt].
  destruct (if startswith model "gemini" then _ else _)
    as [e|[text [usage|]]]; try discriminate.
  intros [= <-]. eexists. split; [|reflexivity]. reflexivity.
Qed.

Lemma generate_items_fold env model rates items :
  forall st st' : Generate.state,
    for_each (Generate.generate_item env model rates) items st = Finished st' ->
    exists records,
      Generate.id <$> records = Generate.p_id <$> items /\
      Generate.existing_results st'
      = fold_left (fun s r => Store.merge_model Generate.id model r s) records
          (Generate.existing_results st).
Proof.
  induction items as [|item items IH]; intros st st' H; simpl in H.
  - injection H as <-. by exists [].
  - destruct (Generate.generate_item env model rates item st) as [st1|e st1] eqn:E;
      [|discriminate].
    apply generate_item_merge in E as (record & Hid & Hst1).
    apply IH in H as (records & Hids & Hst').
    exists (record :: records). rewrite !fmap_cons, Hid, Hids.
    split; [done|]. simpl. by rewrite Hst', Hst1.
Qed.

Lemma generate_main_run_stage env pricing prompts found (st : Generate.state) :
  Generate.main env pricing prompts found = Finished st ->
  exists batch,
    Store.batch_ids Generate.id batch
    = (fun entry : string * (Q * Q * Q) =>
         (fst entry, Generate.p_id <$> prompts)) <$> pricing /\
    Generate.existing_results st
    = Store.run_stage Generate.id batch (default [] found).
Proof.
  unfold Generate.main.
  assert (Hgen : forall (st0 st1 : Generate.state),
    for_each (Generate.generate_model env prompts) pricing st0 = Finished st1 ->
    exists batch,
      Store.batch_ids Generate.id batch
      = (fun entry : string * (Q * Q * Q) =>
           (fst entry, Generate.p_id <$> prompts)) <$> pricing /\
      Generate.existing_results st1
      = Store.run_stage Generate.id batch (Generate.existing_results st0)).
  { induction pricing as [|[model rates] pricing IH]; intros st0 st1 H; simpl in H.
    - injection H as <-. by exists [].
    - destruct (for_each _ prompts _) as [st2|e st2] eqn:E; [|discriminate].
      apply generate_items_fold in E as (records & Hids & Hst2). simpl in Hst2.
      apply IH in H as (batch & Hb & Hst1).
      exists ((model, records) :: batch). split.
      + unfold Store.batch_ids in *. rewrite !fmap_cons. simpl.
        by rewrite Hids, Hb.
      + rewrite Hst1, Hst2. reflexivity. }
  intros H. apply Hgen in H as (batch & Hb & Hst). exists batch.
  split; [done|]. rewrite Hst. by destruct found.
Qed.

(** *** So is the judge stage. *)

Lemma judge_result_merge env model result (st st' : Judge.state) :
  Judge.judge_result env model result st = Finished st' ->
  exists record,
    Judge.id record = Judge.a_id result /\
    Judge.existing_judgments st'
    = Store.merge_model Judge.id model record (Judge.existing_judgments st).
Proof.
  unfold Judge.judge_result.
  destruct (Judge.judgment_record_of result _) as [e|record] eqn:E;
    [discriminate|].
  intros [= <-]. exists record. split; [|reflexivity].
  unfold Judge.judgment_record_of in E.
  repeat match type of E with
         | context [match ?x with inl _ => _ | inr _ => _ end] =>
             destruct x; [discriminate|]
         end.
  by injection E as <-.
Qed.

Lemma judge_results_fold env model results :
  forall st st' : Judge.state,
    for_each (Judge.judge_result env model) results st = Finished st' ->
    exists records,
      Judge.id <$> records = Judge.a_id <$> results /\
      Judge.existing_judgments st'
      = fold_left (fun s r => Store.merge_model Judge.id model r s) records
          (Judge.existing_judgments st).
Proof.
  induction results as [|result results IH]; intros st st' H; simpl in H.
  - injection H as <-. by exists [].
  - destruct (Judge.judge_result env model result st) as [st1|e st1] eqn:E;
      [|discriminate].
    apply judge_result_merge in E as (record & Hid & Hst1).
    apply IH in H as (records & Hids & Hst').
    exists (record :: records). rewrite !fmap_cons, Hid, Hids.
    split; [done|]. simpl. by rewrite Hst', Hst1.
Qed.

Lemma judge_content_run_stage env found data (st : Judge.state) :
  Judge.judge_content env found data = Finished st ->
  exists batch,
    Store.batch_ids Judge.id batch = Store.batch_ids Judge.a_id data /\
    Judge.existing_judgments st
    = Store.run_stage Judge.id batch (default [] found).
Proof.
  unfold Judge.judge_content.
  assert (Hgen : forall (st0 st1 : Judge.state),
    for_each (Judge.judge_model env) data st0 = Finished st1 ->
    exists batch,
      Store.batch_ids Judge.id batch = Store.batch_ids Judge.a_id data /\
      Judge.existing_judgments st1
      = Store.run_stage Judge.id batch (Judge.existing_judgments st0)).
  { induction data as [|[model results] data IH]; intros st0 st1 H; simpl in H.
    - injection H as <-. by exists [].
    - destruct (for_each _ results _) as [st2|e st2] eqn:E; [|discriminate].
      apply judge_results_fold in E as (records & Hids & Hst2). simpl in Hst2.
      apply IH in H as (batch & Hb & Hst1).
      exists ((model, records) :: batch). split.
      + unfold Store.batch_ids in *. rewrite !fmap_cons. simpl.
        by rewrite Hids, Hb.
      + rewrite Hst1, Hst2. reflexivity. }
  intros H. apply Hgen in H as (batch & Hb & Hst). exists batch.
  split; [done|]. rewrite Hst. by destruct found.
Qed.

(** A second run over a store that a first run has been through changes
    neither the ids nor the number of records. *)
Lemma rerun_fixed {R : Type} (rid : R -> string)
    (batch batch' : list (string * list R)) (store : list (string * list R)) :
  Store.batch_ids rid batch' = Store.batch_ids rid batch ->
  Store.store_ids rid (Store.run_stage rid batch' (Store.run_stage rid batch store))
  = Store.store_ids rid (Store.run_stage rid batch store) /\
  Store.record_count (Store.run_stage rid batch' (Store.run_stage rid batch store))
  = Store.record_count (Store.run_stage rid batch store).
Proof.
  intros Hb.
  assert (Hids : Store.store_ids rid
                   (Store.run_stage rid batch' (Store.run_stage rid batch store))
                 = Store.store_ids rid (Store.run_stage rid batch store)).
  { apply run_stage_ids_fixed. rewrite Hb. apply run_stage_covers. }
  split; [done|].
  rewrite <- (record_count_store_ids rid (Store.run_stage rid batch' _)), Hids.
  apply record_count_store_ids.
Qed.

(** *** What is on disk when a run finishes *)

Lemma generate_main_saved env pricing prompts found (st : Generate.state) :
  pricing <> [] -> prompts <> [] ->
  Generate.main env pricing prompts found = Finished st ->
  Generate.disk st = Some (Generate.existing_results st).
Proof.
  intros Hpricing Hprompts. unfold Generate.main.
  apply (for_each_last
           (fun st => Generate.disk st = Some (Generate.existing_results st))
           (fun _ => True)); [|by apply Forall_true|done].
  intros [model rates] s s' _. unfold Generate.generate_model.
  apply (for_each_last
           (fun st => Generate.disk st = Some (Generate.existing_results st))
           (fun _ => True)); [|by apply Forall_true|done].
  intros item s0 s1 _. unfold Generate.generate_item.
  destruct rates as [[in_rate out_rate] wpt].
  destruct (if startswith model "gemini" then _ else _)
    as [e|[text [usage|]]]; try discriminate.
  by intros [= <-].
Qed.

Lemma judge_content_saved env found data (st : Judge.state) :
  data <> [] -> Forall (fun entry => snd entry <> []) data ->
  Judge.judge_content env found data = Finished st ->
  Judge.disk st = Some (Judge.existing_judgments st).
Proof.
  intros Hdata Hresults. unfold Judge.judge_content.
  apply (for_each_last
           (fun st => Judge.disk st = Some (Judge.existing_judgments st))
           (fun entry => snd entry <> [])); [|done|done].
  intros [model results] s s' Hne. unfold Judge.judge_model.
  apply (for_each_last
           (fun st => Judge.disk st = Some (Judge.existing_judgments st))
           (fun _ => True)); [|by apply Forall_true|done].
  intros result s0 s1 _. unfold Judge.judge_result.
  destruct (Judge.judgment_record_of result _); [discriminate|].
  by intros [= <-].
Qed.

End StageFacts.

(** C1. The merge of a record into a model's list keeps the prompt ids of
    the list pairwise different: a record whose id is present replaces the
    record at that position, a record with a new id goes to the end; so a
    second run of the stage over the same prompts changes neither the
    number of records nor the ids, and leaves no duplicate.  The last two
    parts say so of the generation stage and of the judge stage, the second
    run starting from the file the first one wrote. *)
Theorem C1_store_merge_unique_ids {R : Type} (rid : R -> string)
    (store : list (string * list R)) (model : string)
    (records : list R) (record : R)
    (batch batch' : list (string * list R)) :
  Dict.dict_get model store = Some records ->
  Store.unique_ids rid store ->
  Store.batch_ids rid batch' = Store.batch_ids rid batch ->
  let merged := Store.merge_record rid records record in
  let once := Store.run_stage rid batch store in
  let twice := Store.run_stage rid batch' once in
  Dict.dict_get model (Store.merge_model rid model record store) = Some merged /\
  NoDup (rid <$> merged) /\
  Store.unique_ids rid (Store.merge_model rid model record store) /\
  (forall i old, records !! i = Some old -> rid old = rid record ->
     merged = <[i := record]> records /\ length merged = length records) /\
  (rid record ∉ rid <$> records -> merged = records ++ [record]) /\
  Store.record_count twice = Store.record_count once /\
  Store.store_ids rid twice = Store.store_ids rid once /\
  Store.unique_ids rid twice /\
  (forall env env' pricing prompts found (st1 st2 : Generate.state),
     pricing <> [] -> prompts <> [] ->
     Generate.main env pricing prompts found = Py.Finished st1 ->
     Generate.main env' pricing prompts (Generate.disk st1) = Py.Finished st2 ->
     Store.record_count (Generate.existing_results st2)
     = Store.record_count (Generate.existing_results st1) /\
     Store.store_ids Generate.id (Generate.existing_results st2)
     = Store.store_ids Generate.id (Generate.existing_results st1)) /\
  (forall env env' data data' found (st1 st2 : Judge.state),
     data <> [] -> Forall (fun entry => snd entry <> []) data ->
     Store.batch_ids Judge.a_id data' = Store.batch_ids Judge.a_id data ->
     Judge.judge_content env found data = Py.Finished st1 ->
     Judge.judge_content env' (Judge.disk st1) data' = Py.Finished st2 ->
     Store.record_count (Judge.existing_judgments st2)
     = Store.record_count (Judge.existing_judgments st1) /\
     Store.store_ids Judge.id (Judge.existing_judgments st2)
     = Store.store_ids Judge.id (Judge.existing_judgments st1)).
Proof.
  intros Hget Hu Hb merged once twice.
  assert (Hnd : NoDup (rid <$> records)) by (by eapply Hu).
  assert (Hids : Store.store_ids rid twice = Store.store_ids rid once).
  { apply run_stage_ids_fixed. rewrite Hb. apply run_stage_covers. }
  split; [by apply merge_model_get|].
  split; [by apply merge_record_NoDup|].
  split; [by apply merge_model_unique|].
  split.
  { intros i old Hi Hid. subst merged.
    rewrite (merge_record_replace rid records record i old Hnd Hi Hid).
    split; [done|]. apply length_insert. }
  split; [apply merge_record_absent|].
  split.
  { rewrite <- (record_count_store_ids rid twice), Hids.
    apply record_count_store_ids. }
  split; [done|].
  split; [by do 2 apply run_stage_unique|].
  split.
  - intros env env' pricing prompts found st1 st2 Hpr Hpm H1 H2.
    rewrite (generate_main_saved _ _ _ _ _ Hpr Hpm H1) in H2.
    apply generate_main_run_stage in H1 as (b1 & Hb1 & Hst1).
    apply generate_main_run_stage in H2 as (b2 & Hb2 & Hst2).
    simpl in Hst2. rewrite Hst2, Hst1.
    assert (Hbb : Store.batch_ids Generate.id b2 = Store.batch_ids Generate.id b1)
      by congruence.
    destruct (rerun_fixed Generate.id b1 b2 (default [] found) Hbb). auto.
  - intros env env' data data' found st1 st2 Hd Hr Hdd H1 H2.
    rewrite (judge_content_saved _ _ _ _ Hd Hr H1) in H2.
    apply judge_content_run_stage in H1 as (b1 & Hb1 & Hst1).
    apply judge_content_run_stage in H2 as (b2 & Hb2 & Hst2).
    simpl in Hst2. rewrite Hst2, Hst1.
    assert (Hbb : Store.batch_ids Judge.id b2 = Store.batch_ids Judge.id b1)
      by congruence.
    destruct (rerun_fixed Judge.id b1 b2 (default [] found) Hbb). auto.
Qed.

Lemma C1_store_merge_unique_ids_witness :
  let store := [("gemini", [("P1", 0%nat); ("P2", 0%nat)])]%string in
  let once := Store.run_stage fst
      [("gemini", [("P1", 1%nat); ("P2", 1%nat); ("P3", 1%nat)])]%string store in
  let twice := Store.run_stage fst
      [("gemini", [("P1", 2%nat); ("P2", 2%nat); ("P3", 2%nat)])]%string once in
  let first_run :=
    {| Generate.openai_does := fun _ _ => Generate.CreateRaises;
       Generate.gemini_does := fun _ _ => Generate.Responds (Some "A first article."%string);
       Generate.elapsed_ms := fun _ _ => 1200 |} in
  let second_run :=
    {| Generate.openai_does := fun _ _ => Generate.CreateRaises;
       Generate.gemini_does := fun _ _ => Generate.Responds (Some "Another one."%string);
       Generate.elapsed_ms := fun _ _ => 900 |} in
  let st1 := Py.final_state
      (Generate.main first_run Generate.pricing Generate.prompts None) in
  let st2 := Py.final_state
      (Generate.main second_run Generate.pricing Generate.prompts (Generate.disk st1)) in
  NoDup (fst <$> Store.merge_record fst [("P1", 0%nat); ("P2", 0%nat)]%string
                   ("P2", 7%nat)%string) /\
  Store.record_count twice = Store.record_count once /\
  Store.record_count (Generate.existing_results st2)
  = Store.record_count (Generate.existing_results st1).
Proof.
  intros store once twice first_run second_run st1 st2.
  assert (Hu : Store.unique_ids (R:=string * nat) fst store).
  { intros model records H. unfold store in H. cbn [Dict.dict_get] in H.
    destruct (String.eqb "gemini" model); [|discriminate].
    injection H as <-. compute_done. }
  pose proof (C1_store_merge_unique_ids (R:=string * nat) fst store "gemini"
    [("P1", 0%nat); ("P2", 0%nat)]%string ("P2", 7%nat)%string
    [("gemini", [("P1", 1%nat); ("P2", 1%nat); ("P3", 1%nat)])]%string
    [("gemini", [("P1", 2%nat); ("P2", 2%nat); ("P3", 2%nat)])]%string
    eq_refl Hu eq_refl) as H.
  split; [exact (proj1 (proj2 H))|].
  split; [exact (proj1 (proj2 (proj2 (proj2 (proj2 (proj2 H))))))|].
  destruct H as (_ & _ & _ & _ & _ & _ & _ & _ & Hgen & _).
  apply (Hgen first_run second_run Generate.pricing Generate.prompts None st1 st2);
    [discriminate | discriminate | by vm_compute | by vm_compute].
Defined.

Section LiveQCFacts.

Import Py LiveQC.
Local Open Scope string_scope.

Lemma backoff_fields max_retries attempt w :
  created (backoff max_retries attempt w) = created w /\
  checked (backoff max_retries attempt w) = checked w /\
  requested (backoff max_retries attempt w) = requested w /\
  saved (backoff max_retries attempt w) = saved w.
Proof. unfold backoff. destruct (_ <? _)%nat; simpl; auto. Qed.

Lemma replicate_shift {A : Type} (n : nat) (x : A) (l : list A) :
  (replicate n x ++ x :: l = x :: replicate n x ++ l)%list.
Proof. induction n as [|n IH]; simpl; [done|]. by rewrite IH. Qed.

(** What one call of the generation loop does to the world: between one
    and [left] capability calls, all with the same instruction; nothing is
    saved or checked. *)
Lemma generate_loop_spec env instruction max_retries left :
  forall attempt w r w',
    generate_loop env instruction max_retries attempt left w = (r, w') ->
    exists n : nat,
      (n <= left)%nat /\ (left <> 0%nat -> n <> 0%nat) /\
      created w' = (replicate n instruction ++ created w)%list /\
      checked w' = checked w /\ requested w' = requested w /\
      saved w' = saved w /\
      (r = None -> n = left) /\
      (forall c, r = Some c -> c <> EmptyString).
Proof.
  induction left as [|left IH]; intros attempt w r w' H; simpl in H.
  - injection H as <- <-. exists 0%nat. simpl. repeat split; auto; discriminate.
  - destruct (create_does env (length (created w)) instruction)
      as [| |[[|c t]|]] eqn:E.
    + apply IH in H as (n & Hn & _ & Hc & Hk & Hr & Hs & Hnone & Hsome).
      destruct (backoff_fields max_retries attempt (log_created instruction w))
        as (B1 & B2 & B3 & B4).
      exists (S n). rewrite Hc, Hk, Hr, Hs, B1, B2, B3, B4. simpl.
      repeat split; auto; try lia; try apply replicate_shift.
    + apply IH in H as (n & Hn & _ & Hc & Hk & Hr & Hs & Hnone & Hsome).
      exists (S n). rewrite Hc, Hk, Hr, Hs. simpl.
      repeat split; auto; try lia; try apply replicate_shift.
    + apply IH in H as (n & Hn & _ & Hc & Hk & Hr & Hs & Hnone & Hsome).
      exists (S n). rewrite Hc, Hk, Hr, Hs. simpl.
      repeat split; auto; try lia; try apply replicate_shift.
    + injection H as <- <-. exists 1%nat. simpl.
      repeat split; auto; try lia; try discriminate.
      intros c0 [= <-]. discriminate.
    + apply IH in H as (n & Hn & _ & Hc & Hk & Hr & Hs & Hnone & Hsome).
      exists (S n). rewrite Hc, Hk, Hr, Hs. simpl.
      repeat split; auto; try lia; try apply replicate_shift.
Qed.

(** When every attempt fails, the loop returns [None]. *)
Lemma generate_loop_fails env instruction max_retries left :
  forall attempt w,
    (forall k, (k < left)%nat ->
       create_fails (create_does env (length (created w) + k) instruction)) ->
    fst (generate_loop env instruction max_retries attempt left w) = None.
Proof.
  induction left as [|left IH]; intros attempt w H; simpl; [done|].
  pose proof (H 0%nat ltac:(lia)) as H0. rewrite Nat.add_0_r in H0.
  assert (Hnext : forall w1, created w1 = created (log_created instruction w) ->
            forall k, (k < left)%nat ->
              create_fails (create_does env (length (created w1) + k) instruction)).
  { intros w1 Hw1 k Hk. rewrite Hw1. simpl.
    replace (S (length (created w) + k)) with (length (created w) + S k)%nat by lia.
    apply H. lia. }
  destruct (create_does env (length (created w)) instruction)
    as [| |[[|c t]|]] eqn:E; simpl in H0; try done.
  - apply IH. apply Hnext. apply backoff_fields.
  - apply IH. by apply Hnext.
  - apply IH. by apply Hnext.
  - apply IH. by apply Hnext.
Qed.

Lemma check_loop_spec env content max_retries left :
  forall attempt w r w',
    check_loop env content max_retries attempt left w = (r, w') ->
    created w' = created w /\ requested w' = requested w /\ saved w' = saved w.
Proof.
  induction left as [|left IH]; intros attempt w r w' H; simpl in H.
  - by injection H as <- <-.
  - destruct (check_does env (length (checked w)) content) eqn:E.
    + apply IH in H as (Hc & Hr & Hs). rewrite Hc, Hr, Hs.
      destruct (backoff_fields max_retries attempt (log_checked content w))
        as (B1 & B2 & B3 & B4). by rewrite B1, B3, B4.
    + apply IH in H as (Hc & Hr & Hs). by rewrite Hc, Hr, Hs.
    + by injection H as <- <-.
Qed.

Lemma check_quality_spec env content max_retries w r w' :
  check_quality env content max_retries w = (r, w') ->
  created w' = created w /\ requested w' = requested w /\ saved w' = saved w.
Proof.
  unfold check_quality. destruct content as [[|c t]|].
  - by intros [= <- <-].
  - apply check_loop_spec.
  - by intros [= <- <-].
Qed.

Lemma generate_article_spec env tip max_retries w r w' :
  generate_article env tip max_retries w = (r, w') ->
  exists n : nat,
    (n <= max_retries)%nat /\ (max_retries <> 0%nat -> n <> 0%nat) /\
    created w' = (replicate n (user_instruction tip) ++ created w)%list /\
    requested w' = tip :: requested w /\
    saved w' = saved w /\
    (r = None -> n = max_retries) /\
    (forall c, r = Some c -> c <> EmptyString).
Proof.
  unfold generate_article. intros H.
  apply generate_loop_spec in H as (n & H1 & H2 & H3 & _ & H5 & H6 & H7 & H8).
  exists n. simpl in *. auto 10.
Qed.

(** C9. A first draft rejected with a non-empty tip leads to one call of
    [generate_article] with that tip, so to between one and three
    capability calls, each with a user instruction that ends with the tip;
    when all three fail, the first draft is saved with the status
    "rejected_no_revision". *)
Theorem C9_rejected_draft_regenerates_once (env : qc_env) (w0 w1 w2 : world)
    (content : string) (qc : QCResult) :
  check_api_keys env = None ->
  generate_article env None 3 w0 = (Some content, w1) ->
  check_quality env (Some content) 3 w1 = (Some qc, w2) ->
  verdict qc <> "APPROVED" ->
  tip qc <> EmptyString ->
  let instruction := user_instruction (Some (tip qc)) in
  let regeneration := generate_article env (Some (tip qc)) 3 w2 in
  requested (main env w0) = Some (tip qc) :: None :: requested w0 /\
  (exists before, instruction = before ++ tip qc) /\
  (exists n : nat,
     (1 <= n <= 3)%nat /\
     created (main env w0) = (replicate n instruction ++ created w2)%list) /\
  ((forall k, (k < 3)%nat ->
      create_fails (create_does env (length (created w2) + k) instruction)) ->
   fst regeneration = None /\
   created (main env w0) = (replicate 3 instruction ++ created w2)%list /\
   saved (main env w0) =
     {| s_content := content; s_qc_result := qc;
        s_status := "rejected_no_revision" |} :: saved w0).
Proof.
  intros Hkeys Hgen Hqc Hverdict Htip instruction regeneration.
  destruct (generate_article_spec _ _ _ _ _ _ Hgen)
    as (n1 & _ & _ & _ & Hreq1 & Hsav1 & _ & Hne).
  specialize (Hne content eq_refl).
  destruct (check_quality_spec _ _ _ _ _ _ Hqc) as (Hc2 & Hreq2 & Hsav2).
  destruct content as [|c0 t0]; [done|].
  destruct regeneration as [revised w3] eqn:Hregen. unfold regeneration in Hregen.
  destruct (generate_article_spec _ _ _ _ _ _ Hregen)
    as (n & Hn & Hn0 & Hc3 & Hreq3 & Hsav3 & Hnone & _).
  fold instruction in Hc3.
  assert (Hmain : main env w0 =
    match revised with
    | Some (String c t) =>
        let '(revised_qc, w) := check_quality env (Some (String c t)) 3 w3 in
        match revised_qc with
        | Some revised_qc =>
            save_results (String c t) revised_qc
              (if String.eqb (verdict revised_qc) "APPROVED"
               then "approved_revised" else "rejected_revised") w
        | None => w
        end
    | _ => save_results (String c0 t0) qc "rejected_no_revision" w3
    end).
  { unfold main. rewrite Hkeys, Hgen. cbv beta iota zeta. rewrite Hqc.
    cbv beta iota zeta. apply String.eqb_neq in Hverdict. rewrite Hverdict.
    rewrite Hregen. reflexivity. }
  assert (Hfields : created (main env w0) = created w3 /\
                    requested (main env w0) = requested w3).
  { rewrite Hmain. destruct revised as [[|c t]|]; [done| |done].
    destruct (check_quality env (Some (String c t)) 3 w3) as [rq w4] eqn:Hrq.
    destruct (check_quality_spec _ _ _ _ _ _ Hrq) as (H1 & H2 & _).
    destruct rq; simpl; auto. }
  destruct Hfields as [Hcreated Hrequested].
  split; [by rewrite Hrequested, Hreq3, Hreq2, Hreq1|].
  split.
  { unfold instruction, user_instruction. destruct (tip qc) as [|c t]; [done|].
    exists (instruction_text EmptyString). reflexivity. }
  split.
  { exists n. split; [lia|]. by rewrite Hcreated, Hc3. }
  intros Hfail.
  assert (Hrev : revised = None).
  { change revised with (fst (revised, w3)). rewrite <- Hregen.
    unfold generate_article. apply generate_loop_fails. exact Hfail. }
  split; [by simpl|].
  split; [by rewrite Hcreated, Hc3, (Hnone Hrev)|].
  rewrite Hmain, Hrev. simpl. by rewrite Hsav3, Hsav2, Hsav1.
Qed.

Lemma C9_rejected_draft_regenerates_once_witness :
  let env := {| openai_key := true; gemini_key := true;
                create_does := fun n _ =>
                  match n with
                  | O => Response (Some "First draft.")
                  | _ => CreateRaises
                  end;
                check_does := fun _ _ =>
                  Parsed {| verdict := "REJECTED"; tip := "Add two sources." |} |} in
  let w0 := {| created := []; checked := []; slept := []; requested := [];
               saved := [] |} in
  requested (main env w0) = [Some "Add two sources."; None] /\
  saved (main env w0) =
    [ {| s_content := "First draft.";
         s_qc_result := {| verdict := "REJECTED"; tip := "Add two sources." |};
         s_status := "rejected_no_revision" |} ].
Proof.
  intros env w0.
  pose proof (C9_rejected_draft_regenerates_once env w0
    (snd (generate_article env None 3 w0))
    (snd (check_quality env (Some "First draft.") 3
            (snd (generate_article env None 3 w0))))
    "First draft." {| verdict := "REJECTED"; tip := "Add two sources." |}
    eq_refl eq_refl eq_refl) as H.
  destruct H as (Hreq & _ & _ & Hfail); [discriminate..|].
  split; [exact Hreq|].
  apply Hfail. intros [|[|[|k]]] Hk; exact I.
Defined.

Lemma substring_of_empty (needle : string) :
  substring_of needle EmptyString -> needle = EmptyString.
Proof.
  intros (before & after & H). destruct before; [|discriminate].
  destruct needle; [done|discriminate].
Qed.

(** C10. Without a tip (or with an empty one) the user instruction is the
    empty string: the conditional covers all the concatenated literals, so
    the title, the keywords and the length constraint reach the generation
    capability only with a non-empty tip; the calls of the initial
    generation all carry the empty instruction. *)
Theorem C10_instruction_empty_without_tip (env : qc_env) (w : world) :
  user_instruction None = EmptyString /\
  user_instruction (Some EmptyString) = EmptyString /\
  (forall tip, user_instruction tip <> EmptyString <->
               exists c t, tip = Some (String c t)) /\
  (forall tip needle,
     needle ∈ [prompt_title; join ", " prompt_keywords; "1,500 - 2,500 word"] ->
     substring_of needle (user_instruction tip) <->
     exists c t, tip = Some (String c t)) /\
  (exists n : nat,
     (1 <= n <= 3)%nat /\
     created (snd (generate_article env None 3 w))
     = (replicate n EmptyString ++ created w)%list).
Proof.
  split; [reflexivity|]. split; [reflexivity|]. split; [|split].
  - intros [[|c t]|]; simpl; split; try done.
    + intros (c & t & H). discriminate.
    + intros _. by exists c, t.
    + intros (c & t & H). discriminate.
  - intros tip needle Hin. split.
    + intros Hsub. destruct tip as [[|c t]|]; simpl in Hsub.
      * apply substring_of_empty in Hsub. subst needle.
        repeat (apply elem_of_cons in Hin as [Hin|Hin]; [discriminate|]).
        by apply elem_of_nil in Hin.
      * by exists c, t.
      * apply substring_of_empty in Hsub. subst needle.
        repeat (apply elem_of_cons in Hin as [Hin|Hin]; [discriminate|]).
        by apply elem_of_nil in Hin.
    + intros (c & t & ->).
      apply elem_of_cons in Hin as [->|Hin];
        [|apply elem_of_cons in Hin as [->|Hin];
          [|apply elem_of_cons in Hin as [->|Hin];
            [|by apply elem_of_nil in Hin]]].
      * exists ("Title: " ++ dquote),
          (dquote ++ nl ++
           "- Write a 1,500 - 2,500 word article." ++ nl ++
           "- Cite at least two reputable sources with URLs." ++ nl ++
           "- Cover these keywords: " ++ join ", " prompt_keywords ++ "." ++ nl ++
           "- Avoid unsafe, biased, or sensitive content." ++ nl ++
           "- Use a warm, conversational tone with a light joke or analogy." ++
           nl ++ "- " ++ String c t).
        reflexivity.
      * exists ("Title: " ++ dquote ++ prompt_title ++ dquote ++ nl ++
                "- Write a 1,500 - 2,500 word article." ++ nl ++
                "- Cite at least two reputable sources with URLs." ++ nl ++
                "- Cover these keywords: "),
          ("." ++ nl ++
           "- Avoid unsafe, biased, or sensitive content." ++ nl ++
           "- Use a warm, conversational tone with a light joke or analogy." ++
           nl ++ "- " ++ String c t).
        reflexivity.
      * exists ("Title: " ++ dquote ++ prompt_title ++ dquote ++ nl ++
                "- Write a "),
          (" article." ++ nl ++
           "- Cite at least two reputable sources with URLs." ++ nl ++
           "- Cover these keywords: " ++ join ", " prompt_keywords ++ "." ++ nl ++
           "- Avoid unsafe, biased, or sensitive content." ++ nl ++
           "- Use a warm, conversational tone with a light joke or analogy." ++
           nl ++ "- " ++ String c t).
        reflexivity.
  - destruct (generate_article env None 3 w) as [r w'] eqn:H.
    apply generate_article_spec in H as (n & Hn & Hn0 & Hc & _).
    exists n. split; [lia|]. exact Hc.
Qed.

Lemma C10_instruction_empty_without_tip_witness :
  user_instruction (Some "Add two sources.") <> EmptyString /\
  substring_of prompt_title (user_instruction (Some "Add two sources.")).
Proof.
  pose proof (C10_instruction_empty_without_tip
    {| openai_key := true; gemini_key := true;
       create_does := fun _ _ => CreateRaises;
       check_does := fun _ _ => CheckRaises |}
    {| created := []; checked := []; slept := []; requested := [];
       saved := [] |}) as (_ & _ & Hne & Hsub & _).
  split.
  - apply (proj2 (Hne (Some "Add two sources."))). by eexists _, _.
  - apply (proj2 (Hsub (Some "Add two sources.") prompt_title
                    ltac:(apply list_elem_of_here))).
    by eexists _, _.
Defined.

End LiveQCFacts.

Section RegexFacts.

Import Py Regex.

(** A repetition over single characters of a set [p] takes the whole run of
    such characters when the rest of the pattern matches after it. *)
Lemma plus_loop_greedy
    (step : list ascii -> option (list ascii) ->
            (list ascii -> option (list ascii) ->
             option (list ascii * option (list ascii))) ->
            option (list ascii * option (list ascii)))
    (p : ascii -> bool) :
  (forall c s cap k', p c = true -> is_Some (k' s cap) ->
     step (c :: s) cap k' = k' s cap) ->
  (forall s cap k', stops p s -> step s cap k' = None) ->
  forall body n s cap k,
    Forall (fun c => p c = true) body -> body <> [] -> stops p s ->
    (length body <= n)%nat -> is_Some (k s cap) ->
    plus_loop step n (body ++ s) cap k = k s cap.
Proof.
  intros Hin Hout. induction body as [|c body IH];
    intros n s cap k Hbody Hne Hstop Hn Hk; [done|].
  apply Forall_cons_1 in Hbody as [Hc Hbody].
  destruct n as [|n]; [simpl in Hn; lia|]. simpl in Hn.
  cbn [plus_loop app].
  assert (Hlt : (length (body ++ s) <? length (c :: body ++ s))%nat = true)
    by (apply Nat.ltb_lt; simpl; lia).
  assert (Hnext :
    match plus_loop step n (body ++ s) cap k with
    | Some m => Some m
    | None => k (body ++ s) cap
    end = k s cap).
  { destruct body as [|c' body'].
    - simpl. destruct n as [|n]; [done|]. simpl. by rewrite Hout.
    - rewrite IH; auto; [|simpl in *; lia]. by destruct Hk as [m ->]. }
  rewrite Hin; [|done|]; rewrite Hlt, Hnext; done.
Qed.

Lemma match_class_in p c s cap
    (k' : list ascii -> option (list ascii) ->
          option (list ascii * option (list ascii))) :
  p c = true -> match_re (Class p) (c :: s) cap k' = k' s cap.
Proof. intros H. simpl. by rewrite H. Qed.

Lemma match_class_out p s cap
    (k' : list ascii -> option (list ascii) ->
          option (list ascii * option (list ascii))) :
  stops p s -> match_re (Class p) s cap k' = None.
Proof. destruct s as [|c s]; simpl; [done|]. by intros ->. Qed.

(** [Class p +] followed by the rest of a pattern. *)
Lemma match_plus_class p body s cap
    (k : list ascii -> option (list ascii) ->
         option (list ascii * option (list ascii))) :
  Forall (fun c => p c = true) body -> body <> [] -> stops p s ->
  is_Some (k s cap) ->
  match_re (Plus (Class p)) (body ++ s) cap k = k s cap.
Proof.
  intros Hb Hne Hs Hk. cbn [match_re].
  apply (plus_loop_greedy (match_re (Class p)) p); auto.
  - intros c s' cap' k' Hc _. by apply match_class_in.
  - intros s' cap' k' Hs'. by apply match_class_out.
  - rewrite length_app. lia.
Qed.

Lemma match_plus_class_Some p body s cap m
    (k : list ascii -> option (list ascii) ->
         option (list ascii * option (list ascii))) :
  Forall (fun c => p c = true) body -> body <> [] -> stops p s ->
  k s cap = Some m ->
  match_re (Plus (Class p)) (body ++ s) cap k = Some m.
Proof.
  intros Hb Hne Hs Hk. rewrite match_plus_class; auto; by rewrite Hk.
Qed.

Lemma match_seq r1 r2 s cap
    (k : list ascii -> option (list ascii) ->
         option (list ascii * option (list ascii))) :
  match_re (Seq r1 r2) s cap k
  = match_re r1 s cap (fun s' cap' => match_re r2 s' cap' k).
Proof. reflexivity. Qed.

Lemma match_lit c s cap
    (k : list ascii -> option (list ascii) ->
         option (list ascii * option (list ascii))) :
  match_re (Lit c) (c :: s) cap k = k s cap.
Proof. simpl. by rewrite Ascii.eqb_refl. Qed.

Lemma match_group r s cap
    (k : list ascii -> option (list ascii) ->
         option (list ascii * option (list ascii))) :
  match_re (Group r) s cap k
  = match_re r s cap (fun s' _ => k s' (Some (take (length s - length s') s))).
Proof. reflexivity. Qed.

(** The scan skips the characters of the last match. *)
Lemma sub_from_skip r repl (pre rest : list ascii) :
  sub_from r repl (length pre) (pre ++ rest) = sub_from r repl 0 rest.
Proof.
  induction pre as [|c pre IH]; simpl; [|exact IH].
  destruct rest; reflexivity.
Qed.

(** A match at the head of the subject is replaced and skipped. *)
Lemma sub_from_match r repl (m rest : list ascii) cap :
  m <> [] -> match_here r (m ++ rest) = Some (rest, cap) ->
  sub_from r repl 0 (m ++ rest) = (repl cap ++ sub_from r repl 0 rest)%list.
Proof.
  intros Hne Hm. destruct m as [|c m]; [done|].
  change ((c :: m) ++ rest)%list with (c :: (m ++ rest))%list in *.
  cbn [sub_from]. rewrite Hm.
  assert (Hlt : (length rest <? length (c :: m ++ rest))%nat = true).
  { apply Nat.ltb_lt. simpl. rewrite length_app. lia. }
  rewrite Hlt. f_equal.
  replace (length (m ++ rest) - length rest)%nat with (length m)
    by (rewrite length_app; lia).
  apply sub_from_skip.
Qed.

(** Where the pattern does not match, the character is kept. *)
Lemma sub_from_no_match r repl c (s : list ascii) :
  match_here r (c :: s) = None ->
  sub_from r repl 0 (c :: s) = c :: sub_from r repl 0 s.
Proof. intros H. cbn [sub_from]. by rewrite H. Qed.

(** A substitution keeps a property of characters that the subject and the
    replacements have. *)
Lemma sub_from_Forall (P : ascii -> Prop) r repl :
  (forall cap, Forall P (repl cap)) ->
  forall s skip, Forall P s -> Forall P (sub_from r repl skip s).
Proof.
  intros Hrepl. induction s as [|c s IH]; intros skip Hs; simpl; [done|].
  apply Forall_cons_1 in Hs as [Hc Hs].
  destruct skip as [|skip]; [|by apply IH].
  destruct (match_here r (c :: s)) as [[rest cap]|].
  - destruct (_ <? _)%nat.
    + apply Forall_app. split; [apply Hrepl|by apply IH].
    + constructor; [done|by apply IH].
  - constructor; [done|by apply IH].
Qed.

End RegexFacts.

Section AnalysisFacts.

Import Py Regex Analysis.
Local Open Scope string_scope.

Lemma url_piece_in c s cap
    (k' : list ascii -> option (list ascii) ->
          option (list ascii * option (list ascii))) :
  url_char c = true -> is_Some (k' s cap) ->
  match_re url_piece (c :: s) cap k' = k' s cap.
Proof.
  intros Hc [m Hm]. unfold url_piece. cbn [match_re].
  destruct (in_range "a" "z" c || in_range "A" "Z" c) eqn:E1; [by rewrite Hm|].
  destruct (in_range "0" "9" c) eqn:E2; [by rewrite Hm|].
  destruct (in_range "$" "_" c || one_of "@.&+" c) eqn:E3; [by rewrite Hm|].
  destruct (one_of "!*\(\)," c) eqn:E4; [by rewrite Hm|].
  unfold url_char in Hc. rewrite E1, E2, E3, E4 in Hc. discriminate.
Qed.

Lemma url_piece_out s cap
    (k' : list ascii -> option (list ascii) ->
          option (list ascii * option (list ascii))) :
  stops url_char s -> match_re url_piece s cap k' = None.
Proof.
  destruct s as [|c s]; [reflexivity|]. simpl. intros Hc.
  unfold url_char in Hc.
  apply orb_false_iff in Hc as [Hc E4].
  apply orb_false_iff in Hc as [Hc E3].
  apply orb_false_iff in Hc as [E1 E2].
  unfold url_piece. cbn [match_re]. rewrite E1, E2, E3, E4.
  destruct (Ascii.eqb c "%") eqn:E5; [|reflexivity].
  apply Ascii.eqb_eq in E5. subst c. discriminate.
Qed.

(** The repeated group of the URL pattern takes the whole run of URL
    characters. *)
Lemma match_plus_url_piece body s cap
    (k : list ascii -> option (list ascii) ->
         option (list ascii * option (list ascii))) :
  Forall (fun c => url_char c = true) body -> body <> [] ->
  stops url_char s -> is_Some (k s cap) ->
  match_re (Plus url_piece) (body ++ s) cap k = k s cap.
Proof.
  intros Hb Hne Hs Hk. cbn [match_re].
  apply (plus_loop_greedy (match_re url_piece) url_char); auto.
  - intros c s' cap' k'. apply url_piece_in.
  - intros s' cap' k'. apply url_piece_out.
  - rewrite length_app. lia.
Qed.

(** A bare URL is matched whole. *)
Lemma match_url scheme body s :
  scheme = list_ascii_of_string "http://" \/
  scheme = list_ascii_of_string "https://" ->
  Forall (fun c => url_char c = true) body -> body <> [] ->
  stops url_char s ->
  match_here url_pattern (scheme ++ body ++ s) = Some (s, None).
Proof.
  intros Hscheme Hb Hne Hs.
  assert (H : match_re (Plus url_piece) (body ++ s) None
                (fun s' cap => Some (s', cap)) = Some (s, None)).
  { rewrite match_plus_url_piece; auto; by eexists. }
  cbn [match_re] in H.
  destruct Hscheme as [-> | ->]; unfold match_here, url_pattern;
    cbn [list_ascii_of_string lits app]; cbn [match_re]; simpl Ascii.eqb;
    cbv iota.
  - change (one_of "s" ":") with false. cbv iota. exact H.
  - change (one_of "s" "s") with true. cbv iota. by rewrite H.
Qed.

(** Away from an opening square bracket the link pattern does not match. *)
Lemma match_md_link_none c s :
  c <> "["%char -> match_here md_link (c :: s) = None.
Proof.
  intros Hc. unfold match_here, md_link. cbn [match_re].
  apply Ascii.eqb_neq in Hc. by rewrite Hc.
Qed.

(** A markdown link is matched whole, its text captured. *)
Lemma match_md_link (text url rest : list ascii) :
  text <> [] -> Forall (fun c => c <> "]"%char) text ->
  url <> [] -> Forall (fun c => c <> ")"%char) url ->
  match_here md_link
    ("["%char :: text ++ "]"%char :: "("%char :: url ++ ")"%char :: rest)
  = Some (rest, Some text).
Proof.
  intros Ht Htext Hu Hurl.
  assert (Htext' : Forall (fun c => not_char "]" c = true) text).
  { eapply Forall_impl; [exact Htext|]. intros c Hc. unfold not_char.
    apply Ascii.eqb_neq in Hc. by rewrite Hc. }
  assert (Hurl' : Forall (fun c => not_char ")" c = true) url).
  { eapply Forall_impl; [exact Hurl|]. intros c Hc. unfold not_char.
    apply Ascii.eqb_neq in Hc. by rewrite Hc. }
  unfold match_here, md_link.
  rewrite match_seq, match_lit, match_seq, match_group.
  set (after := ("]"%char :: "("%char :: url ++ ")"%char :: rest)).
  apply match_plus_class_Some; [exact Htext' | exact Ht | reflexivity | ].
  replace (take (length (text ++ after) - length after) (text ++ after))
    with text.
  2:{ rewrite length_app.
      replace (length text + length after - length after)%nat
        with (length text) by lia.
      by rewrite take_app_length. }
  unfold after.
  rewrite match_seq, match_lit, match_seq, match_lit, match_seq.
  apply match_plus_class_Some; [exact Hurl' | exact Hu | reflexivity | ].
  by rewrite match_lit.
Qed.

Lemma match_lit_ne x c s cap
    (k : list ascii -> option (list ascii) ->
         option (list ascii * option (list ascii))) :
  c <> x -> match_re (Lit x) (c :: s) cap k = None.
Proof. intros H. simpl. apply Ascii.eqb_neq in H. by rewrite H. Qed.

Lemma isspace_not_url_char c : isspace c = true -> url_char c = false.
Proof.
  destruct c as [b0 b1 b2 b3 b4 b5 b6 b7].
  destruct b0, b1, b2, b3, b4, b5, b6, b7; vm_compute; congruence.
Qed.

Lemma isspace_not_bracket c : isspace c = true -> c <> "["%char.
Proof. intros H ->. discriminate. Qed.

Lemma isspace_not_h c : isspace c = true -> c <> "h"%char.
Proof. intros H ->. discriminate. Qed.

Lemma ends_word_stops s : ends_word s -> stops url_char s.
Proof. destruct s as [|c s]; simpl; [done|]. apply isspace_not_url_char. Qed.

Lemma urls_only_no_bracket s :
  urls_only s -> Forall (fun c => c <> "["%char) s.
Proof.
  induction 1 as [|c s0 Hc _ IH|scheme body s0 Hscheme _ Hbody _ _ IH].
  - constructor.
  - constructor; [by apply isspace_not_bracket|done].
  - apply Forall_app. split; [|apply Forall_app; split; [|done]].
    + destruct Hscheme as [-> | ->]; repeat constructor; discriminate.
    + eapply Forall_impl; [exact Hbody|]. by intros c [_ Hc].
Qed.

(** Without an opening square bracket the link substitution changes
    nothing. *)
Lemma sub_md_link_no_bracket repl s :
  Forall (fun c => c <> "["%char) s -> sub_from md_link repl 0 s = s.
Proof.
  induction 1 as [|c s0 Hc _ IH]; [reflexivity|].
  rewrite sub_from_no_match by (by apply match_md_link_none). by rewrite IH.
Qed.

(** The URL substitution leaves only the whitespace of a text made of
    URLs. *)
Lemma sub_url_urls_only s :
  urls_only s ->
  Forall (fun c => isspace c = true)
    (sub_from url_pattern (const EmptyString) 0 s).
Proof.
  induction 1 as [|c s0 Hc _ IH|scheme body s0 Hscheme Hne Hbody Hend _ IH].
  - constructor.
  - rewrite sub_from_no_match.
    + by constructor.
    + unfold match_here, url_pattern. cbn [list_ascii_of_string lits].
      rewrite match_seq. apply match_lit_ne. by apply isspace_not_h.
  - rewrite app_assoc. rewrite (sub_from_match _ _ _ _ None).
    + exact IH.
    + destruct Hscheme as [-> | ->]; discriminate.
    + rewrite <- app_assoc. apply match_url; auto.
      * eapply Forall_impl; [exact Hbody|]. by intros c [Hc _].
      * by apply ends_word_stops.
Qed.

Lemma lstrip_all_space (l : list ascii) :
  Forall (fun c => isspace c = true) l -> lstrip (string_of_list_ascii l) = EmptyString.
Proof. induction 1 as [|c l0 Hc _ IH]; simpl; [done|]. by rewrite Hc. Qed.

(** A text of whitespace only has no word. *)
Lemma count_all_space (l : list ascii) :
  Forall (fun c => isspace c = true) l ->
  length (split_ws (strip (sub whitespace_run (const " ")
            (sub special_char (const " ") (string_of_list_ascii l))))) = 0%nat.
Proof.
  intros Hl. unfold sub. rewrite !list_ascii_of_string_of_list_ascii.
  unfold strip. rewrite lstrip_all_space; [reflexivity|].
  apply sub_from_Forall; [intros cap; by repeat constructor|].
  apply sub_from_Forall; [intros cap; by repeat constructor|done].
Qed.

Lemma count_words_urls_only (text : string) :
  urls_only (list_ascii_of_string text) -> count_words text = 0%nat.
Proof.
  intros H. unfold count_words.
  unfold sub at 4. rewrite sub_md_link_no_bracket by (by apply urls_only_no_bracket).
  rewrite string_of_list_ascii_of_string.
  unfold sub at 3. apply count_all_space. by apply sub_url_urls_only.
Qed.

(** C7. The word count of "[link](http://x.com) hello world" is 3: the
    link is replaced by its text, which counts.  A markdown link
    [[text](url)] is replaced by its text, and a bare URL is removed from
    its scheme up to the first character that the URL pattern does not
    accept (whitespace, a hash sign, a tilde) before the words are counted.
    So a text that consists only of whitespace and of URLs made of
    characters the pattern accepts, none of them a square bracket, has no
    word, while what follows a hash sign in a URL stays and counts:
    "http://example.com/#section" has one word. *)
Theorem C7_count_words_links_and_urls :
  count_words "[link](http://x.com) hello world" = 3%nat /\
  (forall before text url rest : list ascii,
     Forall (fun c => c <> "["%char) before ->
     text <> [] -> Forall (fun c => c <> "]"%char) text ->
     url <> [] -> Forall (fun c => c <> ")"%char) url ->
     sub_from md_link group1 0
       (before ++
        "["%char :: text ++ "]"%char :: "("%char :: url ++ ")"%char :: rest)
     = (before ++ text ++ sub_from md_link group1 0 rest)%list) /\
  (forall scheme body rest : list ascii,
     scheme = list_ascii_of_string "http://" \/
     scheme = list_ascii_of_string "https://" ->
     body <> [] -> Forall (fun c => url_char c = true) body ->
     stops url_char rest ->
     sub_from url_pattern (const EmptyString) 0 (scheme ++ body ++ rest)
     = sub_from url_pattern (const EmptyString) 0 rest) /\
  (forall text : string,
     urls_only (list_ascii_of_string text) -> count_words text = 0%nat) /\
  url_char "#" = false /\ url_char "~" = false /\
  count_words "http://example.com/#section" = 1%nat.
Proof.
  split; [by vm_compute|]. split; [|split; [|split; [|by vm_compute]]].
  - intros before text url rest Hbefore Ht Htext Hu Hurl.
    induction Hbefore as [|c before Hc _ IH].
    + assert (Heq :
        ("["%char :: text ++ "]"%char :: "("%char :: url ++ ")"%char :: rest
         = ("["%char :: text ++ "]"%char :: "("%char :: url ++ [")"%char])
           ++ rest)%list).
      { simpl. f_equal. rewrite <- app_assoc. simpl. do 3 f_equal.
        rewrite <- app_assoc. reflexivity. }
      rewrite app_nil_l, Heq. rewrite (sub_from_match _ _ _ _ (Some text)).
      * reflexivity.
      * discriminate.
      * rewrite <- Heq. by apply match_md_link.
    + rewrite <- !app_comm_cons.
      rewrite sub_from_no_match by (by apply match_md_link_none).
      by rewrite IH.
  - intros scheme body rest Hscheme Hne Hbody Hstop.
    rewrite app_assoc. rewrite (sub_from_match _ _ _ _ None).
    + reflexivity.
    + destruct Hscheme as [-> | ->]; discriminate.
    + rewrite <- app_assoc. by apply match_url.
  - apply count_words_urls_only.
Qed.

(** The example of the spec counts three words, not two. *)
Lemma C7_example_is_not_two :
  count_words "[link](http://x.com) hello world" <> 2%nat.
Proof. by vm_compute. Qed.

Lemma C7_count_words_links_and_urls_witness :
  count_words "http://x.com https://y.org/a?b=1" = 0%nat /\
  sub_from md_link group1 0
    (list_ascii_of_string "see [link](http://x.com) hello")
  = list_ascii_of_string "see link hello" /\
  sub_from url_pattern (const EmptyString) 0
    (list_ascii_of_string "https://x.com/a hello")
  = list_ascii_of_string " hello".
Proof.
  destruct C7_count_words_links_and_urls as (_ & Hmd & Hurl & Hnone & _).
  split; [|split].
  - apply Hnone.
    apply (urls_url (list_ascii_of_string "http://") (list_ascii_of_string "x.com")
             (list_ascii_of_string " https://y.org/a?b=1"));
      [by left | discriminate | repeat constructor; discriminate | reflexivity | ].
    apply urls_space; [reflexivity|].
    apply (urls_url (list_ascii_of_string "https://")
             (list_ascii_of_string "y.org/a?b=1") []);
      [by right | discriminate | repeat constructor; discriminate | exact I | ].
    apply urls_end.
  - apply (Hmd (list_ascii_of_string "see ") (list_ascii_of_string "link")
             (list_ascii_of_string "http://x.com") (list_ascii_of_string " hello"));
      [repeat constructor; discriminate
      | discriminate | repeat constructor; discriminate
      | discriminate | repeat constructor; discriminate].
  - apply (Hurl (list_ascii_of_string "https://") (list_ascii_of_string "x.com/a")
             (list_ascii_of_string " hello"));
      [by right | discriminate | by repeat constructor | reflexivity].
Defined.

(** Square brackets are what the side condition of [urls_only] is for: two
    matches of the URL pattern with a link opened in one and closed in the
    other leave a word behind. *)
Remark count_words_bracketed_urls :
  extract_urls "http://[ http://x](y)" = ["http://["; "http://x](y)"] /\
  count_words "http://[ http://x](y)" = 1%nat.
Proof. by vm_compute. Qed.

End AnalysisFacts.

(* ===================================================================== *)
(** * Further properties of the scoring engine *)
(* ===================================================================== *)

Section BoundsFacts.

Import Dict Winner.
Local Open Scope Q_scope.

Lemma py_min_le a b : py_min a b <= a /\ py_min a b <= b.
Proof.
  unfold py_min. destruct (Qlt_le_dec b a) as [H|H].
  - split; [by apply Qlt_le_weak|apply Qle_refl].
  - split; [apply Qle_refl|done].
Qed.

Lemma py_max_ge a b : a <= py_max a b /\ b <= py_max a b.
Proof.
  unfold py_max. destruct (Qlt_le_dec a b) as [H|H].
  - split; [by apply Qlt_le_weak|apply Qle_refl].
  - split; [apply Qle_refl|done].
Qed.

Lemma py_min_cases a b : py_min a b = a \/ py_min a b = b.
Proof. unfold py_min. destruct (Qlt_le_dec b a); auto. Qed.

Lemma py_max_cases a b : py_max a b = a \/ py_max a b = b.
Proof. unfold py_max. destruct (Qlt_le_dec a b); auto. Qed.

Lemma spans_first f r : spans f (mkMinMax (f r) (f r)) [r].
Proof.
  split; [|split].
  - intros r' Hr'. apply list_elem_of_singleton in Hr' as ->. simpl.
    split; apply Qle_refl.
  - exists r. split; [apply list_elem_of_here|done].
  - exists r. split; [apply list_elem_of_here|done].
Qed.

Lemma spans_widen f mm rs r :
  spans f mm rs -> spans f (widen mm (f r)) (rs ++ [r]).
Proof.
  intros (Hall & (r1 & Hr1 & Hmin) & (r2 & Hr2 & Hmax)).
  destruct (py_min_le (bmin mm) (f r)) as [Hm1 Hm2].
  destruct (py_max_ge (bmax mm) (f r)) as [HM1 HM2].
  split; [|split].
  - intros r' Hr'. simpl. apply elem_of_app in Hr' as [Hr'|Hr'].
    + destruct (Hall r' Hr') as [H1 H2]. split.
      * eapply Qle_trans; [exact Hm1|exact H1].
      * eapply Qle_trans; [exact H2|exact HM1].
    + apply list_elem_of_singleton in Hr' as ->. done.
  - simpl. destruct (py_min_cases (bmin mm) (f r)) as [-> | ->].
    + exists r1. split; [apply elem_of_app; by left|done].
    + exists r. split; [|done]. apply elem_of_app. right. apply list_elem_of_here.
  - simpl. destruct (py_max_cases (bmax mm) (f r)) as [-> | ->].
    + exists r2. split; [apply elem_of_app; by left|done].
    + exists r. split; [|done]. apply elem_of_app. right. apply list_elem_of_here.
Qed.

Lemma reader_cases (P : (Metrics -> Q) -> (Bounds -> MinMax) -> Prop) :
  P latency_ms b_latency_ms -> P cost_usd b_cost_usd ->
  P words_count b_words_count -> P accuracy b_accuracy ->
  P safety b_safety -> P factuality b_factuality ->
  forall f g, (f, g) ∈ metric_readers -> P f g.
Proof.
  intros H1 H2 H3 H4 H5 H6 f g Hin. unfold metric_readers in Hin.
  repeat (apply elem_of_cons in Hin as [[= -> ->]|Hin]; [assumption|]).
  by apply elem_of_nil in Hin.
Qed.

(** The scan of [find_bounds] over the records seen so far. *)
Lemma bounds_scan (rs seen : list Metrics) :
  forall b,
    (forall f g, (f, g) ∈ metric_readers -> spans f (g b) seen) ->
    exists b',
      fold_left bounds_step rs (Some b) = Some b' /\
      (forall f g, (f, g) ∈ metric_readers -> spans f (g b') (seen ++ rs)).
Proof.
  revert seen. induction rs as [|r rs IH]; intros seen b Hb.
  - exists b. rewrite app_nil_r. done.
  - destruct (IH (seen ++ [r])
      {| b_latency_ms  := widen (b_latency_ms b) (latency_ms r);
         b_cost_usd    := widen (b_cost_usd b) (cost_usd r);
         b_words_count := widen (b_words_count b) (words_count r);
         b_accuracy    := widen (b_accuracy b) (accuracy r);
         b_safety      := widen (b_safety b) (safety r);
         b_factuality  := widen (b_factuality b) (factuality r) |})
      as (b' & Hfold & Hspans).
    + apply reader_cases; simpl; apply spans_widen; apply Hb;
        unfold metric_readers;
        repeat first [apply list_elem_of_here | apply list_elem_of_further].
    + exists b'. split; [exact Hfold|].
      intros f g Hin. rewrite (cons_middle r seen rs), app_assoc. by apply Hspans.
Qed.

Lemma find_bounds_records (data : list (string * list Metrics)) :
  find_bounds data = fold_left bounds_step (all_records data) None.
Proof.
  unfold find_bounds, all_records. generalize (@None Bounds).
  induction data as [|[model rs] data IH]; intros ob; simpl; [done|].
  by rewrite fold_left_app, IH.
Qed.

Lemma normalize_value_unit (v mn mx : Q) :
  mn <= v -> v <= mx -> 0 <= normalize_value v mn mx /\ normalize_value v mn mx <= 1.
Proof.
  intros H1 H2. unfold normalize_value.
  destruct (Qeq_bool mx mn) eqn:E.
  - split; discriminate.
  - apply Qeq_bool_neq in E.
    assert (Hlt : 0 < mx - mn).
    { destruct (Qlt_le_dec mn mx) as [H|H]; [lra|].
      exfalso. apply E. apply Qle_antisym; [done|lra]. }
    split.
    + apply Qle_shift_div_l; [done|]. lra.
    + apply Qle_shift_div_r; [done|]. lra.
Qed.

(** With the weights of [find_winner] a record inside the bounds scores
    between 0 and 1. *)
Lemma record_score_unit (b : Bounds) (r : Metrics) :
  (forall f g, (f, g) ∈ metric_readers ->
     bmin (g b) <= f r /\ f r <= bmax (g b)) ->
  0 <= record_score b weights r /\ record_score b weights r <= 1.
Proof.
  intros H.
  assert (Hin : forall f g, (f, g) ∈ metric_readers ->
            0 <= normalize_value (f r) (bmin (g b)) (bmax (g b)) /\
            normalize_value (f r) (bmin (g b)) (bmax (g b)) <= 1).
  { intros f g Hfg. destruct (H f g Hfg). by apply normalize_value_unit. }
  assert (Hmem : forall x, x ∈ metric_readers -> x ∈ metric_readers) by done.
  unfold metric_readers in Hmem.
  destruct (Hin latency_ms b_latency_ms) as [L1 L2];
    [apply Hmem; repeat first [apply list_elem_of_here | apply list_elem_of_further]|].
  destruct (Hin cost_usd b_cost_usd) as [C1 C2];
    [apply Hmem; repeat first [apply list_elem_of_here | apply list_elem_of_further]|].
  destruct (Hin words_count b_words_count) as [W1 W2];
    [apply Hmem; repeat first [apply list_elem_of_here | apply list_elem_of_further]|].
  destruct (Hin accuracy b_accuracy) as [A1 A2];
    [apply Hmem; repeat first [apply list_elem_of_here | apply list_elem_of_further]|].
  destruct (Hin safety b_safety) as [S1 S2];
    [apply Hmem; repeat first [apply list_elem_of_here | apply list_elem_of_further]|].
  destruct (Hin factuality b_factuality) as [F1 F2];
    [apply Hmem; repeat first [apply list_elem_of_here | apply list_elem_of_further]|].
  unfold record_score, weights. simpl.
  set (nl := normalize_value (latency_ms r) _ _) in *.
  set (nc := normalize_value (cost_usd r) _ _) in *.
  set (nw := normalize_value (words_count r) _ _) in *.
  set (na := normalize_value (accuracy r) _ _) in *.
  set (ns := normalize_value (safety r) _ _) in *.
  set (nf := normalize_value (factuality r) _ _) in *.
  split; lra.
Qed.

Lemma Qsum_unit (xs : list Q) :
  Forall (fun x => 0 <= x /\ x <= 1) xs ->
  0 <= Qsum xs /\ Qsum xs <= inject_Z (Z.of_nat (length xs)).
Proof.
  induction 1 as [|x xs0 [H0 H1] _ [IH0 IH1]].
  - split; discriminate.
  - change (length (x :: xs0)) with (S (length xs0)).
    rewrite Nat2Z.inj_succ, <- Z.add_1_r, inject_Z_plus.
    change (inject_Z 1) with 1. simpl Qsum. split; lra.
Qed.

(** The mean of scores between 0 and 1 is between 0 and 1. *)
Lemma np_mean_unit (xs : list Q) (q : Q) :
  Forall (fun x => 0 <= x /\ x <= 1) xs -> np_mean xs = Num q ->
  0 <= q /\ q <= 1.
Proof.
  intros Hxs. destruct xs as [|x xs]; [discriminate|]. intros [= <-].
  destruct (Qsum_unit _ Hxs) as [H0 H1].
  assert (Hlen : 0 < inject_Z (Z.of_nat (length (x :: xs)))).
  { change 0 with (inject_Z 0). rewrite <- Zlt_Qlt. simpl length. lia. }
  change (Qsum (x :: xs)) with (x + Qsum xs) in *.
  change (length (x :: xs)) with (S (length xs)) in *.
  split.
  - apply Qle_shift_div_l; [done|]. lra.
  - apply Qle_shift_div_r; [done|]. lra.
Qed.

Lemma dict_set_elem {V : Type} (k k' : string) (v v' : V) (d : list (string * V)) :
  (k', v') ∈ dict_set k v d -> (k', v') = (k, v) \/ (k', v') ∈ d.
Proof.
  induction d as [|[k0 v0] d IH]; simpl.
  - intros H. apply list_elem_of_singleton in H. by left.
  - destruct (String.eqb k0 k).
    + intros H. apply elem_of_cons in H as [H|H]; [by left|].
      right. by apply list_elem_of_further.
    + intros H. apply elem_of_cons in H as [H|H].
      * right. rewrite H. apply list_elem_of_here.
      * destruct (IH H) as [?|?]; [by left|]. right. by apply list_elem_of_further.
Qed.

(** Every entry of a mapping filled by assignments comes from one of the
    assignments. *)
Lemma dict_fill_elem {A V : Type} (key : A -> string) (val : A -> V)
    (items : list A) :
  forall (acc : list (string * V)) k v,
    (k, v) ∈ fold_left (fun d x => dict_set (key x) (val x) d) items acc ->
    (k, v) ∈ acc \/ exists x, x ∈ items /\ k = key x /\ v = val x.
Proof.
  induction items as [|x items IH]; intros acc k v H; simpl in H; [by left|].
  apply IH in H as [H|(y & Hy & ? & ?)].
  - apply dict_set_elem in H as [[= -> ->]|H]; [|by left].
    right. exists x. split; [apply list_elem_of_here|done].
  - right. exists y. split; [by apply list_elem_of_further|done].
Qed.

Lemma all_records_elem (data : list (string * list Metrics)) entry r :
  entry ∈ data -> r ∈ snd entry -> r ∈ all_records data.
Proof.
  unfold all_records. induction data as [|e data IH]; intros He Hr.
  - by apply elem_of_nil in He.
  - rewrite fmap_cons. simpl. apply elem_of_app.
    apply elem_of_cons in He as [->|He]; [by left|right; by apply IH].
Qed.

Lemma model_scores_of_fill (data : list (string * list Metrics)) b ws :
  model_scores_of data b ws
  = fold_left (fun d (x : string * list Metrics) =>
                 dict_set (fst x) (calculate_model_score (snd x) b ws) d) data [].
Proof.
  unfold model_scores_of. generalize (@nil (string * pyfloat)).
  induction data as [|[model results] data IH]; intros acc; simpl; [done|].
  apply IH.
Qed.

Lemma dict_fill_nonempty {A V : Type} (key : A -> string) (val : A -> V)
    (items : list A) (acc : list (string * V)) :
  fold_left (fun d x => dict_set (key x) (val x) d) items acc = [] ->
  items = [] /\ acc = [].
Proof.
  revert acc. induction items as [|x items IH]; intros acc H; simpl in H; [done|].
  apply IH in H as [_ H]. destruct acc as [|[k v] acc]; [discriminate|].
  simpl in H. destruct (String.eqb k (key x)); discriminate.
Qed.

Lemma dict_fill_order {A V : Type} (key : A -> string) (val : A -> V)
    (items : list A) :
  NoDup (key <$> items) ->
  fold_left (fun d x => dict_set (key x) (val x) d) items []
  = (fun x => (key x, val x)) <$> items.
Proof.
  assert (Hgen : forall seen : list A,
    NoDup (key <$> (seen ++ items)) ->
    fold_left (fun d x => dict_set (key x) (val x) d) items
      ((fun x => (key x, val x)) <$> seen)
    = (fun x => (key x, val x)) <$> (seen ++ items)).
  { induction items as [|x items IH]; intros seen Hnd; simpl.
    - by rewrite app_nil_r.
    - replace (seen ++ x :: items) with ((seen ++ [x]) ++ items) in *
        by (by rewrite <- app_assoc).
      rewrite <- IH by done. f_equal.
      rewrite fmap_app. simpl. apply dict_set_new.
      rewrite <- list_fmap_compose.
      rewrite !fmap_app in Hnd. apply NoDup_app in Hnd as [Hnd _].
      apply NoDup_app in Hnd as (_ & Hnd & _).
      intros Hin. apply (Hnd (key x)); [done|]. simpl. apply list_elem_of_here. }
  intros Hnd. apply (Hgen []). exact Hnd.
Qed.

Lemma max_loop_elem best rest : max_loop best rest ∈ best :: rest.
Proof.
  revert best. induction rest as [|item rest IH]; intros best; simpl.
  - apply list_elem_of_here.
  - specialize (IH (if float_gt (snd item) (snd best) then item else best)).
    apply elem_of_cons in IH as [->|IH].
    + destruct (float_gt _ _);
        [apply list_elem_of_further, list_elem_of_here|apply list_elem_of_here].
    + by do 2 apply list_elem_of_further.
Qed.

Lemma bounds_span_records (data : list (string * list Metrics)) :
  (find_bounds data = None <-> all_records data = []) /\
  (forall b, find_bounds data = Some b ->
     forall f g, (f, g) ∈ metric_readers -> spans f (g b) (all_records data)).
Proof.
  rewrite find_bounds_records. destruct (all_records data) as [|r rs].
  - split; [done|]. discriminate.
  - simpl.
    destruct (bounds_scan rs [r]
      {| b_latency_ms  := mkMinMax (latency_ms r) (latency_ms r);
         b_cost_usd    := mkMinMax (cost_usd r) (cost_usd r);
         b_words_count := mkMinMax (words_count r) (words_count r);
         b_accuracy    := mkMinMax (accuracy r) (accuracy r);
         b_safety      := mkMinMax (safety r) (safety r);
         b_factuality  := mkMinMax (factuality r) (factuality r) |})
      as (b' & Hfold & Hspans).
    { apply reader_cases; simpl; apply spans_first. }
    rewrite Hfold. split; [split; discriminate|].
    intros b [= <-]. exact Hspans.
Qed.

(** X1. The bounds are missing exactly when the file has no record; otherwise,
    for each of the six metrics, no record lies outside them and both are
    the value of some record. *)
Theorem find_bounds_spans (data : list (string * list Metrics)) :
  (find_bounds data = None <-> all_records data = []) /\
  (forall b, find_bounds data = Some b ->
     forall f g, (f, g) ∈ metric_readers -> spans f (g b) (all_records data)).
Proof. apply bounds_span_records. Qed.

Lemma find_bounds_spans_witness :
  let r1 := mkMetrics 1200 0.0084 1800 4 5 3 in
  let r2 := mkMetrics 900 0.0120 2100 5 5 4 in
  exists b, find_bounds [("a", [r1]); ("b", [r2])]%string = Some b /\
            spans latency_ms (b_latency_ms b) [r1; r2].
Proof.
  intros r1 r2. eexists. split; [reflexivity|].
  apply (proj2 (find_bounds_spans [("a", [r1]); ("b", [r2])]%string) _ eq_refl
           latency_ms b_latency_ms).
  apply list_elem_of_here.
Defined.

(** X2. Every model score that [find_winner] reports as a number lies between
    0 and 1. *)
Theorem find_winner_scores_unit (data : list (string * list Metrics))
    (res : ContestResult) (model : string) (q : Q) :
  find_winner data = Some res ->
  (model, Num q) ∈ cr_model_scores res ->
  0 <= q /\ q <= 1.
Proof.
  unfold find_winner. intros Hres Hin.
  destruct (find_bounds data) as [b|] eqn:Hb.
  - destruct (winner_of _) as [w|]; [|discriminate]. injection Hres as <-.
    simpl in Hin. rewrite model_scores_of_fill in Hin.
    apply dict_fill_elem in Hin as [Hin|(entry & He & _ & Hq)];
      [by apply elem_of_nil in Hin|].
    symmetry in Hq. unfold calculate_model_score in Hq.
    apply np_mean_unit in Hq; [done|].
    apply Forall_forall. intros x Hx. apply list_elem_of_In in Hx.
    apply in_map_iff in Hx as (r & <- & Hr). apply list_elem_of_In in Hr.
    apply record_score_unit. intros f g Hfg.
    destruct (proj2 (bounds_span_records data) b Hb f g Hfg) as [Hall _].
    apply Hall. by eapply all_records_elem.
  - destruct (winner_of _) as [w|]; [|discriminate]. injection Hres as <-.
    simpl in Hin.
    apply (dict_fill_elem fst (fun _ => np_mean [])) in Hin
      as [Hin|(entry & _ & _ & Hq)]; [by apply elem_of_nil in Hin|discriminate].
Qed.

Lemma find_winner_scores_unit_witness :
  let r1 := mkMetrics 1200 0.0084 1800 4 5 3 in
  let r2 := mkMetrics 900 0.0120 2100 5 5 4 in
  exists res q,
    find_winner [("a", [r1]); ("b", [r2])]%string = Some res /\
    ("a"%string, Num q) ∈ cr_model_scores res /\
    0 <= q /\ q <= 1.
Proof.
  intros r1 r2. eexists _, _.
  split; [vm_compute; reflexivity|].
  split; [apply list_elem_of_here|].
  eapply (find_winner_scores_unit [("a", [r1]); ("b", [r2])]%string);
    [vm_compute; reflexivity|apply list_elem_of_here].
Defined.

(** X4. When all the records of the file have the same six metric values (one
    record in all, for instance), every record scores one half. *)
Theorem record_score_without_spread (data : list (string * list Metrics))
    (b : Bounds) (r : Metrics) :
  find_bounds data = Some b ->
  (forall f g r1 r2, (f, g) ∈ metric_readers ->
     r1 ∈ all_records data -> r2 ∈ all_records data -> f r1 == f r2) ->
  record_score b weights r == 0.5.
Proof.
  intros Hb Hsame.
  assert (Heq : forall f g, (f, g) ∈ metric_readers -> bmin (g b) == bmax (g b)).
  { intros f g Hfg.
    destruct (proj2 (bounds_span_records data) b Hb f g Hfg)
      as (_ & (r1 & Hr1 & <-) & (r2 & Hr2 & <-)).
    by apply (Hsame f g). }
  assert (Hmem : forall x, x ∈ metric_readers -> x ∈ metric_readers) by done.
  unfold metric_readers in Hmem.
  unfold record_score.
  rewrite !normalize_value_eq;
    [unfold weights; simpl; reflexivity|..];
    eapply Heq; apply Hmem;
    repeat first [apply list_elem_of_here | apply list_elem_of_further].
Qed.

Lemma record_score_without_spread_witness :
  let r := mkMetrics 1200 0.0084 1800 4 5 3 in
  calculate_model_score [r]
    (mkBounds (mkMinMax 1200 1200) (mkMinMax 0.0084 0.0084) (mkMinMax 1800 1800)
       (mkMinMax 4 4) (mkMinMax 5 5) (mkMinMax 3 3)) weights
  = Num (record_score
           (mkBounds (mkMinMax 1200 1200) (mkMinMax 0.0084 0.0084)
              (mkMinMax 1800 1800) (mkMinMax 4 4) (mkMinMax 5 5) (mkMinMax 3 3))
           weights r / 1) /\
  record_score
    (mkBounds (mkMinMax 1200 1200) (mkMinMax 0.0084 0.0084) (mkMinMax 1800 1800)
       (mkMinMax 4 4) (mkMinMax 5 5) (mkMinMax 3 3)) weights r == 0.5.
Proof.
  intros r. split; [reflexivity|].
  apply (record_score_without_spread [("a", [r])]%string _ r eq_refl).
  intros f g r1 r2 _ H1 H2.
  apply list_elem_of_singleton in H1 as ->.
  apply list_elem_of_singleton in H2 as ->. reflexivity.
Defined.

(** X5. [find_winner] fails exactly on a file without models.  Otherwise the
    winner it reports is an entry of the scores it reports, the bounds are
    those of [find_bounds], and the scores have one entry per model, in the
    order of the file. *)
Theorem find_winner_result (data : list (string * list Metrics)) :
  (find_winner data = None <-> data = []) /\
  (forall res, find_winner data = Some res ->
     cr_winner res ∈ cr_model_scores res /\
     cr_bounds res = find_bounds data /\
     cr_weights res = weights /\
     (NoDup (fst <$> data) -> fst <$> cr_model_scores res = fst <$> data)).
Proof.
  unfold find_winner.
  set (scores := match find_bounds data with
                 | Some b => model_scores_of data b weights
                 | None => _
                 end).
  assert (Hscores : exists val : string * list Metrics -> pyfloat,
    scores = fold_left (fun d x => dict_set (fst x) (val x) d) data []).
  { unfold scores. destruct (find_bounds data) as [b|].
    - eexists. apply model_scores_of_fill.
    - by exists (fun _ => np_mean []). }
  destruct Hscores as [val Hscores]. clearbody scores. subst scores.
  split.
  - split.
    + destruct (fold_left _ data []) as [|first rest] eqn:E; [|discriminate].
      intros _. by apply dict_fill_nonempty in E as [? _].
    + intros ->. reflexivity.
  - intros res Hres.
    destruct (fold_left _ data []) as [|first rest] eqn:E; [discriminate|].
    simpl in Hres. injection Hres as <-. simpl.
    split; [apply max_loop_elem|]. split; [done|]. split; [done|].
    intros Hnd. change (fst <$> first :: rest = fst <$> data).
    rewrite <- E, dict_fill_order by done.
    rewrite <- list_fmap_compose. done.
Qed.

Lemma find_winner_result_witness :
  let r1 := mkMetrics 1200 0.0084 1800 4 5 3 in
  let r2 := mkMetrics 900 0.0120 2100 5 5 4 in
  exists res,
    find_winner [("a", [r1]); ("b", [r2])]%string = Some res /\
    cr_winner res ∈ cr_model_scores res /\
    fst <$> cr_model_scores res = ["a"; "b"]%string.
Proof.
  intros r1 r2. eexists.
  split; [vm_compute; reflexivity|].
  destruct (proj2 (find_winner_result [("a", [r1]); ("b", [r2])]%string) _
              ltac:(vm_compute; reflexivity)) as (H1 & _ & _ & H2).
  split; [exact H1|]. apply H2. compute_done.
Defined.

End BoundsFacts.

(* ===================================================================== *)
(** * Further properties of the stages that fill a store *)
(* ===================================================================== *)

Section LoopMoreFacts.

Import Py.

Context {A S : Type}.

(** A loop whose iterations all finish and keep [P] finishes and keeps
    [P]. *)
Lemma for_each_total (P : S -> Prop) (Q : A -> Prop) (body : A -> S -> run S)
    (items : list A) :
  (forall x s, Q x -> P s -> exists s', body x s = Finished s' /\ P s') ->
  Forall Q items ->
  forall s, P s -> exists s', for_each body items s = Finished s' /\ P s'.
Proof.
  intros Hbody HQ. induction HQ as [|x items Hx _ IH]; intros s Hs; simpl.
  - by exists s.
  - destruct (Hbody x s Hx Hs) as (s1 & -> & Hs1). by apply IH.
Qed.

(** A loop that finishes has finished every iteration. *)
Lemma for_each_finished (Q : A -> Prop) (body : A -> S -> run S)
    (items : list A) :
  (forall x s s', body x s = Finished s' -> Q x) ->
  forall s s', for_each body items s = Finished s' -> Forall Q items.
Proof.
  intros Hbody. induction items as [|x items IH]; intros s s' H; [constructor|].
  simpl in H. destruct (body x s) as [s1|e s1] eqn:E; [|discriminate].
  constructor; [by eapply Hbody|by eapply IH].
Qed.

End LoopMoreFacts.

Section StoreMoreFacts.

Import Dict Store.

Context {R : Type} (rid : R -> string).
Implicit Types (l records : list R) (r record : R) (s store : list (string * list R)).

Lemma dict_get_None {V : Type} (k : string) (d : list (string * V)) :
  dict_get k d = None <-> k ∉ fst <$> d.
Proof.
  induction d as [|[k' v'] d IH]; simpl.
  - split; [intros _; apply not_elem_of_nil|done].
  - rewrite not_elem_of_cons. simpl.
    destruct (String.eqb k' k) eqn:E.
    + apply String.eqb_eq in E. split; [discriminate|]. intros [H _]. by subst.
    + apply String.eqb_neq in E. rewrite IH. split; [|tauto].
      intros H. split; [congruence|done].
Qed.

Lemma dict_get_last {V : Type} (k : string) (v : V) (d : list (string * V)) :
  k ∉ fst <$> d -> dict_get k (d ++ [(k, v)]) = Some v.
Proof.
  induction d as [|[k' v'] d IH]; simpl.
  - intros _. by rewrite String.eqb_refl.
  - rewrite not_elem_of_cons. simpl. intros [Hne Hd].
    assert (E : String.eqb k' k = false) by (apply String.eqb_neq; congruence).
    rewrite E. by apply IH.
Qed.

Lemma dict_set_last {V : Type} (k : string) (v v' : V) (d : list (string * V)) :
  k ∉ fst <$> d -> dict_set k v' (d ++ [(k, v)]) = d ++ [(k, v')].
Proof.
  induction d as [|[k0 v0] d IH]; simpl.
  - intros _. by rewrite String.eqb_refl.
  - rewrite not_elem_of_cons. simpl. intros [Hne Hd].
    assert (E : String.eqb k0 k = false) by (apply String.eqb_neq; congruence).
    rewrite E. by rewrite IH.
Qed.

Lemma filled_ensure model s : filled (ensure_model model s) = filled s.
Proof.
  unfold ensure_model. destruct (dict_get model s) eqn:E; [done|].
  apply dict_get_None in E. rewrite dict_set_new by done.
  unfold filled. rewrite List.filter_app. simpl. by rewrite app_nil_r.
Qed.

(** The merge keeps a property that the stored records and the new one
    have. *)
Lemma merge_record_Forall (P : R -> Prop) l r :
  Forall P l -> P r -> Forall P (merge_record rid l r).
Proof.
  intros Hl Hr. unfold merge_record.
  destruct (find_index rid (rid r) l 0).
  - by apply Forall_insert.
  - apply Forall_app. split; [done|by constructor].
Qed.

Lemma merge_fold_last model rs :
  forall l s,
    model ∉ fst <$> s -> NoDup (rid <$> (l ++ rs)) ->
    fold_left (fun st r => merge_model rid model r st) rs (s ++ [(model, l)])
    = s ++ [(model, l ++ rs)].
Proof.
  induction rs as [|r rs IH]; intros l s Hm Hnd; simpl.
  - by rewrite app_nil_r.
  - unfold merge_model at 2. rewrite dict_get_last by done.
    rewrite dict_set_last by done.
    rewrite merge_record_absent.
    + rewrite IH; [by rewrite <- app_assoc|done|by rewrite <- app_assoc].
    + rewrite fmap_app in Hnd. apply NoDup_app in Hnd as (_ & Hnd & _).
      intros Hin. apply (Hnd _ Hin). rewrite fmap_cons. apply list_elem_of_here.
Qed.

Lemma run_model_fresh model rs s :
  model ∉ fst <$> s -> NoDup (rid <$> rs) ->
  run_model rid model rs s = s ++ [(model, rs)].
Proof.
  intros Hm Hnd. unfold run_model, ensure_model.
  rewrite (proj2 (dict_get_None model s) Hm), dict_set_new by done.
  by rewrite merge_fold_last.
Qed.

(** From an empty store, a run over distinct models and distinct ids leaves
    exactly the records it produced, in the order it produced them. *)
Lemma run_stage_fresh (batch : list (string * list R)) :
  forall s,
    NoDup (fst <$> (s ++ batch)) ->
    Forall (fun entry => NoDup (rid <$> snd entry)) batch ->
    run_stage rid batch s = s ++ batch.
Proof.
  unfold run_stage.
  induction batch as [|[model rs] batch IH]; intros s Hnd Hids; simpl.
  - by rewrite app_nil_r.
  - apply Forall_cons_1 in Hids as [Hrs Hids]. simpl in Hrs.
    assert (Hm : model ∉ fst <$> s).
    { rewrite fmap_app in Hnd. apply NoDup_app in Hnd as (_ & Hnd & _).
      intros Hin. apply (Hnd _ Hin). rewrite fmap_cons. apply list_elem_of_here. }
    rewrite run_model_fresh by done.
    rewrite IH; [by rewrite <- app_assoc| |done].
    by rewrite <- app_assoc.
Qed.

End StoreMoreFacts.

Section GenerateMoreFacts.

Import Py Dict Generate.

Lemma generate_item_call env model in_rate out_rate wpt item (st : state) :
  generate_item env model (in_rate, out_rate, wpt) item st =
  match call_model env model wpt (user_instruction (p_title item) (p_keywords item)) with
  | inl e => Crashed e st
  | inr (text, None) => Crashed TypeError st
  | inr (text, Some usage) =>
      let record :=
        {| id := p_id item; title := p_title item; keywords := p_keywords item;
           prompt_tokens := u_prompt_tokens usage;
           completion_tokens := u_completion_tokens usage;
           total_tokens := u_prompt_tokens usage + u_completion_tokens usage;
           latency_ms := elapsed_ms env model (p_id item);
           cost_usd := round4 (compute_cost in_rate out_rate
                                 (u_prompt_tokens usage) (u_completion_tokens usage));
           response := text |} in
      let merged := Store.merge_model id model record (existing_results st) in
      Finished {| existing_results := merged; disk := Some merged |}
  end.
Proof. reflexivity. Qed.

Lemma generate_item_finished env model rates item (st st' : state) :
  generate_item env model rates item st = Finished st' ->
  returns_usage (call_model env model (snd rates)
                   (user_instruction (p_title item) (p_keywords item))) /\
  disk st' = Some (existing_results st') /\
  exists record,
    prompt_of record = item /\
    existing_results st'
    = Store.merge_model id model record (existing_results st).
Proof.
  destruct rates as [[in_rate out_rate] wpt]. rewrite generate_item_call. simpl.
  destruct (call_model _ _ _ _) as [e|[text [usage|]]]; try discriminate.
  intros [= <-]. split; [exact I|]. split; [reflexivity|].
  eexists. split; [|reflexivity]. by destruct item.
Qed.

Lemma generate_item_returns env model rates item (st : state) :
  returns_usage (call_model env model (snd rates)
                   (user_instruction (p_title item) (p_keywords item))) ->
  exists st', generate_item env model rates item st = Finished st'.
Proof.
  destruct rates as [[in_rate out_rate] wpt]. rewrite generate_item_call. simpl.
  destruct (call_model _ _ _ _) as [e|[text [usage|]]]; try done.
  intros _. by eexists.
Qed.

Lemma generate_item_final env model rates item (st : state) :
  Store.filled (existing_results st) = Store.filled (default [] (disk st)) ->
  Store.filled (existing_results (final_state (generate_item env model rates item st)))
  = Store.filled (default [] (disk (final_state (generate_item env model rates item st)))).
Proof.
  intros H. destruct rates as [[in_rate out_rate] wpt]. rewrite generate_item_call.
  destruct (call_model _ _ _ _) as [e|[text [usage|]]]; done.
Qed.

Lemma generate_items_records env model rates items :
  forall st st' : state,
    for_each (generate_item env model rates) items st = Finished st' ->
    exists records,
      prompt_of <$> records = items /\
      existing_results st'
      = fold_left (fun s r => Store.merge_model id model r s) records
          (existing_results st).
Proof.
  induction items as [|item items IH]; intros st st' H; simpl in H.
  - injection H as <-. by exists [].
  - destruct (generate_item env model rates item st) as [st1|e st1] eqn:E;
      [|discriminate].
    apply generate_item_finished in E as (_ & _ & record & Hid & Hst1).
    apply IH in H as (records & Hids & Hst').
    exists (record :: records). rewrite fmap_cons, Hid, Hids.
    split; [done|]. simpl. by rewrite Hst', Hst1.
Qed.

Lemma generate_main_records env pricing prompts found (st : state) :
  main env pricing prompts found = Finished st ->
  exists batch,
    (fun entry : string * list GenerationRecord =>
       (fst entry, prompt_of <$> snd entry)) <$> batch
    = (fun entry : string * (Q * Q * Q) => (fst entry, prompts)) <$> pricing /\
    existing_results st = Store.run_stage id batch (default [] found).
Proof.
  unfold main.
  assert (Hgen : forall (st0 st1 : state),
    for_each (generate_model env prompts) pricing st0 = Finished st1 ->
    exists batch,
      (fun entry : string * list GenerationRecord =>
         (fst entry, prompt_of <$> snd entry)) <$> batch
      = (fun entry : string * (Q * Q * Q) => (fst entry, prompts)) <$> pricing /\
      existing_results st1 = Store.run_stage id batch (existing_results st0)).
  { induction pricing as [|[model rates] pricing IH]; intros st0 st1 H; simpl in H.
    - injection H as <-. by exists [].
    - destruct (for_each _ prompts _) as [st2|e st2] eqn:E; [|discriminate].
      apply generate_items_records in E as (records & Hids & Hst2). simpl in Hst2.
      apply IH in H as (batch & Hb & Hst1).
      exists ((model, records) :: batch). split.
      + rewrite !fmap_cons. simpl. by rewrite Hids, Hb.
      + rewrite Hst1, Hst2. reflexivity. }
  intros H. apply Hgen in H as (batch & Hb & Hst). exists batch.
  split; [done|]. rewrite Hst. by destruct found.
Qed.

(** X6. However a run of the generation stage ends, the file on disk and the
    store in memory hold the same records: a record that was produced is
    never lost to a later failure (memory may hold, besides, the empty list
    of a model whose first prompt failed). *)
Theorem generate_main_persisted env pricing prompts found :
  Store.filled (existing_results (final_state (main env pricing prompts found)))
  = Store.filled
      (default [] (disk (final_state (main env pricing prompts found)))).
Proof.
  unfold main.
  apply (for_each_invariant
           (fun st => Store.filled (existing_results st)
                      = Store.filled (default [] (disk st)))).
  - intros [model rates] st Hst. unfold generate_model.
    apply (for_each_invariant
             (fun st => Store.filled (existing_results st)
                        = Store.filled (default [] (disk st)))).
    + intros item st0 Hst0. by apply generate_item_final.
    + simpl. by rewrite filled_ensure.
  - by destruct found.
Qed.

(** X7. The generation stage finishes exactly when every call, for every model
    of the pricing table and every prompt, comes back with a usage dict. *)
Theorem generate_main_finishes_iff env pricing prompts found :
  (exists st, main env pricing prompts found = Finished st) <->
  (forall model rates item,
     (model, rates) ∈ pricing -> item ∈ prompts ->
     returns_usage (call_model env model (snd rates)
                      (user_instruction (p_title item) (p_keywords item)))).
Proof.
  unfold main. split.
  - intros [st H] model rates item Hm Hi.
    apply (for_each_finished
             (fun entry : string * (Q * Q * Q) =>
                forall item, item ∈ prompts ->
                  returns_usage (call_model env (fst entry) (snd (snd entry))
                    (user_instruction (p_title item) (p_keywords item))))) in H.
    + rewrite Forall_forall in H. by apply (H (model, rates)).
    + intros [m r] s s' Hs item' Hi'. unfold generate_model in Hs.
      apply (for_each_finished
               (fun item => returns_usage (call_model env m (snd r)
                  (user_instruction (p_title item) (p_keywords item))))) in Hs.
      * rewrite Forall_forall in Hs. by apply Hs.
      * intros x s0 s1 Hx. by apply generate_item_finished in Hx as [? _].
  - intros H.
    destruct (for_each_total (fun _ : state => True)
                (fun entry : string * (Q * Q * Q) => entry ∈ pricing)
                (generate_model env prompts) pricing) with
      (s := {| existing_results := default [] found; disk := found |})
      as (st & Hst & _).
    + intros [m r] s Hm _. unfold generate_model.
      destruct (for_each_total (fun _ : state => True)
                  (fun item => item ∈ prompts)
                  (generate_item env m r) prompts) with
        (s := {| existing_results := Store.ensure_model m (existing_results s);
                 disk := disk s |})
        as (st & Hst & _).
      * intros item s0 Hi _.
        destruct (generate_item_returns env m r item s0 (H m r item Hm Hi))
          as [s1 Hs1]. by exists s1.
      * by apply Forall_forall.
      * done.
      * by exists st.
    + by apply Forall_forall.
    + done.
    + exists st. rewrite <- Hst. by destruct found.
Qed.

Lemma generate_main_finishes_iff_witness :
  exists st,
    main {| openai_does := fun _ _ => CreateRaises;
            gemini_does := fun _ _ => Responds (Some "An article."%string);
            elapsed_ms := fun _ _ => 1200 |} pricing prompts None = Finished st.
Proof.
  apply (proj2 (generate_main_finishes_iff _ pricing prompts None)).
  intros model rates item Hm Hi.
  apply list_elem_of_singleton in Hm. injection Hm as -> ->. exact I.
Defined.

Lemma fresh_generation_store env pricing prompts (st : state) :
  NoDup (fst <$> pricing) -> NoDup (p_id <$> prompts) ->
  main env pricing prompts None = Finished st ->
  (fun entry : string * list GenerationRecord =>
     (fst entry, prompt_of <$> snd entry)) <$> existing_results st
  = (fun entry : string * (Q * Q * Q) => (fst entry, prompts)) <$> pricing.
Proof.
  intros Hmodels Hids H.
  apply generate_main_records in H as (batch & Hb & Hst).
  rewrite Hst. simpl.
  rewrite (run_stage_fresh id batch []); [done| |].
  - simpl. apply (f_equal (fmap fst)) in Hb.
    rewrite <- !list_fmap_compose in Hb.
    change (fst <$> batch = fst <$> pricing) in Hb. by rewrite Hb.
  - apply Forall_forall. intros entry He.
    assert (Hp : prompt_of <$> snd entry = prompts).
    { apply (list_elem_of_fmap_2
               (fun entry : string * list GenerationRecord =>
                  (fst entry, prompt_of <$> snd entry))) in He.
      rewrite Hb in He. apply list_elem_of_fmap in He as (x & Hx & _).
      by injection Hx. }
    replace (id <$> snd entry) with (p_id <$> (prompt_of <$> snd entry))
      by (by rewrite <- list_fmap_compose).
    by rewrite Hp.
Qed.

(** X8. From no prior file, with distinct models and distinct prompt ids, a
    finished run stores for each model of the pricing table, in order, one
    record per prompt, in order, with the id, title and keywords of the
    prompt. *)
Theorem generate_main_fresh env pricing prompts (st : state) :
  NoDup (fst <$> pricing) -> NoDup (p_id <$> prompts) ->
  main env pricing prompts None = Finished st ->
  (fun entry : string * list GenerationRecord =>
     (fst entry, prompt_of <$> snd entry)) <$> existing_results st
  = (fun entry : string * (Q * Q * Q) => (fst entry, prompts)) <$> pricing.
Proof. apply fresh_generation_store. Qed.

Lemma generate_main_fresh_witness :
  let env := {| openai_does := fun _ _ => CreateRaises;
                gemini_does := fun _ _ => Responds (Some "An article."%string);
                elapsed_ms := fun _ _ => 1200 |} in
  (fun entry : string * list GenerationRecord =>
     (fst entry, prompt_of <$> snd entry))
    <$> existing_results (final_state (main env pricing prompts None))
  = [("gemini-2.5-flash-preview-05-20"%string, prompts)].
Proof.
  intros env.
  apply (generate_main_fresh env pricing prompts
           (final_state (main env pricing prompts None)));
    [compute_done | compute_done | by vm_compute].
Defined.

Local Open Scope Q_scope.

Lemma int_of_float_ge (w : Z) (x : Q) :
  (0 <= w)%Z -> inject_Z w <= x -> (w <= int_of_float x)%Z.
Proof.
  intros Hw Hx. unfold int_of_float.
  assert (Hn : (0 <= Qnum x)%Z).
  { assert (H0 : 0 <= x).
    { eapply Qle_trans; [|exact Hx]. change 0 with (inject_Z 0).
      by rewrite <- Zle_Qle. }
    unfold Qle in H0. simpl in H0. lia. }
  rewrite Z.quot_div_nonneg by lia.
  apply Qfloor_resp_le in Hx. rewrite Qfloor_Z in Hx.
  destruct x as [n d]. exact Hx.
Qed.

Lemma div_by_fraction_ge (a wpt : Q) :
  0 <= a -> 0 < wpt -> wpt <= 1 -> a <= a / wpt.
Proof. intros Ha H0 H1. apply Qle_shift_div_l; [done|]. nra. Qed.

(** X9. A call of [call_gemini] that returns has the text of the provider and
    token counts of at least 1 each, even for an empty text; with at most
    one word per token the counts are not below the word counts. *)
Theorem call_gemini_usage env model system_msg user_msg wpt text usage :
  call_gemini env model system_msg user_msg wpt = inr (text, usage) ->
  exists t u,
    text = Some t /\ usage = Some u /\
    gemini_does env model user_msg = Responds (Some t) /\
    (1 <= u_prompt_tokens u)%Z /\ (1 <= u_completion_tokens u)%Z /\
    u_total_tokens u = (u_prompt_tokens u + u_completion_tokens u)%Z /\
    (0 < wpt -> wpt <= 1 ->
     (word_len (join " " [system_msg; user_msg]) <= u_prompt_tokens u)%Z /\
     (word_len t <= u_completion_tokens u)%Z).
Proof.
  unfold call_gemini.
  destruct (gemini_does env model user_msg) as [|[t|]]; try discriminate.
  destruct (Qeq_bool wpt 0); [discriminate|].
  intros [= <- <-]. exists t. eexists. split; [done|]. split; [done|].
  split; [done|]. simpl. split; [lia|]. split; [lia|]. split; [done|].
  intros H0 H1. split.
  - etransitivity; [|apply Z.le_max_r].
    apply int_of_float_ge; [unfold word_len; lia|].
    apply div_by_fraction_ge; [|done..].
    change 0 with (inject_Z 0). rewrite <- Zle_Qle. unfold word_len. lia.
  - etransitivity; [|apply Z.le_max_r].
    apply int_of_float_ge; [unfold word_len; lia|].
    apply div_by_fraction_ge; [|done..].
    change 0 with (inject_Z 0). rewrite <- Zle_Qle. unfold word_len. lia.
Qed.

Lemma call_gemini_usage_witness :
  exists t u,
    Some EmptyString = Some t /\
    Some {| u_prompt_tokens := 27; u_completion_tokens := 1;
            u_total_tokens := 28 |} = Some u /\
    Responds (Some EmptyString) = Responds (Some t) /\
    (1 <= u_prompt_tokens u)%Z /\ (1 <= u_completion_tokens u)%Z /\
    u_total_tokens u = (u_prompt_tokens u + u_completion_tokens u)%Z /\
    (0 < 0.70 -> 0.70 <= 1 ->
     (word_len (join " " [system_instruction; "Write."%string])
      <= u_prompt_tokens u)%Z /\
     (word_len t <= u_completion_tokens u)%Z).
Proof.
  apply (call_gemini_usage
           {| openai_does := fun _ _ => CreateRaises;
              gemini_does := fun _ _ => Responds (Some EmptyString);
              elapsed_ms := fun _ _ => 1200%Z |}
           "gemini-2.5-flash-preview-05-20" system_instruction "Write." 0.70).
  vm_compute. reflexivity.
Defined.

End GenerateMoreFacts.

Section JudgeMoreFacts.

Import Py Dict Judge.
Local Open Scope string_scope.

Lemma dict_get_elem {V : Type} (k : string) (v : V) (d : list (string * V)) :
  dict_get k d = Some v -> (k, v) ∈ d.
Proof.
  induction d as [|[k' v'] d IH]; simpl; [discriminate|].
  destruct (String.eqb k' k) eqn:E.
  - apply String.eqb_eq in E. intros [= ->]. subst. apply list_elem_of_here.
  - intros H. apply list_elem_of_further. by apply IH.
Qed.

Lemma dict_set_Forall {V : Type} (P : string * V -> Prop) k v
    (d : list (string * V)) :
  Forall P d -> P (k, v) -> Forall P (dict_set k v d).
Proof.
  intros Hd Hv. induction Hd as [|[k' v'] d Hx Hd IH]; simpl.
  - by constructor.
  - destruct (String.eqb k' k); constructor; done.
Qed.

Lemma merge_model_Forall {R : Type} (rid : R -> string)
    (P : string -> R -> Prop) model r (s : list (string * list R)) :
  Forall (fun entry => Forall (P (fst entry)) (snd entry)) s -> P model r ->
  Forall (fun entry => Forall (P (fst entry)) (snd entry))
    (Store.merge_model rid model r s).
Proof.
  intros Hs Hr. unfold Store.merge_model.
  destruct (dict_get model s) as [records|] eqn:E; [|done].
  apply dict_set_Forall; [done|]. simpl.
  apply merge_record_Forall; [|done].
  apply dict_get_elem in E. rewrite Forall_forall in Hs. exact (Hs _ E).
Qed.

Lemma ensure_model_Forall {R : Type} (P : string -> R -> Prop) model
    (s : list (string * list R)) :
  Forall (fun entry => Forall (P (fst entry)) (snd entry)) s ->
  Forall (fun entry => Forall (P (fst entry)) (snd entry))
    (Store.ensure_model model s).
Proof.
  intros Hs. unfold Store.ensure_model.
  destruct (dict_get model s); [done|].
  apply dict_set_Forall; [done|]. by constructor.
Qed.

(** What the record literal of [judge_content] holds when it is built. *)
Lemma judgment_record_of_inr result analysis r :
  judgment_record_of result analysis = inr r ->
  analysis_of r = result /\
  dict_get "accuracy" analysis = Some (accuracy r) /\
  dict_get "safety" analysis = Some (safety r) /\
  dict_get "factuality" analysis = Some (factuality r) /\
  dict_get "tone" analysis = Some (tone r).
Proof.
  unfold judgment_record_of, subscript.
  destruct (dict_get "accuracy" analysis); [|discriminate].
  destruct (dict_get "safety" analysis); [|discriminate].
  destruct (dict_get "factuality" analysis); [|discriminate].
  destruct (dict_get "tone" analysis); [|discriminate].
  intros [= <-]. by destruct result.
Qed.

Lemma judgment_record_of_complete result analysis :
  complete analysis <-> exists r, judgment_record_of result analysis = inr r.
Proof.
  unfold complete. split.
  - intros H.
    apply Forall_cons_1 in H as [H1 H]. apply Forall_cons_1 in H as [H2 H].
    apply Forall_cons_1 in H as [H3 H]. apply Forall_cons_1 in H as [H4 _].
    unfold judgment_record_of, subscript.
    destruct (dict_get "accuracy" analysis); [|done].
    destruct (dict_get "safety" analysis); [|done].
    destruct (dict_get "factuality" analysis); [|done].
    destruct (dict_get "tone" analysis); [|done].
    by eexists.
  - intros [r H]. apply judgment_record_of_inr in H as (_ & H1 & H2 & H3 & H4).
    repeat constructor; congruence.
Qed.

Lemma judge_result_finished env model result (st st' : state) :
  judge_result env model result st = Finished st' ->
  complete (analyze env (analyzer_for model) (a_response result)) /\
  exists record,
    judgment_record_of result
      (analyze env (analyzer_for model) (a_response result)) = inr record /\
    existing_judgments st'
    = Store.merge_model id model record (existing_judgments st).
Proof.
  unfold judge_result.
  destruct (judgment_record_of result _) as [e|record] eqn:E; [discriminate|].
  intros [= <-]. split.
  - apply (judgment_record_of_complete result). by exists record.
  - by exists record.
Qed.

Lemma judge_result_returns env model result (st : state) :
  complete (analyze env (analyzer_for model) (a_response result)) ->
  exists st', judge_result env model result st = Finished st'.
Proof.
  intros H. apply (judgment_record_of_complete result) in H as [r H].
  unfold judge_result. rewrite H. by eexists.
Qed.

Lemma judge_result_final env model result (st : state) :
  Store.filled (existing_judgments st) = Store.filled (default [] (disk st)) ->
  Store.filled (existing_judgments (final_state (judge_result env model result st)))
  = Store.filled
      (default [] (disk (final_state (judge_result env model result st)))).
Proof.
  intros H. unfold judge_result.
  destruct (judgment_record_of result _); done.
Qed.

(** A property of the records that the stage builds holds of every record
    of the store, however the run ends. *)
Lemma judge_content_Forall (P : string -> JudgmentRecord -> Prop) env found data :
  (forall model result r,
     judgment_record_of result
       (analyze env (analyzer_for model) (a_response result)) = inr r ->
     P model r) ->
  Forall (fun entry => Forall (P (fst entry)) (snd entry)) (default [] found) ->
  Forall (fun entry => Forall (P (fst entry)) (snd entry))
    (existing_judgments (final_state (judge_content env found data))).
Proof.
  intros Hnew Hfound. unfold judge_content.
  apply (for_each_invariant
           (fun st => Forall (fun entry => Forall (P (fst entry)) (snd entry))
                        (existing_judgments st))).
  - intros [model results] st Hst. unfold judge_model.
    apply (for_each_invariant
             (fun st => Forall (fun entry => Forall (P (fst entry)) (snd entry))
                          (existing_judgments st))).
    + intros result st0 Hst0. unfold judge_result.
      destruct (judgment_record_of result _) as [e|r] eqn:E; [done|]. simpl.
      apply merge_model_Forall; [done|]. by eapply Hnew.
    + simpl. by apply ensure_model_Forall.
  - by destruct found.
Qed.

Lemma judge_results_records env model results :
  forall st st' : state,
    for_each (judge_result env model) results st = Finished st' ->
    exists records,
      analysis_of <$> records = results /\
      existing_judgments st'
      = fold_left (fun s r => Store.merge_model id model r s) records
          (existing_judgments st).
Proof.
  induction results as [|result results IH]; intros st st' H; simpl in H.
  - injection H as <-. by exists [].
  - destruct (judge_result env model result st) as [st1|e st1] eqn:E;
      [|discriminate].
    apply judge_result_finished in E as (_ & record & Hrec & Hst1).
    apply judgment_record_of_inr in Hrec as [Hid _].
    apply IH in H as (records & Hids & Hst').
    exists (record :: records). rewrite fmap_cons, Hid, Hids.
    split; [done|]. simpl. by rewrite Hst', Hst1.
Qed.

Lemma judge_content_records env found data (st : state) :
  judge_content env found data = Finished st ->
  exists batch,
    (fun entry : string * list JudgmentRecord =>
       (fst entry, analysis_of <$> snd entry)) <$> batch = data /\
    existing_judgments st = Store.run_stage id batch (default [] found).
Proof.
  unfold judge_content.
  assert (Hgen : forall (st0 st1 : state),
    for_each (judge_model env) data st0 = Finished st1 ->
    exists batch,
      (fun entry : string * list JudgmentRecord =>
         (fst entry, analysis_of <$> snd entry)) <$> batch = data /\
      existing_judgments st1 = Store.run_stage id batch (existing_judgments st0)).
  { induction data as [|[model results] data IH]; intros st0 st1 H; simpl in H.
    - injection H as <-. by exists [].
    - destruct (for_each _ results _) as [st2|e st2] eqn:E; [|discriminate].
      apply judge_results_records in E as (records & Hids & Hst2). simpl in Hst2.
      apply IH in H as (batch & Hb & Hst1).
      exists ((model, records) :: batch). split.
      + rewrite !fmap_cons. simpl. by rewrite Hids, Hb.
      + rewrite Hst1, Hst2. reflexivity. }
  intros H. apply Hgen in H as (batch & Hb & Hst). exists batch.
  split; [done|]. rewrite Hst. by destruct found.
Qed.

(** X11. However a run of the judge stage ends, and it can end at any record with
    a [KeyError], the file on disk and the store in memory hold the same
    records: a judgment that was made is on disk before the next record is
    judged. *)
Theorem judge_content_persisted env found data :
  Store.filled (existing_judgments (final_state (judge_content env found data)))
  = Store.filled
      (default [] (disk (final_state (judge_content env found data)))).
Proof.
  unfold judge_content.
  apply (for_each_invariant
           (fun st => Store.filled (existing_judgments st)
                      = Store.filled (default [] (disk st)))).
  - intros [model results] st Hst. unfold judge_model.
    apply (for_each_invariant
             (fun st => Store.filled (existing_judgments st)
                        = Store.filled (default [] (disk st)))).
    + intros result st0 Hst0. by apply judge_result_final.
    + simpl. by rewrite filled_ensure.
  - by destruct found.
Qed.

Lemma judge_stage_returns env found data :
  (exists st, judge_content env found data = Finished st) <->
  (forall model results result,
     (model, results) ∈ data -> result ∈ results ->
     complete (analyze env (analyzer_for model) (a_response result))).
Proof.
  unfold judge_content. split.
  - intros [st H] model results result Hm Hr.
    apply (for_each_finished
             (fun entry : string * list AnalysisRecord =>
                forall result, result ∈ snd entry ->
                  complete (analyze env (analyzer_for (fst entry))
                              (a_response result)))) in H.
    + rewrite Forall_forall in H. by apply (H (model, results)).
    + intros [m rs] s s' Hs result' Hr'. unfold judge_model in Hs.
      apply (for_each_finished
               (fun result => complete (analyze env (analyzer_for m)
                                          (a_response result)))) in Hs.
      * rewrite Forall_forall in Hs. by apply Hs.
      * intros x s0 s1 Hx. by apply judge_result_finished in Hx as [? _].
  - intros H.
    destruct (for_each_total (fun _ : state => True)
                (fun entry : string * list AnalysisRecord => entry ∈ data)
                (judge_model env) data) with
      (s := {| existing_judgments := default [] found; disk := found;
               calls := [] |})
      as (st & Hst & _).
    + intros [m rs] s Hm _. unfold judge_model.
      destruct (for_each_total (fun _ : state => True)
                  (fun result => result ∈ rs)
                  (judge_result env m) rs) with
        (s := {| existing_judgments :=
                   Store.ensure_model m (existing_judgments s);
                 disk := disk s; calls := calls s |})
        as (st & Hst & _).
      * intros result s0 Hr _.
        destruct (judge_result_returns env m result s0 (H m rs result Hm Hr))
          as [s1 Hs1]. by exists s1.
      * by apply Forall_forall.
      * done.
      * by exists st.
    + by apply Forall_forall.
    + done.
    + exists st. rewrite <- Hst. by destruct found.
Qed.

(** X12. The judge stage finishes exactly when the analysis of every article has
    the four keys [accuracy], [safety], [factuality] and [tone]; an analysis
    that lacks one stops the run. *)
Theorem judge_content_finishes_iff env found data :
  (exists st, judge_content env found data = Finished st) <->
  (forall model results result,
     (model, results) ∈ data -> result ∈ results ->
     complete (analyze env (analyzer_for model) (a_response result))).
Proof. apply judge_stage_returns. Qed.

Lemma judge_content_finishes_iff_witness :
  exists st,
    judge_content (fun _ _ => JRaises) None
      [("o4-mini",
        [{| a_id := "P1"; a_title := "5 Trends in AI-Assisted Learning";
            a_keywords := ["AI tutoring"]; a_prompt_tokens := 87;
            a_completion_tokens := 2400; a_total_tokens := 2487;
            a_latency_ms := 15321; a_cost_usd := 0.0084%Q;
            a_response := "An article."; a_words_count := 2;
            a_broken_links := [] |}])] = Finished st.
Proof.
  apply (proj2 (judge_content_finishes_iff _ None _)).
  intros model results result Hm Hr.
  apply list_elem_of_singleton in Hm. injection Hm as -> ->.
  repeat constructor; discriminate.
Defined.

Lemma fresh_judgment_store env data (st : state) :
  NoDup (fst <$> data) ->
  Forall (fun entry => NoDup (a_id <$> snd entry)) data ->
  judge_content env None data = Finished st ->
  (fun entry : string * list JudgmentRecord =>
     (fst entry, analysis_of <$> snd entry)) <$> existing_judgments st = data /\
  (forall model records r,
     (model, records) ∈ existing_judgments st -> r ∈ records ->
     judgment_record_of (analysis_of r)
       (analyze env (analyzer_for model) (response r)) = inr r).
Proof.
  intros Hmodels Hids H. split.
  - apply judge_content_records in H as (batch & Hb & Hst).
    rewrite Hst. simpl.
    rewrite (run_stage_fresh id batch []); [done| |].
    + simpl. rewrite <- Hb in Hmodels.
      rewrite <- list_fmap_compose in Hmodels. exact Hmodels.
    + apply Forall_forall. intros entry He.
      rewrite <- Hb in Hids. rewrite Forall_fmap, Forall_forall in Hids.
      specialize (Hids entry He). simpl in Hids.
      by rewrite <- list_fmap_compose in Hids.
  - intros model records r Hm Hr.
    pose proof (judge_content_Forall
                  (fun model r =>
                     judgment_record_of (analysis_of r)
                       (analyze env (analyzer_for model) (response r)) = inr r)
                  env None data) as HP.
    rewrite H in HP. simpl in HP.
    assert (Hall : Forall (fun entry : string * list JudgmentRecord =>
                     Forall (fun r =>
                       judgment_record_of (analysis_of r)
                         (analyze env (analyzer_for (fst entry)) (response r))
                       = inr r) (snd entry)) (existing_judgments st)).
    { apply HP; [|constructor].
      intros m result r0 Hr0.
      pose proof (judgment_record_of_inr _ _ _ Hr0) as [Ha _].
      rewrite Ha. replace (response r0) with (a_response result)
        by (by rewrite <- Ha). exact Hr0. }
    rewrite Forall_forall in Hall. specialize (Hall _ Hm). simpl in Hall.
    rewrite Forall_forall in Hall. by apply Hall.
Qed.



(** X14. With the judge down (every call raises, returns nothing or returns an
    empty text) the stage still finishes, and every record it stores has
    the scores 0 and the tone [unknown], which a reader of the file cannot
    tell from a real judgment of 0. *)
Theorem judge_content_down env data :
  (forall j text, judge_fails (env j text)) ->
  exists st,
    judge_content env None data = Finished st /\
    Forall (fun entry => Forall is_sentinel (snd entry)) (existing_judgments st).
Proof.
  intros Hdown.
  assert (Hs : forall j text, analyze env j text = sentinel).
  { intros j text. apply analyze_failure_sentinel.
    specialize (Hdown j text).
    destruct (env j text) as [| |[[|c t]|]]; simpl in Hdown; tauto. }
  destruct (proj2 (judge_stage_returns env None data)) as [st Hst].
  { intros model results result _ _. rewrite Hs.
    repeat constructor; discriminate. }
  exists st. split; [done|].
  pose proof (judge_content_Forall (fun _ r => is_sentinel r) env None data) as HP.
  rewrite Hst in HP. apply HP; [|constructor].
  intros model result r Hr. rewrite Hs in Hr.
  apply judgment_record_of_inr in Hr as (_ & H1 & H2 & H3 & H4).
  unfold is_sentinel. simpl in *. repeat split; congruence.
Qed.

Lemma judge_content_down_witness :
  exists st,
    judge_content (fun _ _ => JText (Some EmptyString)) None
      [("o4-mini",
        [{| a_id := "P1"; a_title := "5 Trends in AI-Assisted Learning";
            a_keywords := ["AI tutoring"]; a_prompt_tokens := 87;
            a_completion_tokens := 2400; a_total_tokens := 2487;
            a_latency_ms := 15321; a_cost_usd := 0.0084%Q;
            a_response := "An article."; a_words_count := 2;
            a_broken_links := [] |}])] = Finished st /\
    Forall (fun entry => Forall is_sentinel (snd entry)) (existing_judgments st).
Proof.
  apply judge_content_down. intros j text. exact I.
Defined.

Lemma parse_line_typed result line :
  Forall typed result -> Forall typed (parse_line result line).
Proof.
  intros H. unfold parse_line.
  destruct (contains_char ":" line); [|done].
  destruct (split_first ":" line) as [key value].
  destruct (bool_decide (lower (strip key) ∈ score_keys)) eqn:E.
  - apply bool_decide_eq_true in E.
    destruct (int_of_str (strip value)); by apply dict_set_Forall.
  - destruct (String.eqb (lower (strip key)) "tone") eqn:Et; [|done].
    apply String.eqb_eq in Et. by apply dict_set_Forall.
Qed.

Lemma analyze_typed env j text : Forall typed (analyze env j text).
Proof.
  assert (Hsent : Forall typed sentinel).
  { unfold sentinel, typed, score_keys. repeat constructor. }
  assert (Hparse : forall t, Forall typed (parse_analysis t)).
  { intros t. unfold parse_analysis, parse_analysis_try.
    destruct t as [[|c t]|]; try done.
    generalize (split_char "010" (strip (String c t))).
    assert (Hgen : forall lines acc,
              Forall typed acc -> Forall typed (fold_left parse_line lines acc)).
    { induction lines as [|line lines IH]; intros acc Hacc; simpl; [done|].
      by apply IH, parse_line_typed. }
    intros lines. apply Hgen. constructor. }
  unfold analyze, analyze_with_openai, analyze_with_gemini.
  destruct j; destruct (env _ text) as [| |t]; try done.
  destruct (truthy t); done.
Qed.

(** X15. Whatever the judge answers, an analysis has keys among [accuracy],
    [safety], [factuality] and [tone] only, an integer under each score key
    and a string under [tone]; so every record of a run that started from no
    prior file has integer scores and a string tone, however the run ends. *)
Theorem judge_content_typed env data :
  (forall j text, Forall typed (analyze env j text)) /\
  Forall (fun entry => Forall scored (snd entry))
    (existing_judgments (final_state (judge_content env None data))).
Proof.
  split; [intros j text; apply analyze_typed|].
  apply (judge_content_Forall (fun _ r => scored r)); [|constructor].
  intros model result r Hr.
  apply judgment_record_of_inr in Hr as (_ & H1 & H2 & H3 & H4).
  pose proof (analyze_typed env (analyzer_for model) (a_response result)) as Ht.
  rewrite Forall_forall in Ht.
  apply dict_get_elem, Ht in H1. apply dict_get_elem, Ht in H2.
  apply dict_get_elem, Ht in H3. apply dict_get_elem, Ht in H4.
  unfold typed, scored in *. simpl in *.
  destruct (accuracy r); [|discriminate].
  destruct (safety r); [|discriminate].
  destruct (factuality r); [|discriminate].
  destruct (tone r) as [n'|s].
  - exfalso. unfold score_keys in H4.
    repeat (apply elem_of_cons in H4 as [H4|H4]; [discriminate|]).
    by apply elem_of_nil in H4.
  - repeat split; by eexists.
Qed.

Lemma parse_line_key result line :
  parse_line result line
  = match line_key line with
    | Some key =>
        if bool_decide (key ∈ score_keys) || String.eqb key "tone"
        then dict_set key (line_value key line) result
        else result
    | None => result
    end.
Proof.
  unfold parse_line, line_key, line_value.
  destruct (contains_char ":" line); [|done].
  destruct (split_first ":" line) as [key value]. simpl.
  destruct (bool_decide (lower (strip key) ∈ score_keys)); simpl.
  - by destruct (int_of_str (strip value)).
  - by destruct (String.eqb (lower (strip key)) "tone").
Qed.

Lemma parse_line_get key result line :
  key ∈ ["accuracy"; "safety"; "factuality"; "tone"] ->
  dict_get key (parse_line result line)
  = if decide (line_key line = Some key) then Some (line_value key line)
    else dict_get key result.
Proof.
  intros Hkey. rewrite parse_line_key.
  destruct (line_key line) as [k|]; [|by destruct (decide _)].
  destruct (decide (Some k = Some key)) as [[= ->]|Hne].
  - assert (Hin : bool_decide (key ∈ score_keys) || String.eqb key "tone" = true).
    { unfold score_keys.
      repeat (apply elem_of_cons in Hkey as [->|Hkey]; [reflexivity|]).
      by apply elem_of_nil in Hkey. }
    rewrite Hin. apply dict_get_set_eq.
  - destruct (bool_decide (k ∈ score_keys) || String.eqb k "tone"); [|done].
    apply dict_get_set_ne. congruence.
Qed.

Lemma parse_lines_get key lines :
  key ∈ ["accuracy"; "safety"; "factuality"; "tone"] ->
  forall result,
    (Forall (fun l => line_key l <> Some key) lines ->
     dict_get key (fold_left parse_line lines result) = dict_get key result) /\
    (forall before line after,
       lines = (before ++ line :: after)%list ->
       line_key line = Some key ->
       Forall (fun l => line_key l <> Some key) after ->
       dict_get key (fold_left parse_line lines result)
       = Some (line_value key line)).
Proof.
  intros Hkey.
  assert (Hnone : forall lines result,
    Forall (fun l => line_key l <> Some key) lines ->
    dict_get key (fold_left parse_line lines result) = dict_get key result).
  { clear lines. intros lines result H. revert result.
    induction H as [|l lines Hl _ IH]; intros result; simpl; [done|].
    rewrite IH, parse_line_get by done. by destruct (decide _). }
  intros result. split; [apply Hnone|].
  intros before line after -> Hline Hafter.
  rewrite fold_left_app. simpl. rewrite Hnone by done.
  rewrite parse_line_get by done. by destruct (decide _).
Qed.

Lemma is_digit_not_space c : is_digit c = true -> isspace c = false.
Proof.
  destruct c as [b0 b1 b2 b3 b4 b5 b6 b7].
  destruct b0, b1, b2, b3, b4, b5, b6, b7; vm_compute; congruence.
Qed.

Lemma digit_count_space c s :
  isspace c = true -> digit_count (String c s) = digit_count s.
Proof.
  intros H. simpl. destruct (is_digit c) eqn:E; [|done].
  apply is_digit_not_space in E. congruence.
Qed.

Lemma digit_count_lstrip s : digit_count (lstrip s) = digit_count s.
Proof.
  induction s as [|c s IH]; [done|]. cbn [lstrip].
  destruct (isspace c) eqn:E; [|done]. by rewrite IH, digit_count_space.
Qed.

Lemma digit_count_rstrip s : digit_count (rstrip s) = digit_count s.
Proof.
  induction s as [|c s IH]; [done|]. cbn [rstrip].
  destruct (rstrip s) as [|c' r] eqn:E.
  - destruct (isspace c) eqn:Ec.
    + by rewrite digit_count_space, <- IH.
    + cbn [digit_count]. by rewrite <- IH.
  - cbn [digit_count] in *. by rewrite IH.
Qed.

Lemma digit_count_strip s : digit_count (strip s) = digit_count s.
Proof. unfold strip. by rewrite digit_count_rstrip, digit_count_lstrip. Qed.

(** X16. What an answer gives under a key: nothing when no line names the key,
    and otherwise the value of the last line that names it, where a line
    names the key written before its first colon, whatever its case and the
    whitespace around it.  Under a score key the value is the [int] of the
    text after the colon, whatever its size, and 0 when [int] refuses the
    text, as it does a text with more than 4300 digits. *)
Theorem parse_analysis_lines (c : ascii) (t key : string) :
  key ∈ ["accuracy"; "safety"; "factuality"; "tone"] ->
  let lines := split_char "010" (strip (String c t)) in
  (Forall (fun l => line_key l <> Some key) lines ->
   dict_get key (parse_analysis (Some (String c t))) = None) /\
  (forall before line after,
     lines = (before ++ line :: after)%list ->
     line_key line = Some key ->
     Forall (fun l => line_key l <> Some key) after ->
     dict_get key (parse_analysis (Some (String c t)))
     = Some (line_value key line)) /\
  (forall line,
     key ∈ score_keys ->
     (int_max_str_digits < digit_count (snd (split_first ":" line)))%nat ->
     line_value key line = VInt 0).
Proof.
  intros Hkey lines. unfold parse_analysis, parse_analysis_try.
  fold lines. destruct (parse_lines_get key lines Hkey []) as [Hnone Hlast].
  split; [exact Hnone|]. split; [exact Hlast|].
  intros line Hscore Hlong.
  unfold line_value. rewrite (bool_decide_eq_true_2 _ Hscore).
  unfold int_of_str. rewrite !digit_count_strip.
  apply Nat.ltb_lt in Hlong. by rewrite Hlong.
Qed.

Lemma parse_analysis_lines_witness :
  dict_get "accuracy"
    (parse_analysis
       (Some ("Accuracy: 8" ++ nl ++ "Tone: friendly" ++ nl ++
              " ACCURACY : 12 " ++ nl ++ "Safety: high")))
  = Some (VInt 12) /\
  dict_get "factuality"
    (parse_analysis
       (Some ("Accuracy: 8" ++ nl ++ "Tone: friendly" ++ nl ++
              " ACCURACY : 12 " ++ nl ++ "Safety: high")))
  = None.
Proof.
  split.
  - refine (proj1 (proj2 (parse_analysis_lines "A"
                     ("ccuracy: 8" ++ nl ++ "Tone: friendly" ++ nl ++
                      " ACCURACY : 12 " ++ nl ++ "Safety: high")
                     "accuracy" _))
              ["Accuracy: 8"; "Tone: friendly"] " ACCURACY : 12 "
              ["Safety: high"] _ _ _).
    + apply list_elem_of_here.
    + by vm_compute.
    + by vm_compute.
    + compute_done.
  - refine (proj1 (parse_analysis_lines "A"
                     ("ccuracy: 8" ++ nl ++ "Tone: friendly" ++ nl ++
                      " ACCURACY : 12 " ++ nl ++ "Safety: high")
                     "factuality" _) _).
    + do 2 apply list_elem_of_further. apply list_elem_of_here.
    + compute_done.
Defined.

(** C8. The judge is chosen across providers: content of a model whose
    identifier starts with "gemini" goes to the OpenAI judge, content of any
    other model to the Gemini judge.  This holds for every capability call
    a run of the judge stage makes and for every record: the record that a
    step of the run stores is built from the analysis that the other
    provider's judge gave of this record's response, it is merged into the
    store and the store is written; every record in the store at the end
    of a run, however the run ends, carries the scores of the other
    provider's judge on its own response when the records found at the
    start do; and a finished run from no prior file over distinct models
    and ids has stored every record of the analysis file. *)
Theorem C8_cross_provider_judge (env : judge_env)
    (found : option (list (string * list JudgmentRecord)))
    (data : list (string * list AnalysisRecord)) :
  (forall model, startswith model "gemini" = true ->
     analyzer_for model = OpenAIJudge) /\
  (forall model, startswith model "gemini" = false ->
     analyzer_for model = GeminiJudge) /\
  (forall model text,
     analyze env (analyzer_for model) text =
       if startswith model "gemini"
       then analyze_with_openai (env OpenAIJudge text)
       else analyze_with_gemini (env GeminiJudge text)) /\
  (forall model pid j,
     (model, pid, j) ∈ calls (final_state (judge_content env found data)) ->
     j = if startswith model "gemini" then OpenAIJudge else GeminiJudge) /\
  (forall model result (st st' : state),
     judge_result env model result st = Finished st' ->
     exists judgment_record,
       judgment_record_of result
         (if startswith model "gemini"
          then analyze_with_openai (env OpenAIJudge (a_response result))
          else analyze_with_gemini (env GeminiJudge (a_response result)))
       = inr judgment_record /\
       existing_judgments st'
       = Store.merge_model id model judgment_record (existing_judgments st) /\
       disk st' = Some (existing_judgments st')) /\
  (Forall (fun entry : string * list JudgmentRecord =>
             Forall (fun r =>
                       judgment_record_of (analysis_of r)
                         (if startswith (fst entry) "gemini"
                          then analyze_with_openai (env OpenAIJudge (response r))
                          else analyze_with_gemini (env GeminiJudge (response r)))
                       = inr r) (snd entry))
     (default [] found) ->
   Forall (fun entry : string * list JudgmentRecord =>
             Forall (fun r =>
                       judgment_record_of (analysis_of r)
                         (if startswith (fst entry) "gemini"
                          then analyze_with_openai (env OpenAIJudge (response r))
                          else analyze_with_gemini (env GeminiJudge (response r)))
                       = inr r) (snd entry))
     (existing_judgments (final_state (judge_content env found data)))) /\
  (forall st : state,
     NoDup (fst <$> data) ->
     Forall (fun entry => NoDup (a_id <$> snd entry)) data ->
     judge_content env None data = Finished st ->
     (fun entry : string * list JudgmentRecord =>
        (fst entry, analysis_of <$> snd entry)) <$> existing_judgments st
     = data).
Proof.
  assert (Hcross : forall model text,
    analyze env (analyzer_for model) text =
      if startswith model "gemini"
      then analyze_with_openai (env OpenAIJudge text)
      else analyze_with_gemini (env GeminiJudge text)).
  { intros model text. unfold analyzer_for.
    destruct (startswith model "gemini"); reflexivity. }
  split; [intros model H; unfold analyzer_for; by rewrite H|].
  split; [intros model H; unfold analyzer_for; by rewrite H|].
  split; [exact Hcross|].
  split; [|split; [|split]].
  - unfold judge_content.
    apply (for_each_invariant
             (fun st : state =>
                forall model pid j, (model, pid, j) ∈ calls st ->
                  j = if startswith model "gemini"
                      then OpenAIJudge else GeminiJudge)).
    + intros [model results] st Hst. unfold judge_model.
      apply (for_each_invariant
               (fun st : state =>
                  forall model pid j, (model, pid, j) ∈ calls st ->
                    j = if startswith model "gemini"
                        then OpenAIJudge else GeminiJudge)); [|exact Hst].
      intros result st' Hst' m pid j Hin.
      rewrite judge_result_calls in Hin.
      apply elem_of_cons in Hin as [Heq|Hin]; [|by eapply Hst'].
      injection Heq as -> -> ->. reflexivity.
    + intros model pid j Hin. simpl in Hin. by apply elem_of_nil in Hin.
  - intros model result st st'. unfold judge_result. rewrite Hcross.
    destruct (judgment_record_of result _) as [e|record]; [discriminate|].
    intros [= <-]. by exists record.
  - apply (judge_content_Forall
             (fun model r =>
                judgment_record_of (analysis_of r)
                  (if startswith model "gemini"
                   then analyze_with_openai (env OpenAIJudge (response r))
                   else analyze_with_gemini (env GeminiJudge (response r)))
                = inr r)).
    intros model result r Hr. rewrite Hcross in Hr.
    pose proof (judgment_record_of_inr _ _ _ Hr) as [Ha _].
    rewrite Ha. replace (response r) with (a_response result)
      by (by rewrite <- Ha). exact Hr.
  - intros st Hmodels Hids H.
    by destruct (fresh_judgment_store env data st Hmodels Hids H).
Qed.

Lemma C8_cross_provider_judge_witness :
  let env : judge_env :=
    fun j _ =>
      match j with
      | OpenAIJudge =>
          JText (Some ("Accuracy: 8" ++ nl ++ "Safety: 9" ++ nl ++
                       "Factuality: 7" ++ nl ++ "Tone: friendly"))
      | GeminiJudge =>
          JText (Some ("Accuracy: 3" ++ nl ++ "Safety: 4" ++ nl ++
                       "Factuality: 2" ++ nl ++ "Tone: dry"))
      end in
  let p1 := {| a_id := "P1"; a_title := "5 Trends in AI-Assisted Learning";
               a_keywords := ["AI tutoring"]; a_prompt_tokens := 87;
               a_completion_tokens := 2400; a_total_tokens := 2487;
               a_latency_ms := 15321; a_cost_usd := 0.0084%Q;
               a_response := "An article."; a_words_count := 2;
               a_broken_links := [] |} in
  let data := [("gemini-2.5-flash-preview-05-20", [p1]); ("o4-mini", [p1])] in
  analyzer_for "gemini-2.5-flash-preview-05-20" = OpenAIJudge /\
  analyzer_for "o4-mini" = GeminiJudge /\
  (fun entry : string * list JudgmentRecord =>
     (fst entry, analysis_of <$> snd entry))
    <$> existing_judgments (final_state (judge_content env None data)) = data /\
  (fun entry : string * list JudgmentRecord =>
     (fst entry, accuracy <$> snd entry))
    <$> existing_judgments (final_state (judge_content env None data))
  = [("gemini-2.5-flash-preview-05-20", [VInt 8]); ("o4-mini", [VInt 3])].
Proof.
  intros env p1 data.
  pose proof (C8_cross_provider_judge env None data)
    as (Hgemini & Hother & _ & _ & _ & _ & Hfresh).
  split; [by apply Hgemini|]. split; [by apply Hother|].
  split; [|by vm_compute].
  apply Hfresh; [compute_done | constructor; [compute_done|];
                 constructor; [compute_done | constructor] | by vm_compute].
Defined.

End JudgeMoreFacts.

Section AnalysisMoreFacts.

Import Py Regex Analysis.
Local Open Scope string_scope.

Lemma match_lit_inv x s cap m
    (k : list ascii -> option (list ascii) ->
         option (list ascii * option (list ascii))) :
  match_re (Lit x) s cap k = Some m -> exists s', s = x :: s' /\ k s' cap = Some m.
Proof.
  destruct s as [|c s]; simpl; [discriminate|].
  destruct (Ascii.eqb c x) eqn:E; [|discriminate].
  apply Ascii.eqb_eq in E. subst. intros H. by exists s.
Qed.

(** Every prefix of a subject splits into a run of characters of [p] and a
    rest that stops it. *)
Lemma span_class (p : ascii -> bool) (s : list ascii) :
  exists body rest,
    s = (body ++ rest)%list /\ Forall (fun c => p c = true) body /\ stops p rest.
Proof.
  induction s as [|c s (body & rest & -> & Hb & Hr)].
  - by exists [], [].
  - destruct (p c) eqn:E.
    + exists (c :: body), rest. split; [done|]. split; [by constructor|done].
    + exists [], (c :: body ++ rest)%list. split; [done|]. by split.
Qed.

(** Where the URL pattern matches, the subject starts with a scheme and at
    least one URL character, and the match takes the whole run of URL
    characters. *)
Lemma match_url_inv s rest cap :
  match_here url_pattern s = Some (rest, cap) ->
  exists scheme body,
    s = (scheme ++ body ++ rest)%list /\
    (scheme = list_ascii_of_string "http://" \/
     scheme = list_ascii_of_string "https://") /\
    body <> [] /\ Forall (fun c => url_char c = true) body /\
    stops url_char rest.
Proof.
  assert (Hplus : forall t,
    match_re (Plus url_piece) t None (fun s' cap' => Some (s', cap'))
    = Some (rest, cap) ->
    exists body, t = (body ++ rest)%list /\ body <> [] /\
      Forall (fun c => url_char c = true) body /\ stops url_char rest).
  { intros t H. destruct (span_class url_char t) as (body & rest' & -> & Hb & Hr).
    destruct body as [|c body].
    - cbn [match_re plus_loop app] in H. by rewrite url_piece_out in H.
    - rewrite match_plus_url_piece in H; [|done|done|done|by eexists].
      injection H as <- <-. by exists (c :: body). }
  assert (Htail : forall t,
    match_re (Seq (Lit ":") (Seq (Lit "/") (Seq (Lit "/") (Plus url_piece))))
      t None (fun s' cap' => Some (s', cap')) = Some (rest, cap) ->
    exists body, t = (list_ascii_of_string "://" ++ body ++ rest)%list /\
      body <> [] /\ Forall (fun c => url_char c = true) body /\
      stops url_char rest).
  { intros t H. rewrite match_seq in H.
    apply match_lit_inv in H as (t1 & -> & H). rewrite match_seq in H.
    apply match_lit_inv in H as (t2 & -> & H). rewrite match_seq in H.
    apply match_lit_inv in H as (t3 & -> & H).
    apply Hplus in H as (body & -> & H). by exists body. }
  unfold match_here, url_pattern. cbn [list_ascii_of_string lits].
  intros H. rewrite match_seq in H.
  apply match_lit_inv in H as (s1 & -> & H). rewrite match_seq in H.
  apply match_lit_inv in H as (s2 & -> & H). rewrite match_seq in H.
  apply match_lit_inv in H as (s3 & -> & H). rewrite match_seq in H.
  apply match_lit_inv in H as (s4 & -> & H). rewrite match_seq in H.
  cbn [match_re] in H.
  destruct s4 as [|c s4]; [discriminate|].
  destruct (one_of "s" c) eqn:Ec.
  - assert (c = "s"%char) as ->.
    { unfold one_of in Ec. simpl in Ec. rewrite orb_false_r in Ec.
      by apply Ascii.eqb_eq in Ec. }
    destruct (s4) as [|c' s5] eqn:E4; [discriminate|].
    destruct (Ascii.eqb c' ":") eqn:Ec'; [|discriminate].
    apply Ascii.eqb_eq in Ec'. subst c'.
    destruct (match s5 with [] => None | _ => _ end) eqn:E5.
    + injection H as ->.
      destruct (Htail (":"%char :: s5)) as (body & Ht & Hb).
      { rewrite !match_seq. rewrite match_lit. exact E5. }
      exists (list_ascii_of_string "https://"), body.
      split; [|split; [by right|done]].
      simpl in Ht. injection Ht as ->. reflexivity.
    + discriminate.
  - destruct (Htail (c :: s4)) as (body & Ht & Hb).
    { rewrite !match_seq. exact H. }
    exists (list_ascii_of_string "http://"), body.
    split; [|split; [by left|done]].
    rewrite Ht. reflexivity.
Qed.

Lemma findall_from_skip r (pre rest : list ascii) :
  findall_from r (length pre) (pre ++ rest) = findall_from r 0 rest.
Proof.
  induction pre as [|c pre IH]; simpl; [|exact IH].
  destruct rest; reflexivity.
Qed.

Lemma findall_from_sound (s : list ascii) :
  forall skip u,
    u ∈ findall_from url_pattern skip s ->
    exists before after scheme body,
      s = (before ++ u ++ after)%list /\ u = (scheme ++ body)%list /\
      (scheme = list_ascii_of_string "http://" \/
       scheme = list_ascii_of_string "https://") /\
      body <> [] /\ Forall (fun c => url_char c = true) body /\
      stops url_char after.
Proof.
  induction s as [|c s IH]; intros skip u Hu; simpl in Hu.
  - by apply elem_of_nil in Hu.
  - assert (Hlater : forall skip',
      u ∈ findall_from url_pattern skip' s ->
      exists before after scheme body,
        c :: s = (before ++ u ++ after)%list /\ u = (scheme ++ body)%list /\
        (scheme = list_ascii_of_string "http://" \/
         scheme = list_ascii_of_string "https://") /\
        body <> [] /\ Forall (fun c => url_char c = true) body /\
        stops url_char after).
    { intros skip' H.
      apply IH in H as (before & after & scheme & body & -> & H).
      by exists (c :: before), after, scheme, body. }
    destruct skip as [|skip]; [|by eapply Hlater].
    destruct (match_here url_pattern (c :: s)) as [[rest cap]|] eqn:E;
      [|by eapply Hlater].
    destruct (_ <? _)%nat; [|by eapply Hlater].
    apply elem_of_cons in Hu as [Hu|Hu]; [|by eapply Hlater].
    apply match_url_inv in E as (scheme & body & Hs & Hscheme & Hne & Hb & Hr).
    assert (Htake : u = (scheme ++ body)%list).
    { rewrite Hu.
      replace (S (length s)) with (length (scheme ++ body ++ rest))
        by (by rewrite <- Hs).
      rewrite Hs, app_assoc, length_app.
      replace (length (scheme ++ body) + length rest - length rest)%nat
        with (length (scheme ++ body)) by lia.
      by rewrite take_app_length. }
    exists [], rest, scheme, body. rewrite Hs, Htake.
    split; [by rewrite <- app_assoc|done].
Qed.

(** X17. Every URL that [extract_urls] returns is a piece of the text that starts
    with http:// or https://, goes on with at least one character of the
    URL class, and runs up to the end of the text or to a character outside
    the class: a full stop, a comma or a closing parenthesis after a URL is
    in the class and is taken as part of it. *)
Theorem extract_urls_sound (text url : string) :
  url ∈ extract_urls text ->
  exists before after scheme body : list ascii,
    list_ascii_of_string text
    = (before ++ list_ascii_of_string url ++ after)%list /\
    list_ascii_of_string url = (scheme ++ body)%list /\
    (scheme = list_ascii_of_string "http://" \/
     scheme = list_ascii_of_string "https://") /\
    body <> [] /\ Forall (fun c => url_char c = true) body /\
    stops url_char after /\
    url_char "." = true /\ url_char "," = true /\ url_char ")" = true.
Proof.
  unfold extract_urls. intros H.
  apply list_elem_of_fmap in H as (u & -> & Hu).
  apply findall_from_sound in Hu
    as (before & after & scheme & body & Hs & Hu & Hscheme & Hne & Hb & Hr).
  exists before, after, scheme, body.
  rewrite list_ascii_of_string_of_list_ascii. by repeat split.
Qed.

Lemma extract_urls_sound_witness :
  exists before after scheme body : list ascii,
    list_ascii_of_string "See [the docs](https://example.com/a)."
    = (before ++ list_ascii_of_string "https://example.com/a)." ++ after)%list /\
    list_ascii_of_string "https://example.com/a)." = (scheme ++ body)%list /\
    (scheme = list_ascii_of_string "http://" \/
     scheme = list_ascii_of_string "https://") /\
    body <> [] /\ Forall (fun c => url_char c = true) body /\
    stops url_char after /\
    url_char "." = true /\ url_char "," = true /\ url_char ")" = true.
Proof.
  apply (extract_urls_sound "See [the docs](https://example.com/a)."
           "https://example.com/a).").
  vm_compute. apply list_elem_of_here.
Defined.

(** Before the first occurrence of "http" the URL pattern matches
    nowhere. *)
Lemma match_url_before (pre scheme tail : list ascii) c :
  (forall a b, c :: pre <> (a ++ list_ascii_of_string "http" ++ b)%list) ->
  scheme = list_ascii_of_string "http://" \/
  scheme = list_ascii_of_string "https://" ->
  match_here url_pattern (c :: pre ++ scheme ++ tail) = None.
Proof.
  intros Hpre Hscheme.
  destruct (match_here url_pattern (c :: pre ++ scheme ++ tail))
    as [[rest cap]|] eqn:E; [|done].
  exfalso.
  apply match_url_inv in E as (scheme' & body & Hs & Hscheme' & _).
  assert (Hhttp : exists t,
            (c :: pre ++ scheme ++ tail = list_ascii_of_string "http" ++ t)%list).
  { rewrite Hs. destruct Hscheme' as [-> | ->]; by eexists. }
  destruct Hhttp as [t Ht]. simpl in Ht.
  destruct pre as [|c1 [|c2 [|c3 pre]]].
  - destruct Hscheme as [-> | ->]; discriminate.
  - destruct Hscheme as [-> | ->]; discriminate.
  - destruct Hscheme as [-> | ->]; discriminate.
  - injection Ht as -> -> -> -> _. by apply (Hpre [] pre).
Qed.

(** X18. The first URL of a text: with no "http" before it, the URL is returned
    with every character of the URL class that follows it, and the scan
    goes on after it. *)
Theorem extract_urls_first (pre scheme body rest : list ascii) :
  (forall a b, pre <> (a ++ list_ascii_of_string "http" ++ b)%list) ->
  scheme = list_ascii_of_string "http://" \/
  scheme = list_ascii_of_string "https://" ->
  body <> [] -> Forall (fun c => url_char c = true) body ->
  stops url_char rest ->
  extract_urls (string_of_list_ascii (pre ++ scheme ++ body ++ rest))
  = string_of_list_ascii (scheme ++ body)
    :: extract_urls (string_of_list_ascii rest).
Proof.
  intros Hpre Hscheme Hne Hbody Hstop. unfold extract_urls.
  rewrite !list_ascii_of_string_of_list_ascii. rewrite <- fmap_cons. f_equal.
  induction pre as [|c pre IH].
  - rewrite app_nil_l.
    assert (Hm : match_here url_pattern (scheme ++ body ++ rest)
                 = Some (rest, None)) by (by apply match_url).
    assert (Hs : exists c s, (scheme ++ body = c :: s)%list).
    { destruct Hscheme as [-> | ->]; by eexists _, _. }
    destruct Hs as (c & s & Hs). rewrite app_assoc, Hs in *.
    change ((c :: s) ++ rest)%list with (c :: (s ++ rest))%list in *.
    cbn [findall_from]. rewrite Hm.
    assert (Hlt : (length rest <? length (c :: s ++ rest))%nat = true).
    { apply Nat.ltb_lt. simpl. rewrite length_app. lia. }
    rewrite Hlt. f_equal.
    + replace (length (c :: s ++ rest) - length rest)%nat
        with (length (c :: s)) by (simpl; rewrite length_app; lia).
      apply (take_app_length (c :: s) rest).
    + replace (length (s ++ rest) - length rest)%nat with (length s)
        by (rewrite length_app; lia).
      apply findall_from_skip.
  - rewrite <- app_comm_cons. cbn [findall_from].
    rewrite match_url_before by done.
    apply IH. intros a b ->. by apply (Hpre (c :: a) b).
Qed.

Lemma extract_urls_first_witness :
  extract_urls "See [the docs](https://example.com/a), or ask."
  = ["https://example.com/a),"].
Proof.
  apply (extract_urls_first
           (list_ascii_of_string "See [the docs](")
           (list_ascii_of_string "https://")
           (list_ascii_of_string "example.com/a),")
           (list_ascii_of_string " or ask.")).
  - intros a b H.
    repeat (destruct a as [|? a]; [discriminate|];
            injection H as _ H).
    destruct a; discriminate.
  - by right.
  - discriminate.
  - by repeat constructor.
  - reflexivity.
Defined.

(** Without "://" the URL substitution changes nothing. *)
Lemma sub_url_none repl (s : list ascii) :
  (forall a b, s <> (a ++ list_ascii_of_string "://" ++ b)%list) ->
  sub_from url_pattern repl 0 s = s.
Proof.
  induction s as [|c s IH]; intros Hs; [reflexivity|].
  rewrite sub_from_no_match.
  - rewrite IH; [done|]. intros a b ->. by apply (Hs (c :: a) b).
  - destruct (match_here url_pattern (c :: s)) as [[rest cap]|] eqn:E; [|done].
    exfalso.
    apply match_url_inv in E as (scheme & body & Hcs & [-> | ->] & _).
    + by apply (Hs (list_ascii_of_string "http") (body ++ rest)%list).
    + by apply (Hs (list_ascii_of_string "https") (body ++ rest)%list).
Qed.

(** A substitution for a class of single characters works character by
    character. *)
Lemma sub_class (p : ascii -> bool) (x : ascii) (s : list ascii) :
  sub_from (Class p) (const (String x EmptyString)) 0 s
  = (fun c => if p c then x else c) <$> s.
Proof.
  induction s as [|c s IH]; [reflexivity|].
  rewrite fmap_cons. cbn [sub_from]. unfold match_here. cbn [match_re].
  destruct (p c).
  - assert (Hlt : (length s <? length (c :: s))%nat = true)
      by (apply Nat.ltb_lt; simpl; lia).
    rewrite Hlt. rewrite Nat.sub_diag. simpl. by rewrite IH.
  - by rewrite IH.
Qed.

Lemma sub_special_char (s : list ascii) :
  sub_from special_char (const " ") 0 s = blank <$> s.
Proof.
  unfold special_char. rewrite sub_class. apply list_fmap_ext.
  intros i c _. unfold blank. by destruct (word_char c || isspace c).
Qed.

(** The words that [split] closes when it meets whitespace. *)
Lemma split_ws_from_space cur c (s : list ascii) :
  isspace c = true ->
  split_ws_from cur (c :: s)
  = (match cur with [] => [] | _ :: _ => [rev cur] end ++ split_ws_from [] s)%list.
Proof. intros H. simpl. rewrite H. by destruct cur. Qed.

Lemma split_ws_from_cons cur c (s : list ascii) :
  split_ws_from cur (c :: s)
  = if isspace c then
      match cur with
      | [] => split_ws_from [] s
      | _ :: _ => rev cur :: split_ws_from [] s
      end
    else split_ws_from (c :: cur) s.
Proof. reflexivity. Qed.

Lemma split_ws_from_run cur (run rest : list ascii) :
  run <> [] -> Forall (fun c => isspace c = true) run ->
  split_ws_from cur (run ++ rest)
  = (match cur with [] => [] | _ :: _ => [rev cur] end
     ++ split_ws_from [] rest)%list.
Proof.
  intros Hne Hrun. revert cur.
  induction Hrun as [|c run Hc Hrun IH]; intros cur; [done|].
  rewrite <- app_comm_cons, split_ws_from_space by done.
  destruct run as [|c' run']; [done|].
  rewrite IH by done. reflexivity.
Qed.

(** Collapsing the runs of whitespace does not change the words. *)
Lemma split_ws_collapse (n : nat) :
  forall (s cur : list ascii),
    (length s <= n)%nat ->
    split_ws_from cur (sub_from whitespace_run (const " ") 0 s)
    = split_ws_from cur s.
Proof.
  induction n as [|n IH]; intros s cur Hn.
  - destruct s; [reflexivity|simpl in Hn; lia].
  - destruct s as [|c s]; [reflexivity|]. simpl in Hn.
    destruct (isspace c) eqn:Ec.
    + destruct (span_class isspace s) as (run & rest & -> & Hrun & Hrest).
      assert (Hm : match_here whitespace_run ((c :: run) ++ rest)
                   = Some (rest, None)).
      { unfold match_here, whitespace_run.
        apply match_plus_class_Some; [by constructor|done|done|done]. }
      rewrite app_comm_cons.
      rewrite (sub_from_match _ _ (c :: run) rest None) by done.
      change (const " " None) with [" "%char].
      change ([" "%char] ++ sub_from whitespace_run (const " ") 0 rest)%list
        with (" "%char :: sub_from whitespace_run (const " ") 0 rest).
      rewrite split_ws_from_space by reflexivity.
      rewrite split_ws_from_run; [|done|by constructor].
      rewrite IH; [done|]. rewrite length_app in Hn. lia.
    + rewrite sub_from_no_match.
      * simpl. rewrite Ec. apply IH. lia.
      * unfold match_here, whitespace_run. cbn [match_re plus_loop].
        by rewrite Ec.
Qed.

Lemma split_ws_lstrip (s : string) :
  split_ws_from [] (list_ascii_of_string (lstrip s))
  = split_ws_from [] (list_ascii_of_string s).
Proof.
  induction s as [|c s IH]; [reflexivity|]. simpl.
  destruct (isspace c) eqn:Ec; [exact IH|]. simpl. by rewrite Ec.
Qed.

Lemma split_ws_rstrip (s : string) :
  forall cur,
    split_ws_from cur (list_ascii_of_string (rstrip s))
    = split_ws_from cur (list_ascii_of_string s).
Proof.
  induction s as [|c s IH]; intros cur; [reflexivity|].
  cbn [rstrip]. destruct (rstrip s) as [|c' r] eqn:E.
  - destruct (isspace c) eqn:Ec.
    + cbn [list_ascii_of_string]. rewrite split_ws_from_space by done.
      rewrite <- IH. simpl. destruct cur; reflexivity.
    + cbn [list_ascii_of_string split_ws_from]. rewrite Ec.
      rewrite <- IH. reflexivity.
  - change (list_ascii_of_string (String c (String c' r)))
      with (c :: list_ascii_of_string (String c' r)).
    change (list_ascii_of_string (String c s)) with (c :: list_ascii_of_string s).
    rewrite (split_ws_from_cons cur c (list_ascii_of_string (String c' r))).
    rewrite (split_ws_from_cons cur c (list_ascii_of_string s)).
    destruct (isspace c); [destruct cur|]; by rewrite IH.
Qed.

(** The last two steps of [count_words], collapsing whitespace and
    stripping, do not change the count. *)
Lemma count_collapsed (l : list ascii) :
  length (split_ws (strip (sub whitespace_run (const " ")
            (string_of_list_ascii l))))
  = length (split_ws_from [] l).
Proof.
  unfold split_ws, strip, sub. rewrite length_fmap.
  rewrite split_ws_rstrip, split_ws_lstrip.
  rewrite !list_ascii_of_string_of_list_ascii.
  by rewrite (split_ws_collapse (length l)).
Qed.

(** X19. In a text without an opening square bracket and without "://", where
    there is no link and no URL to remove, [count_words] counts the maximal
    runs of letters, digits and underscores: every other character that is
    not whitespace separates words like a space, so an apostrophe, a hyphen
    or a decimal point splits a word in two.  In a text of word characters
    and whitespace only, that is the number of words of [text.split()]. *)
Theorem count_words_runs (text : string) :
  Forall (fun c => c <> "["%char) (list_ascii_of_string text) ->
  (forall a b,
     list_ascii_of_string text <> (a ++ list_ascii_of_string "://" ++ b)%list) ->
  count_words text
  = length (split_ws (string_of_list_ascii (blank <$> list_ascii_of_string text)))
  /\ (Forall (fun c => word_char c || isspace c = true)
        (list_ascii_of_string text) ->
      count_words text = length (split_ws text)).
Proof.
  intros Hbracket Hurl.
  assert (Hcount : count_words text
                   = length (split_ws_from [] (blank <$> list_ascii_of_string text))).
  { unfold count_words.
    unfold sub at 4. rewrite sub_md_link_no_bracket by done.
    rewrite string_of_list_ascii_of_string.
    unfold sub at 3. rewrite sub_url_none by done.
    rewrite string_of_list_ascii_of_string.
    unfold sub at 2. rewrite sub_special_char.
    apply count_collapsed. }
  split.
  - rewrite Hcount. unfold split_ws.
    by rewrite length_fmap, list_ascii_of_string_of_list_ascii.
  - intros Hplain. rewrite Hcount. unfold split_ws. rewrite length_fmap.
    f_equal. f_equal. rewrite <- (list_fmap_id (list_ascii_of_string text)) at 2.
    apply list_fmap_ext. intros i c Hc.
    rewrite Forall_forall in Hplain.
    apply list_elem_of_lookup_2 in Hc. apply Hplain in Hc.
    unfold blank. by rewrite Hc.
Qed.

Lemma count_words_runs_witness :
  count_words "It's a well-known fact: pi is 3.14"
  = length (split_ws "It s a well known fact  pi is 3 14").
Proof.
  refine (proj1 (count_words_runs "It's a well-known fact: pi is 3.14" _ _)).
  - repeat constructor; discriminate.
  - intros a b H.
    repeat (destruct a as [|? a]; [discriminate|];
            injection H as _ H).
    destruct a; discriminate.
Defined.

End AnalysisMoreFacts.

Section ContentAnalysisFacts.

Import Py Dict Analysis ContentAnalysis.

Lemma check_url_valid out u r :
  check_url out u = inr r -> url r = u /\ valid r = works out.
Proof. destruct out; simpl; [|by intros [= <-]..]; by intros [= <-]. Qed.

(** The broken links among the results of the probes. *)
Lemma check_urls_broken probe (urls : list string) :
  forall position url_results,
    check_urls probe position urls = inr url_results ->
    forall u,
      u ∈ url <$> List.filter (fun r => negb (valid r)) url_results <->
      exists i, urls !! i = Some u /\ works (probe (position + i)%nat u) = false.
Proof.
  induction urls as [|u0 urls IH]; intros position url_results H u; simpl in H.
  - injection H as <-. simpl. split.
    + intros Hin. by apply elem_of_nil in Hin.
    + by intros (i & Hi & _).
  - destruct (check_url (probe position u0) u0) as [e|r] eqn:E; [discriminate|].
    destruct (check_urls probe (S position) urls) as [e|rs] eqn:Ers;
      [discriminate|].
    injection H as <-. apply check_url_valid in E as [Hu Hv].
    specialize (IH _ _ Ers u). simpl. split.
    + intros Hin.
      assert (Hcase : (u = u0 /\ works (probe position u0) = false) \/
                u ∈ url <$> List.filter (fun r => negb (valid r)) rs).
      { destruct (valid r) eqn:Er; simpl in Hin; [by right|].
        apply elem_of_cons in Hin as [->|Hin]; [|by right].
        left. split; [done|]. by rewrite <- Hv. }
      destruct Hcase as [[-> Hw]|Hin'].
      * exists 0%nat. by rewrite Nat.add_0_r.
      * apply IH in Hin' as (i & Hi & Hw). exists (S i).
        split; [done|]. by rewrite Nat.add_succ_r.
    + intros (i & Hi & Hw). destruct i as [|i].
      * simpl in Hi. injection Hi as ->. rewrite Nat.add_0_r in Hw.
        rewrite <- Hv in Hw. rewrite Hw. simpl. rewrite Hu.
        apply list_elem_of_here.
      * simpl in Hi. rewrite Nat.add_succ_r in Hw.
        assert (Hin : u ∈ url <$> List.filter (fun r => negb (valid r)) rs)
          by (apply IH; by exists i).
        destruct (negb (valid r)); [|done].
        rewrite fmap_cons. by apply list_elem_of_further.
Qed.

Lemma check_urls_returns probe (urls : list string) :
  forall position,
    (exists url_results, check_urls probe position urls = inr url_results) <->
    (forall i u e, urls !! i = Some u ->
       probe (position + i)%nat u <> HeadFails e).
Proof.
  induction urls as [|u0 urls IH]; intros position; simpl.
  - split; [intros _ i u e Hi; done|intros _; by eexists].
  - split.
    + intros [rs H] i u e Hi.
      destruct (check_url (probe position u0) u0) as [e'|r] eqn:E;
        [discriminate|].
      destruct (check_urls probe (S position) urls) as [e'|rs'] eqn:Ers;
        [discriminate|].
      destruct i as [|i].
      * simpl in Hi. injection Hi as <-. rewrite Nat.add_0_r.
        intros Hf. rewrite Hf in E. discriminate.
      * simpl in Hi. rewrite Nat.add_succ_r.
        apply (proj1 (IH (S position))); [by eexists|done].
    + intros H.
      destruct (check_url (probe position u0) u0) as [e'|r] eqn:E.
      * exfalso. specialize (H 0%nat u0 e' eq_refl).
        rewrite Nat.add_0_r in H. destruct (probe position u0); try discriminate.
        simpl in E. injection E as ->. done.
      * destruct (proj2 (IH (S position))) as [rs Hrs].
        { intros i u e Hi. specialize (H (S i) u e Hi).
          by rewrite Nat.add_succ_r in H. }
        rewrite Hrs. by eexists.
Qed.

Lemma analyze_result_inr env model result r :
  analyze_result env model result = inr r ->
  generation_of r = result /\
  Judge.a_words_count r = Z.of_nat (count_words (Judge.a_response r)) /\
  forall u,
    u ∈ Judge.a_broken_links r <->
    exists i,
      extract_urls (Judge.a_response r) !! i = Some u /\
      works (env model (Judge.a_id r) i u) = false.
Proof.
  unfold analyze_result.
  destruct (Generate.response result) as [text|] eqn:Et; [|discriminate].
  destruct (check_urls _ 0 _) as [e|rs] eqn:E; [discriminate|].
  intros [= <-]. simpl. split; [|split; [done|]].
  - destruct result. simpl in *. by subst.
  - intros u. apply (check_urls_broken _ _ 0%nat _ E).
Qed.

Lemma analyze_result_returns env model result :
  (exists r, analyze_result env model result = inr r) <->
  (exists text,
     Generate.response result = Some text /\
     forall i u e, extract_urls text !! i = Some u ->
       env model (Generate.id result) i u <> HeadFails e).
Proof.
  unfold analyze_result.
  destruct (Generate.response result) as [text|].
  - pose proof (check_urls_returns (env model (Generate.id result))
                  (extract_urls text) 0%nat) as H. simpl in H.
    destruct (check_urls _ 0 _) as [e|rs].
    + split.
      * intros [r Hr]. discriminate.
      * intros (text' & [= <-] & Hp). apply H in Hp as [rs' Hrs']. discriminate.
    + split; [|by eexists]. intros _. exists text. split; [done|].
      apply H. by eexists.
  - split; [by intros [r Hr]|by intros (text & Ht & _)].
Qed.

Lemma analyze_results_inr env model results :
  forall records,
    analyze_results env model results = inr records ->
    Forall2 (fun result r => analyze_result env model result = inr r)
      results records.
Proof.
  induction results as [|result results IH]; intros records H; simpl in H.
  - injection H as <-. constructor.
  - destruct (analyze_result env model result) as [e|r] eqn:E; [discriminate|].
    destruct (analyze_results env model results) as [e|rs]; [discriminate|].
    injection H as <-. constructor; [done|by apply IH].
Qed.

Lemma analyze_content_inr env data :
  forall analyzed,
    analyze_content env data = inr analyzed ->
    Forall2 (fun entry out =>
               fst out = fst entry /\
               Forall2 (fun result r =>
                          analyze_result env (fst entry) result = inr r)
                 (snd entry) (snd out))
      data analyzed.
Proof.
  induction data as [|[model results] data IH]; intros analyzed H; simpl in H.
  - injection H as <-. constructor.
  - destruct (analyze_results env model results) as [e|records] eqn:E;
      [discriminate|].
    destruct (analyze_content env data) as [e|rest]; [discriminate|].
    injection H as <-. constructor; [|by apply IH].
    split; [done|]. by apply analyze_results_inr.
Qed.

Lemma analyze_content_generation env data analyzed :
  analyze_content env data = inr analyzed ->
  (fun entry : string * list Judge.AnalysisRecord =>
     (fst entry, generation_of <$> snd entry)) <$> analyzed = data.
Proof.
  intros H. apply analyze_content_inr in H.
  induction H as [|[model results] [model' records] data analyzed
                    [Hm Hrs] _ IH]; [done|].
  rewrite fmap_cons, IH. simpl in *. subst model'. do 2 f_equal.
  induction Hrs as [|result r results records Hr _ IHr]; [done|].
  rewrite fmap_cons, IHr. f_equal. by apply analyze_result_inr in Hr as [? _].
Qed.

Lemma analyze_content_records env data analyzed :
  analyze_content env data = inr analyzed ->
  (fun entry : string * list Judge.AnalysisRecord =>
     (fst entry, generation_of <$> snd entry)) <$> analyzed = data /\
  (forall model records r,
     (model, records) ∈ analyzed -> r ∈ records ->
     Judge.a_words_count r = Z.of_nat (count_words (Judge.a_response r)) /\
     forall u,
       u ∈ Judge.a_broken_links r <->
       exists i,
         extract_urls (Judge.a_response r) !! i = Some u /\
         works (env model (Judge.a_id r) i u) = false).
Proof.
  intros H. split; [by eapply analyze_content_generation|].
  intros model records r Hm Hr.
  apply analyze_content_inr in H.
  apply list_elem_of_lookup_1 in Hm as [i Hi].
  destruct (Forall2_lookup_r _ _ _ i (model, records) H Hi)
    as ([model' results] & _ & Heq & Hrs). simpl in *. subst model'.
  apply list_elem_of_lookup_1 in Hr as [j Hj].
  destruct (Forall2_lookup_r _ _ _ j r Hrs Hj) as (result & _ & Hres).
  by apply analyze_result_inr in Hres as [_ ?].
Qed.

(** X20. What the analysis stage writes: the costs file with its models, its
    records and their nine keys as they were, in the same order, each
    record with the word count of its response and, as broken links, the
    URLs of its response whose probe raised or gave a status outside 200 to
    399; a URL that is there more than once is probed each time. *)
Theorem analyze_content_result env data analyzed :
  analyze_content env data = inr analyzed ->
  (fun entry : string * list Judge.AnalysisRecord =>
     (fst entry, generation_of <$> snd entry)) <$> analyzed = data /\
  (forall model records r,
     (model, records) ∈ analyzed -> r ∈ records ->
     Judge.a_words_count r = Z.of_nat (count_words (Judge.a_response r)) /\
     forall u,
       u ∈ Judge.a_broken_links r <->
       exists i,
         extract_urls (Judge.a_response r) !! i = Some u /\
         works (env model (Judge.a_id r) i u) = false).
Proof. apply analyze_content_records. Qed.

Lemma analyze_content_result_witness :
  let record :=
    {| Generate.id := "P1"; Generate.title := "5 Trends in AI-Assisted Learning";
       Generate.keywords := ["AI tutoring"]; Generate.prompt_tokens := 27;
       Generate.completion_tokens := 11; Generate.total_tokens := 38;
       Generate.latency_ms := 1200; Generate.cost_usd := 0%Q;
       Generate.response :=
         Some "Read [the docs](https://example.com/a) and http://example.org now" |}%string in
  let env : probe_env :=
    fun _ _ i _ => if (i =? 0)%nat then HeadStatus 404 else HeadStatus 200 in
  match analyze_content env [("o4-mini"%string, [record])] with
  | inr analyzed =>
      (fun entry : string * list Judge.AnalysisRecord =>
         (fst entry, generation_of <$> snd entry)) <$> analyzed
      = [("o4-mini"%string, [record])]
  | inl _ => False
  end.
Proof.
  intros record env.
  destruct (analyze_content env [("o4-mini"%string, [record])])
    as [e|analyzed] eqn:E; [vm_compute in E; discriminate|].
  exact (proj1 (analyze_content_result env _ analyzed E)).
Defined.

Lemma analyze_results_returns env model results :
  (exists records, analyze_results env model results = inr records) <->
  Forall (fun result => exists r, analyze_result env model result = inr r)
    results.
Proof.
  induction results as [|result results IH]; simpl.
  - split; [constructor|by eexists].
  - destruct (analyze_result env model result) as [e|r] eqn:E.
    + split; [by intros [? ?]|].
      intros H. apply Forall_cons_1 in H as [[r Hr] _]. congruence.
    + destruct (analyze_results env model results) as [e|rs].
      * split; [by intros [? ?]|].
        intros H. apply Forall_cons_1 in H as [_ H].
        apply IH in H as [? ?]. discriminate.
      * split; [|by eexists]. intros _.
        constructor; [by eexists|]. apply IH. by eexists.
Qed.

Lemma analyze_content_returns env data :
  (exists analyzed, analyze_content env data = inr analyzed) <->
  Forall (fun entry : string * list Generate.GenerationRecord =>
            Forall (fun result =>
                      exists r, analyze_result env (fst entry) result = inr r)
              (snd entry)) data.
Proof.
  induction data as [|[model results] data IH]; simpl.
  - split; [constructor|by eexists].
  - pose proof (analyze_results_returns env model results) as Hrs.
    destruct (analyze_results env model results) as [e|records].
    + split; [by intros [? ?]|].
      intros H. apply Forall_cons_1 in H as [H _].
      apply Hrs in H as [? ?]. discriminate.
    + destruct (analyze_content env data) as [e|rest].
      * split; [by intros [? ?]|].
        intros H. apply Forall_cons_1 in H as [_ H].
        apply IH in H as [? ?]. discriminate.
      * split; [|by eexists]. intros _.
        constructor; [apply Hrs; by eexists|]. apply IH. by eexists.
Qed.

(** X21. The analysis stage writes its file exactly when every response is a
    text and no probe fails with an exception other than the
    [RequestException] that [check_url] catches; a link that is down, times
    out or answers 404 does not stop the stage, a record without a text
    does, and then nothing is written. *)
Theorem analyze_content_finishes_iff env data :
  (exists analyzed, analyze_content env data = inr analyzed) <->
  (forall model results result,
     (model, results) ∈ data -> result ∈ results ->
     exists text,
       Generate.response result = Some text /\
       forall i u e, extract_urls text !! i = Some u ->
         env model (Generate.id result) i u <> HeadFails e).
Proof.
  rewrite analyze_content_returns. split.
  - intros H model results result Hm Hr.
    rewrite Forall_forall in H. specialize (H _ Hm). simpl in H.
    rewrite Forall_forall in H. by apply analyze_result_returns, H.
  - intros H. apply Forall_forall. intros [model results] Hm.
    apply Forall_forall. intros result Hr. simpl.
    apply analyze_result_returns. by eapply H.
Qed.

Lemma analyze_content_finishes_iff_witness :
  exists analyzed,
    analyze_content (fun _ _ _ _ => HeadRaises "timed out")
      [("o4-mini"%string,
        [{| Generate.id := "P1";
            Generate.title := "5 Trends in AI-Assisted Learning";
            Generate.keywords := ["AI tutoring"]; Generate.prompt_tokens := 27;
            Generate.completion_tokens := 11; Generate.total_tokens := 38;
            Generate.latency_ms := 1200; Generate.cost_usd := 0%Q;
            Generate.response := Some "See http://example.org now" |}%string])]
    = inr analyzed.
Proof.
  apply (proj2 (analyze_content_finishes_iff _ _)).
  intros model results result Hm Hr.
  apply list_elem_of_singleton in Hm. injection Hm as -> ->.
  apply list_elem_of_singleton in Hr. subst result.
  eexists. split; [reflexivity|]. intros i u e _. discriminate.
Defined.

End ContentAnalysisFacts.

Section PipelineFacts.

Import Py Dict Analysis ContentAnalysis.

(** The costs file that a finished generation run from no prior file has
    left is the store in memory. *)
Lemma generate_main_disk env pricing prompts (st : Generate.state) costs :
  Generate.main env pricing prompts None = Finished st ->
  Generate.disk st = Some costs ->
  costs = Generate.existing_results st /\ pricing <> [] /\ prompts <> [].
Proof.
  intros H Hdisk.
  assert (Hprompts : prompts <> []).
  { intros ->.
    assert (Hinv : Generate.disk
                     (final_state (Generate.main env pricing [] None)) = None).
    { unfold Generate.main.
      apply (for_each_invariant (fun st => Generate.disk st = None));
        [|reflexivity].
      by intros [model rates] st0 Hst0. }
    rewrite H in Hinv. simpl in Hinv. congruence. }
  assert (Hpricing : pricing <> []).
  { intros ->. unfold Generate.main in H. simpl in H.
    injection H as <-. discriminate. }
  split; [|done].
  pose proof (generate_main_saved env pricing prompts None st
                Hpricing Hprompts H) as Hsaved.
  congruence.
Qed.

(** X22. The three stages run one after the other from no prior files, each
    reading the file the stage before has written: when all three finish,
    the judgment file has, for each model of the pricing table and in its
    order, one record per prompt, in the order of the prompts and with the
    id, the title and the keywords of its prompt, and each record has the
    word count of its own response. *)
Theorem pipeline_fresh (genv : Generate.gen_env) (penv : probe_env)
    (jenv : Judge.judge_env) pricing prompts
    (st1 : Generate.state) costs data (st3 : Judge.state) :
  NoDup (fst <$> pricing) -> NoDup (Generate.p_id <$> prompts) ->
  Generate.main genv pricing prompts None = Finished st1 ->
  Generate.disk st1 = Some costs ->
  analyze_content penv costs = inr data ->
  Judge.judge_content jenv None data = Finished st3 ->
  (fun entry : string * list Judge.JudgmentRecord =>
     (fst entry,
      (fun r => Generate.prompt_of (generation_of (Judge.analysis_of r)))
        <$> snd entry)) <$> Judge.existing_judgments st3
  = (fun entry : string * (Q * Q * Q) => (fst entry, prompts)) <$> pricing /\
  Judge.disk st3 = Some (Judge.existing_judgments st3) /\
  (forall model records r,
     (model, records) ∈ Judge.existing_judgments st3 -> r ∈ records ->
     Judge.words_count r = Z.of_nat (count_words (Judge.response r))).
Proof.
  intros Hmodels Hids Hgen Hdisk Han Hjudge.
  destruct (generate_main_disk _ _ _ _ _ Hgen Hdisk) as (-> & Hpricing & Hprompts).
  pose proof (fresh_generation_store _ _ _ _ Hmodels Hids Hgen) as Hstore1.
  pose proof (analyze_content_generation _ _ _ Han) as Hstore2.
  assert (Hdata : (fun entry : string * list Judge.AnalysisRecord =>
                     (fst entry,
                      (fun r => Generate.prompt_of (generation_of r))
                        <$> snd entry)) <$> data
                  = (fun entry : string * (Q * Q * Q) => (fst entry, prompts))
                      <$> pricing).
  { rewrite <- Hstore1, <- Hstore2, <- list_fmap_compose.
    apply list_fmap_ext. intros i [model records] _. simpl.
    by rewrite <- list_fmap_compose. }
  assert (Hdata_models : fst <$> data = fst <$> pricing).
  { apply (f_equal (fmap fst)) in Hdata.
    rewrite <- !list_fmap_compose in Hdata. exact Hdata. }
  assert (Hdata_ids : Forall (fun entry : string * list Judge.AnalysisRecord =>
                                (fun r => Generate.prompt_of (generation_of r))
                                  <$> snd entry = prompts) data).
  { apply Forall_forall. intros entry He.
    apply (list_elem_of_fmap_2
             (fun entry : string * list Judge.AnalysisRecord =>
                (fst entry,
                 (fun r => Generate.prompt_of (generation_of r)) <$> snd entry)))
      in He.
    rewrite Hdata in He. apply list_elem_of_fmap in He as (x & Hx & _).
    by injection Hx. }
  destruct (fresh_judgment_store jenv data st3) as [Hstore3 _].
  { by rewrite Hdata_models. }
  { eapply Forall_impl; [exact Hdata_ids|]. intros entry He. simpl in He.
    replace (Judge.a_id <$> snd entry)
      with (Generate.p_id <$>
              ((fun r => Generate.prompt_of (generation_of r)) <$> snd entry))
      by (by rewrite <- list_fmap_compose).
    by rewrite He. }
  { done. }
  split; [|split].
  - rewrite <- Hdata. rewrite <- Hstore3 at 1. rewrite <- list_fmap_compose.
    apply list_fmap_ext. intros i [model records] _. simpl.
    by rewrite <- list_fmap_compose.
  - apply (judge_content_saved jenv None data st3); [| |done].
    + intros ->. destruct pricing; [done|discriminate].
    + eapply Forall_impl; [exact Hdata_ids|]. intros entry He. simpl in He.
      intros Hnil. rewrite Hnil in He. by symmetry in He.
  - intros model records r Hm Hr.
    assert (Hin : (model, Judge.analysis_of <$> records) ∈ data).
    { rewrite <- Hstore3.
      by apply (list_elem_of_fmap_2
                  (fun entry : string * list Judge.JudgmentRecord =>
                     (fst entry, Judge.analysis_of <$> snd entry))
                  _ (model, records)). }
    assert (Hrin : Judge.analysis_of r ∈ Judge.analysis_of <$> records)
      by (by apply list_elem_of_fmap_2).
    destruct (analyze_content_records _ _ _ Han) as [_ Hrec].
    by destruct (Hrec _ _ _ Hin Hrin) as [Hw _].
Qed.

Lemma pipeline_fresh_witness :
  let genv :=
    {| Generate.openai_does := fun _ _ => Generate.CreateRaises;
       Generate.gemini_does :=
         fun _ _ => Generate.Responds (Some "An article."%string);
       Generate.elapsed_ms := fun _ _ => 1200 |} in
  let penv : probe_env := fun _ _ _ _ => HeadStatus 200 in
  let jenv : Judge.judge_env := fun _ _ => Judge.JRaises in
  let st1 := final_state (Generate.main genv Generate.pricing Generate.prompts None) in
  let costs := default [] (Generate.disk st1) in
  let data := match analyze_content penv costs with
              | inr analyzed => analyzed
              | inl _ => []
              end in
  let st3 := final_state (Judge.judge_content jenv None data) in
  Judge.disk st3 = Some (Judge.existing_judgments st3).
Proof.
  intros genv penv jenv st1 costs data st3.
  refine (proj1 (proj2 (pipeline_fresh genv penv jenv Generate.pricing
                          Generate.prompts st1 costs data st3 _ _ _ _ _ _)));
    [compute_done | compute_done | by vm_compute | by vm_compute
    | by vm_compute | by vm_compute].
Defined.

End PipelineFacts.

Section LiveQCMoreFacts.

Import Py LiveQC.
Local Open Scope string_scope.

(** The generation loop returns the text of the first attempt that gives a
    non-empty one, and makes no call after it. *)
Lemma generate_loop_first env instruction max_retries left :
  forall attempt w r w',
    generate_loop env instruction max_retries attempt left w = (r, w') ->
    (r = None /\
     (forall k, (k < left)%nat ->
        create_fails (create_does env (length (created w) + k) instruction)) /\
     created w' = (replicate left instruction ++ created w)%list) \/
    (exists c k,
       r = Some c /\ c <> EmptyString /\ (k < left)%nat /\
       create_does env (length (created w) + k) instruction = Response (Some c) /\
       (forall j, (j < k)%nat ->
          create_fails (create_does env (length (created w) + j) instruction)) /\
       created w' = (replicate (S k) instruction ++ created w)%list).
Proof.
  induction left as [|left IH]; intros attempt w r w' H; simpl in H.
  - injection H as <- <-. left. split; [done|]. split; [intros k Hk; lia|done].
  - assert (Hnext : forall w2,
      create_fails (create_does env (length (created w)) instruction) ->
      created w2 = instruction :: created w ->
      generate_loop env instruction max_retries (S attempt) left w2 = (r, w') ->
      (r = None /\
       (forall k, (k < S left)%nat ->
          create_fails (create_does env (length (created w) + k) instruction)) /\
       created w' = (replicate (S left) instruction ++ created w)%list) \/
      (exists c k,
         r = Some c /\ c <> EmptyString /\ (k < S left)%nat /\
         create_does env (length (created w) + k) instruction
         = Response (Some c) /\
         (forall j, (j < k)%nat ->
            create_fails (create_does env (length (created w) + j) instruction)) /\
         created w' = (replicate (S k) instruction ++ created w)%list)).
    { intros w2 Hfail Hw2 Hloop.
      assert (Hidx : forall k, (length (created w2) + k
                                = length (created w) + S k)%nat)
        by (intros k; rewrite Hw2; simpl; lia).
      apply IH in Hloop as [(-> & Hall & Hc)|(c & k & -> & Hne & Hk & Hok & Hbefore & Hc)].
      - left. split; [done|]. split.
        + intros [|k] Hk; [by rewrite Nat.add_0_r|].
          rewrite <- Hidx. apply Hall. lia.
        + rewrite Hc, Hw2. apply replicate_shift.
      - right. exists c, (S k). split; [done|]. split; [done|].
        split; [lia|]. split; [by rewrite <- Hidx|]. split.
        + intros [|j] Hj; [by rewrite Nat.add_0_r|].
          rewrite <- Hidx. apply Hbefore. lia.
        + rewrite Hc, Hw2. apply (replicate_shift (S k)). }
    destruct (create_does env (length (created w)) instruction)
      as [| |[[|c t]|]] eqn:E.
    + apply (Hnext _ I) in H; [done|]. apply backoff_fields.
    + by apply (Hnext _ I) in H.
    + by apply (Hnext _ I) in H.
    + injection H as <- <-. right. exists (String c t), 0%nat.
      split; [done|]. split; [done|]. split; [lia|].
      split; [by rewrite Nat.add_0_r|]. split; [intros j Hj; lia|done].
    + by apply (Hnext _ I) in H.
Qed.

(** X23. [generate_article] goes through the attempts in order and returns the
    first non-empty text: it returns [None] exactly when all [max_retries]
    attempts raise, return nothing or return an empty text, and after a
    text it makes no further call. *)
Theorem generate_article_first_success env tip max_retries w :
  let instruction := user_instruction tip in
  let r := fst (generate_article env tip max_retries w) in
  let w' := snd (generate_article env tip max_retries w) in
  (r = None /\
   (forall k, (k < max_retries)%nat ->
      create_fails (create_does env (length (created w) + k) instruction)) /\
   created w' = (replicate max_retries instruction ++ created w)%list) \/
  (exists c k,
     r = Some c /\ c <> EmptyString /\ (k < max_retries)%nat /\
     create_does env (length (created w) + k) instruction = Response (Some c) /\
     (forall j, (j < k)%nat ->
        create_fails (create_does env (length (created w) + j) instruction)) /\
     created w' = (replicate (S k) instruction ++ created w)%list).
Proof.
  intros instruction r w'. subst r w' instruction.
  unfold generate_article.
  destruct (generate_loop env (user_instruction tip) max_retries 0 max_retries
              (log_requested tip w)) as [r w'] eqn:H.
  apply generate_loop_first in H. exact H.
Qed.

(** The checking loop returns the first verdict the checker gives. *)
Lemma check_loop_first env content max_retries left :
  forall attempt w r w',
    check_loop env content max_retries attempt left w = (r, w') ->
    (r = None /\
     (forall k, (k < left)%nat ->
        forall qc, check_does env (length (checked w) + k) content <> Parsed qc) /\
     checked w' = (replicate left content ++ checked w)%list) \/
    (exists qc k,
       r = Some qc /\ (k < left)%nat /\
       check_does env (length (checked w) + k) content = Parsed qc /\
       (forall j, (j < k)%nat ->
          forall qc', check_does env (length (checked w) + j) content
                      <> Parsed qc') /\
       checked w' = (replicate (S k) content ++ checked w)%list).
Proof.
  induction left as [|left IH]; intros attempt w r w' H; simpl in H.
  - injection H as <- <-. left. split; [done|]. split; [intros k Hk; lia|done].
  - assert (Hnext : forall w2,
      (forall qc, check_does env (length (checked w)) content <> Parsed qc) ->
      checked w2 = content :: checked w ->
      check_loop env content max_retries (S attempt) left w2 = (r, w') ->
      (r = None /\
       (forall k, (k < S left)%nat ->
          forall qc, check_does env (length (checked w) + k) content
                     <> Parsed qc) /\
       checked w' = (replicate (S left) content ++ checked w)%list) \/
      (exists qc k,
         r = Some qc /\ (k < S left)%nat /\
         check_does env (length (checked w) + k) content = Parsed qc /\
         (forall j, (j < k)%nat ->
            forall qc', check_does env (length (checked w) + j) content
                        <> Parsed qc') /\
         checked w' = (replicate (S k) content ++ checked w)%list)).
    { intros w2 Hfail Hw2 Hloop.
      assert (Hidx : forall k, (length (checked w2) + k
                                = length (checked w) + S k)%nat)
        by (intros k; rewrite Hw2; simpl; lia).
      apply IH in Hloop as [(-> & Hall & Hc)|(qc & k & -> & Hk & Hok & Hbefore & Hc)].
      - left. split; [done|]. split.
        + intros [|k] Hk; [by rewrite Nat.add_0_r|].
          rewrite <- Hidx. apply Hall. lia.
        + rewrite Hc, Hw2. apply replicate_shift.
      - right. exists qc, (S k). split; [done|].
        split; [lia|]. split; [by rewrite <- Hidx|]. split.
        + intros [|j] Hj; [by rewrite Nat.add_0_r|].
          rewrite <- Hidx. apply Hbefore. lia.
        + rewrite Hc, Hw2. apply (replicate_shift (S k)). }
    destruct (check_does env (length (checked w)) content) as [| |qc] eqn:E.
    + apply Hnext in H; [done|done|]. apply backoff_fields.
    + by apply Hnext in H.
    + injection H as <- <-. right. exists qc, 0%nat.
      split; [done|]. split; [lia|].
      split; [by rewrite Nat.add_0_r|]. split; [intros j Hj; lia|done].
Qed.

(** X24. [check_quality] makes no call on an empty draft; on any other draft it
    returns the first verdict the checker gives within [max_retries]
    attempts, and [None] when there is none. *)
Theorem check_quality_first_verdict env content max_retries w :
  let r := fst (check_quality env content max_retries w) in
  let w' := snd (check_quality env content max_retries w) in
  match content with
  | None | Some EmptyString => r = None /\ w' = w
  | Some draft =>
      (r = None /\
       (forall k, (k < max_retries)%nat ->
          forall qc, check_does env (length (checked w) + k) draft <> Parsed qc) /\
       checked w' = (replicate max_retries draft ++ checked w)%list) \/
      (exists qc k,
         r = Some qc /\ (k < max_retries)%nat /\
         check_does env (length (checked w) + k) draft = Parsed qc /\
         (forall j, (j < k)%nat ->
            forall qc', check_does env (length (checked w) + j) draft
                        <> Parsed qc') /\
         checked w' = (replicate (S k) draft ++ checked w)%list)
  end.
Proof.
  intros r w'. subst r w'. unfold check_quality.
  destruct content as [[|c t]|]; [done| |done].
  destruct (check_loop env (String c t) max_retries 0 max_retries w)
    as [r w'] eqn:H.
  apply check_loop_first in H. exact H.
Qed.

Lemma backoff_slept attempt w :
  slept (backoff 3 attempt w)
  = match attempt with
    | 0%nat => 1 :: slept w
    | 1%nat => 2 :: slept w
    | _ => slept w
    end.
Proof. by destruct attempt as [|[|attempt]]. Qed.

(** The seconds a loop of three attempts can still sleep from [attempt]
    on. *)
Lemma generate_loop_budget env instruction left :
  forall attempt w r w',
    (attempt + left = 3)%nat ->
    generate_loop env instruction 3 attempt left w = (r, w') ->
    (length (created w') <= length (created w) + left)%nat /\
    checked w' = checked w /\ saved w' = saved w /\
    seconds_slept w'
    <= seconds_slept w + match attempt with 0%nat => 3 | 1%nat => 2 | _ => 0 end.
Proof.
  induction left as [|left IH]; intros attempt w r w' Hsum H; simpl in H.
  - injection H as <- <-. repeat split; [lia|]. destruct attempt as [|[|?]]; lia.
  - assert (Hnext : forall w2,
      created w2 = instruction :: created w -> checked w2 = checked w ->
      saved w2 = saved w ->
      seconds_slept w2 + match S attempt with 1%nat => 2 | _ => 0 end
      <= seconds_slept w + match attempt with 0%nat => 3 | 1%nat => 2 | _ => 0 end ->
      generate_loop env instruction 3 (S attempt) left w2 = (r, w') ->
      (length (created w') <= length (created w) + S left)%nat /\
      checked w' = checked w /\ saved w' = saved w /\
      seconds_slept w'
      <= seconds_slept w + match attempt with 0%nat => 3 | 1%nat => 2 | _ => 0 end).
    { intros w2 Hc Hk Hs Hz Hloop.
      apply IH in Hloop as (H1 & H2 & H3 & H4); [|lia].
      rewrite Hc in H1. simpl in H1. rewrite H2, H3, Hk, Hs.
      repeat split; [lia|]. simpl in Hz. lia. }
    destruct (create_does env (length (created w)) instruction)
      as [| |[[|c t]|]] eqn:E.
    + destruct (backoff_fields 3 attempt (log_created instruction w))
        as (F1 & F2 & F3 & F4).
      apply Hnext in H; [done|by rewrite F1|by rewrite F2|by rewrite F4|].
      unfold seconds_slept. rewrite backoff_slept.
      destruct attempt as [|[|[|?]]]; simpl; lia.
    + apply Hnext in H; [done..|]. unfold seconds_slept. simpl.
      destruct attempt as [|[|[|?]]]; simpl; lia.
    + apply Hnext in H; [done..|]. unfold seconds_slept. simpl.
      destruct attempt as [|[|[|?]]]; simpl; lia.
    + injection H as <- <-. simpl. repeat split; [lia|].
      unfold seconds_slept. simpl. destruct attempt as [|[|[|?]]]; lia.
    + apply Hnext in H; [done..|]. unfold seconds_slept. simpl.
      destruct attempt as [|[|[|?]]]; simpl; lia.
Qed.

Lemma check_loop_budget env content left :
  forall attempt w r w',
    (attempt + left = 3)%nat ->
    check_loop env content 3 attempt left w = (r, w') ->
    (length (checked w') <= length (checked w) + left)%nat /\
    created w' = created w /\ saved w' = saved w /\
    seconds_slept w'
    <= seconds_slept w + match attempt with 0%nat => 3 | 1%nat => 2 | _ => 0 end.
Proof.
  induction left as [|left IH]; intros attempt w r w' Hsum H; simpl in H.
  - injection H as <- <-. repeat split; [lia|]. destruct attempt as [|[|?]]; lia.
  - assert (Hnext : forall w2,
      checked w2 = content :: checked w -> created w2 = created w ->
      saved w2 = saved w ->
      seconds_slept w2 + match S attempt with 1%nat => 2 | _ => 0 end
      <= seconds_slept w + match attempt with 0%nat => 3 | 1%nat => 2 | _ => 0 end ->
      check_loop env content 3 (S attempt) left w2 = (r, w') ->
      (length (checked w') <= length (checked w) + S left)%nat /\
      created w' = created w /\ saved w' = saved w /\
      seconds_slept w'
      <= seconds_slept w + match attempt with 0%nat => 3 | 1%nat => 2 | _ => 0 end).
    { intros w2 Hk Hc Hs Hz Hloop.
      apply IH in Hloop as (H1 & H2 & H3 & H4); [|lia].
      rewrite Hk in H1. simpl in H1. rewrite H2, H3, Hc, Hs.
      repeat split; [lia|]. simpl in Hz. lia. }
    destruct (check_does env (length (checked w)) content) as [| |qc] eqn:E.
    + destruct (backoff_fields 3 attempt (log_checked content w))
        as (F1 & F2 & F3 & F4).
      apply Hnext in H; [done|by rewrite F2|by rewrite F1|by rewrite F4|].
      unfold seconds_slept. rewrite backoff_slept.
      destruct attempt as [|[|[|?]]]; simpl; lia.
    + apply Hnext in H; [done..|]. unfold seconds_slept. simpl.
      destruct attempt as [|[|[|?]]]; simpl; lia.
    + injection H as <- <-. simpl. repeat split; [lia|].
      unfold seconds_slept. simpl. destruct attempt as [|[|[|?]]]; lia.
Qed.

Lemma generate_article_budget env tip w r w' :
  generate_article env tip 3 w = (r, w') ->
  (length (created w') <= length (created w) + 3)%nat /\
  checked w' = checked w /\ saved w' = saved w /\
  seconds_slept w' <= seconds_slept w + 3.
Proof.
  unfold generate_article. intros H.
  by apply generate_loop_budget in H.
Qed.

Lemma check_quality_budget env content w r w' :
  check_quality env content 3 w = (r, w') ->
  (length (checked w') <= length (checked w) + 3)%nat /\
  created w' = created w /\ saved w' = saved w /\
  seconds_slept w' <= seconds_slept w + 3.
Proof.
  unfold check_quality. destruct content as [[|c t]|].
  - intros [= <- <-]. repeat split; lia.
  - intros H. by apply check_loop_budget in H.
  - intros [= <- <-]. repeat split; lia.
Qed.

(** X25. One run of the pipeline makes at most six calls of the generation
    capability and six of the checker, sleeps at most twelve seconds
    between failed attempts and saves at most one file; without one of the
    two API keys it makes no call at all. *)
Theorem main_budget env w :
  (length (created (main env w)) <= length (created w) + 6)%nat /\
  (length (checked (main env w)) <= length (checked w) + 6)%nat /\
  seconds_slept (main env w) <= seconds_slept w + 12 /\
  (length (saved (main env w)) <= length (saved w) + 1)%nat /\
  (openai_key env && gemini_key env = false -> main env w = w).
Proof.
  assert (Hkeys : openai_key env && gemini_key env = false -> main env w = w).
  { unfold main, check_api_keys.
    destruct (openai_key env), (gemini_key env); simpl; done. }
  assert (Hall :
    (length (created (main env w)) <= length (created w) + 6)%nat /\
    (length (checked (main env w)) <= length (checked w) + 6)%nat /\
    seconds_slept (main env w) <= seconds_slept w + 12 /\
    (length (saved (main env w)) <= length (saved w) + 1)%nat);
    [|by repeat split; try apply Hall].
  clear Hkeys. unfold main. destruct (check_api_keys env); [lia|].
  destruct (generate_article env None 3 w) as [r1 w1] eqn:E1.
  apply generate_article_budget in E1 as (A1 & A2 & A3 & A4).
  apply (f_equal length) in A2, A3.
  destruct r1 as [[|c t]|]; [lia| |lia].
  destruct (check_quality env (Some (String c t)) 3 w1) as [r2 w2] eqn:E2.
  apply check_quality_budget in E2 as (B1 & B2 & B3 & B4).
  apply (f_equal length) in B2, B3.
  destruct r2 as [qc|]; [|lia].
  destruct (String.eqb (verdict qc) "APPROVED");
    [unfold seconds_slept in *; simpl; lia|].
  destruct (generate_article env (Some (tip qc)) 3 w2) as [r3 w3] eqn:E3.
  apply generate_article_budget in E3 as (C1 & C2 & C3 & C4).
  apply (f_equal length) in C2, C3.
  destruct r3 as [[|c' t']|];
    [unfold seconds_slept in *; simpl; lia
    | |unfold seconds_slept in *; simpl; lia].
  destruct (check_quality env (Some (String c' t')) 3 w3) as [r4 w4] eqn:E4.
  apply check_quality_budget in E4 as (D1 & D2 & D3 & D4).
  apply (f_equal length) in D2, D3.
  destruct r4 as [qc'|]; unfold seconds_slept in *; simpl; lia.
Qed.

Lemma check_quality_parsed env content max_retries w qc w' :
  check_quality env (Some content) max_retries w = (Some qc, w') ->
  exists n, check_does env n content = Parsed qc.
Proof.
  unfold check_quality. destruct content as [|c t]; [discriminate|].
  intros H. apply check_loop_first in H
    as [(Hnone & _)|(qc' & k & [= <-] & _ & Hk & _)]; [discriminate|].
  by eexists.
Qed.

(** X26. A run saves nothing or one file.  The file holds a non-empty draft
    together with a verdict that the checker gave on this very draft, and
    its status is one of the four, an approved one exactly when that
    verdict is APPROVED. *)
Theorem main_saves env w :
  saved (main env w) = saved w \/
  exists f,
    saved (main env w) = f :: saved w /\
    s_content f <> EmptyString /\
    s_status f ∈ statuses /\
    (exists n, check_does env n (s_content f) = Parsed (s_qc_result f)) /\
    (verdict (s_qc_result f) = "APPROVED" <->
     s_status f = "approved" \/ s_status f = "approved_revised").
Proof.
  unfold main. destruct (check_api_keys env); [by left|].
  destruct (generate_article env None 3 w) as [r1 w1] eqn:E1.
  apply generate_article_spec in E1 as (n1 & _ & _ & _ & _ & A & _).
  destruct r1 as [[|c t]|]; [by left| |by left].
  destruct (check_quality env (Some (String c t)) 3 w1) as [r2 w2] eqn:E2.
  pose proof (check_quality_spec _ _ _ _ _ _ E2) as (_ & _ & B).
  destruct r2 as [qc|]; [|left; congruence].
  apply check_quality_parsed in E2 as Hqc.
  destruct (String.eqb (verdict qc) "APPROVED") eqn:Ev.
  { right. eexists. split; [simpl; by rewrite B, A|]. simpl.
    split; [done|]. split; [apply list_elem_of_here|]. split; [done|].
    apply String.eqb_eq in Ev. split; [by left|done]. }
  apply String.eqb_neq in Ev.
  destruct (generate_article env (Some (tip qc)) 3 w2) as [r3 w3] eqn:E3.
  apply generate_article_spec in E3 as (n3 & _ & _ & _ & _ & C & _).
  assert (Hno : exists f,
    saved (save_results (String c t) qc "rejected_no_revision" w3)
    = f :: saved w /\
    s_content f <> EmptyString /\ s_status f ∈ statuses /\
    (exists n, check_does env n (s_content f) = Parsed (s_qc_result f)) /\
    (verdict (s_qc_result f) = "APPROVED" <->
     s_status f = "approved" \/ s_status f = "approved_revised")).
  { eexists. split; [simpl; by rewrite C, B, A|]. simpl.
    split; [done|]. split; [do 3 apply list_elem_of_further;
                            apply list_elem_of_here|].
    split; [done|]. split; [done|]. by intros [?|?]. }
  destruct r3 as [[|c' t']|]; [by right| |by right].
  destruct (check_quality env (Some (String c' t')) 3 w3) as [r4 w4] eqn:E4.
  pose proof (check_quality_spec _ _ _ _ _ _ E4) as (_ & _ & D).
  destruct r4 as [qc'|]; [|left; congruence].
  apply check_quality_parsed in E4 as Hqc'.
  right. eexists. split; [simpl; by rewrite D, C, B, A|]. simpl.
  split; [done|]. split; [|split; [done|]].
  - destruct (String.eqb (verdict qc') "APPROVED").
    + apply list_elem_of_further, list_elem_of_here.
    + do 2 apply list_elem_of_further. apply list_elem_of_here.
  - destruct (String.eqb (verdict qc') "APPROVED") eqn:Ev'.
    + apply String.eqb_eq in Ev'. split; [by right|done].
    + apply String.eqb_neq in Ev'. split; [done|]. by intros [?|?].
Qed.

(** X27. A revision that is written but cannot be checked leaves no file at
    all: when the first draft is rejected, a revised draft comes back and
    the checker gives no verdict on it in three attempts, neither the
    revision nor the first draft with its verdict is saved (while a
    revision that cannot be written leaves the first draft saved as
    "rejected_no_revision"). *)
Theorem main_unchecked_revision_lost (env : qc_env) (w0 w1 w2 w3 w4 : world)
    (content revised : string) (qc : QCResult) :
  check_api_keys env = None ->
  generate_article env None 3 w0 = (Some content, w1) ->
  check_quality env (Some content) 3 w1 = (Some qc, w2) ->
  verdict qc <> "APPROVED" ->
  generate_article env (Some (tip qc)) 3 w2 = (Some revised, w3) ->
  check_quality env (Some revised) 3 w3 = (None, w4) ->
  main env w0 = w4 /\ saved (main env w0) = saved w0 /\
  (forall k, (k < 3)%nat ->
     forall v, check_does env (length (checked w3) + k) revised <> Parsed v).
Proof.
  intros Hkeys Hgen Hqc Hverdict Hregen Hrecheck.
  destruct (generate_article_spec _ _ _ _ _ _ Hgen)
    as (n1 & _ & _ & _ & _ & A & _ & Hne).
  specialize (Hne content eq_refl).
  destruct (check_quality_spec _ _ _ _ _ _ Hqc) as (_ & _ & B).
  destruct (generate_article_spec _ _ _ _ _ _ Hregen)
    as (n3 & _ & _ & _ & _ & C & _ & Hne').
  specialize (Hne' revised eq_refl).
  destruct (check_quality_spec _ _ _ _ _ _ Hrecheck) as (_ & _ & D).
  destruct content as [|c t]; [done|]. destruct revised as [|c' t']; [done|].
  assert (Hmain : main env w0 = w4).
  { unfold main. rewrite Hkeys, Hgen. cbv beta iota zeta. rewrite Hqc.
    cbv beta iota zeta. apply String.eqb_neq in Hverdict. rewrite Hverdict.
    rewrite Hregen. cbv beta iota zeta. by rewrite Hrecheck. }
  split; [done|]. split; [by rewrite Hmain, D, C, B, A|].
  unfold check_quality in Hrecheck.
  apply check_loop_first in Hrecheck
    as [(_ & Hall & _)|(v & k & [=] & _)].
  exact Hall.
Qed.

Lemma main_unchecked_revision_lost_witness :
  let env := {| openai_key := true; gemini_key := true;
                create_does := fun n _ =>
                  match n with
                  | O => Response (Some "First draft.")
                  | _ => Response (Some "Second draft.")
                  end;
                check_does := fun n _ =>
                  match n with
                  | O => Parsed {| verdict := "REJECTED";
                                   tip := "Add two sources." |}
                  | _ => CheckRaises
                  end |} in
  let w0 := {| created := []; checked := []; slept := []; requested := [];
               saved := [] |} in
  saved (main env w0) = [] /\
  created (main env w0) = [user_instruction (Some "Add two sources."); EmptyString].
Proof.
  intros env w0.
  pose proof (main_unchecked_revision_lost env w0
    (snd (generate_article env None 3 w0))
    (snd (check_quality env (Some "First draft.") 3
            (snd (generate_article env None 3 w0))))
    (snd (generate_article env (Some "Add two sources.") 3
            (snd (check_quality env (Some "First draft.") 3
                    (snd (generate_article env None 3 w0))))))
    (main env w0)
    "First draft." "Second draft."
    {| verdict := "REJECTED"; tip := "Add two sources." |}
    eq_refl eq_refl eq_refl) as H.
  destruct H as (_ & Hsaved & _); [discriminate|reflexivity|reflexivity|].
  split; [exact Hsaved|reflexivity].
Defined.

End LiveQCMoreFacts.
